(** * sockpuppet: error context, socket addresses and socket handles

    A shallow embedding of [src/error.c], [src/socketaddress.c],
    [src/util.c] and [src/socket.c], the properties the specification
    states about them, and further properties of the code.  Left out
    are [socket_new] and [socket_init_once] (their calls, [socket] and
    [signal], are not among the calls modelled), [socket_close_once]
    (empty in this build) and [socket_address_get_address] (it is
    [inet_ntop] and [strdup]).

    Build that is modelled: the POSIX branch of the sources (neither
    [_WINDOWS] nor [__OS2__]), with [AF_INET6] available, as compiled for
    Linux on x86-64 (little-endian, glibc layout of [struct sockaddr_in]
    and [struct sockaddr_in6]).  The readiness wait is modelled for both
    POSIX backends ([poll] and [select]).

    Conventions.
    - C integers are [Z]; where the C type narrows a value the wrap-around
      is written out ([u16], [u32], [s32]).
    - Memory buffers are [list byte]; a pointer that may be [NULL] is an
      [option].
    - [calloc] is taken to succeed and to return zeroed memory; [free] is
      recorded as an event so that "no effect" can be stated.
    - Diagnostics printed by [ALERT_WARNING] / [ALERT_ERROR] are not part
      of the model.
    - Everything outside the process (system calls, [errno]) is an oracle
      carried by the [World]; loops that retry on [EINTR] or on a
      would-block condition take fuel and yield [None] when it runs out. *)

From Stdlib Require Import String Ascii.
From Stdlib Require Import ZArith List Bool Lia.
From Stdlib Require Import Init.Byte.
Import ListNotations.

Local Open Scope Z_scope.

(* ================================================================== *)
(** * Error context ([src/error.h], [src/error.c]) *)
(* ================================================================== *)

Module Error.

(** [typedef enum { ... } ErrorIO] *)
Inductive ErrorIO : Type :=
| ERROR_IO_NONE
| ERROR_IO_NO_RESOURCES
| ERROR_IO_NOT_AVAILABLE
| ERROR_IO_ACCESS_DENIED
| ERROR_IO_CONNECTED
| ERROR_IO_IN_PROGRESS
| ERROR_IO_ABORTED
| ERROR_IO_INVALID_ARGUMENT
| ERROR_IO_NOT_SUPPORTED
| ERROR_IO_TIMED_OUT
| ERROR_IO_WOULD_BLOCK
| ERROR_IO_ADDRESS_IN_USE
| ERROR_IO_CONNECTION_REFUSED
| ERROR_IO_NOT_CONNECTED
| ERROR_IO_QUOTA
| ERROR_IO_IS_DIRECTORY
| ERROR_IO_NOT_DIRECTORY
| ERROR_IO_NAMETOOLONG
| ERROR_IO_EXISTS
| ERROR_IO_NOT_EXISTS
| ERROR_IO_NO_MORE
| ERROR_IO_NOT_IMPLEMENTED
| ERROR_IO_FAILED.

(** The numeric value of each enumerator, as [error.h] assigns it. *)
Definition ErrorIO_value (e : ErrorIO) : Z :=
  match e with
  | ERROR_IO_NONE => 500
  | ERROR_IO_NO_RESOURCES => 501
  | ERROR_IO_NOT_AVAILABLE => 502
  | ERROR_IO_ACCESS_DENIED => 503
  | ERROR_IO_CONNECTED => 504
  | ERROR_IO_IN_PROGRESS => 505
  | ERROR_IO_ABORTED => 506
  | ERROR_IO_INVALID_ARGUMENT => 507
  | ERROR_IO_NOT_SUPPORTED => 508
  | ERROR_IO_TIMED_OUT => 509
  | ERROR_IO_WOULD_BLOCK => 510
  | ERROR_IO_ADDRESS_IN_USE => 511
  | ERROR_IO_CONNECTION_REFUSED => 512
  | ERROR_IO_NOT_CONNECTED => 513
  | ERROR_IO_QUOTA => 514
  | ERROR_IO_IS_DIRECTORY => 515
  | ERROR_IO_NOT_DIRECTORY => 516
  | ERROR_IO_NAMETOOLONG => 517
  | ERROR_IO_EXISTS => 518
  | ERROR_IO_NOT_EXISTS => 519
  | ERROR_IO_NO_MORE => 520
  | ERROR_IO_NOT_IMPLEMENTED => 521
  | ERROR_IO_FAILED => 522
  end.

(** The 23 portable kinds, in declaration order. *)
Definition all_kinds : list ErrorIO :=
  [ ERROR_IO_NONE; ERROR_IO_NO_RESOURCES; ERROR_IO_NOT_AVAILABLE;
    ERROR_IO_ACCESS_DENIED; ERROR_IO_CONNECTED; ERROR_IO_IN_PROGRESS;
    ERROR_IO_ABORTED; ERROR_IO_INVALID_ARGUMENT; ERROR_IO_NOT_SUPPORTED;
    ERROR_IO_TIMED_OUT; ERROR_IO_WOULD_BLOCK; ERROR_IO_ADDRESS_IN_USE;
    ERROR_IO_CONNECTION_REFUSED; ERROR_IO_NOT_CONNECTED; ERROR_IO_QUOTA;
    ERROR_IO_IS_DIRECTORY; ERROR_IO_NOT_DIRECTORY; ERROR_IO_NAMETOOLONG;
    ERROR_IO_EXISTS; ERROR_IO_NOT_EXISTS; ERROR_IO_NO_MORE;
    ERROR_IO_NOT_IMPLEMENTED; ERROR_IO_FAILED ].

Definition ErrorIO_eqb (a b : ErrorIO) : bool :=
  ErrorIO_value a =? ErrorIO_value b.

(** The error numbers of [<errno.h>] that the sources name.  They are
    supplied by the platform, not by the repository, so the
    classification is stated for any assignment of numbers to them. *)
Class ErrnoTable : Type := {
  EACCES : Z; EPERM : Z; ENOMEM : Z; ENOSR : Z; ENOBUFS : Z; ENFILE : Z;
  ENOSPC : Z; EMFILE : Z; EINVAL : Z; EBADF : Z; ENOTSOCK : Z; EFAULT : Z;
  EPROTOTYPE : Z; ENOTSUP : Z; ENOPROTOOPT : Z; EPROTONOSUPPORT : Z;
  EAFNOSUPPORT : Z; EOPNOTSUPP : Z; EADDRNOTAVAIL : Z; ENETUNREACH : Z;
  ENETDOWN : Z; EHOSTDOWN : Z; ENONET : Z; EHOSTUNREACH : Z;
  EINPROGRESS : Z; EALREADY : Z; EISCONN : Z; ECONNREFUSED : Z;
  ENOTCONN : Z; ECONNABORTED : Z; EADDRINUSE : Z; ETIMEDOUT : Z;
  EDQUOT : Z; EISDIR : Z; ENOTDIR : Z; EEXIST : Z; ENOENT : Z;
  ENAMETOOLONG : Z; ENOSYS : Z; EAGAIN : Z; EWOULDBLOCK : Z;
  EINTR : Z
}.

(** The numbering of Linux (asm-generic errno).  [ENOTSUP] and
    [EOPNOTSUPP], and [EWOULDBLOCK] and [EAGAIN], coincide there, which
    the preprocessor guards of the source account for. *)
Definition linux_errno : ErrnoTable := {|
  EACCES := 13; EPERM := 1; ENOMEM := 12; ENOSR := 63; ENOBUFS := 105;
  ENFILE := 23; ENOSPC := 28; EMFILE := 24; EINVAL := 22; EBADF := 9;
  ENOTSOCK := 88; EFAULT := 14; EPROTOTYPE := 91; ENOTSUP := 95;
  ENOPROTOOPT := 92; EPROTONOSUPPORT := 93; EAFNOSUPPORT := 97;
  EOPNOTSUPP := 95; EADDRNOTAVAIL := 99; ENETUNREACH := 101;
  ENETDOWN := 100; EHOSTDOWN := 112; ENONET := 64; EHOSTUNREACH := 113;
  EINPROGRESS := 115; EALREADY := 114; EISCONN := 106;
  ECONNREFUSED := 111; ENOTCONN := 107; ECONNABORTED := 103;
  EADDRINUSE := 98; ETIMEDOUT := 110; EDQUOT := 122; EISDIR := 21;
  ENOTDIR := 20; EEXIST := 17; ENOENT := 2; ENAMETOOLONG := 36;
  ENOSYS := 38; EAGAIN := 11; EWOULDBLOCK := 11; EINTR := 4
|}.

Section Classification.
Context {errno_h : ErrnoTable}.

(** The [case] labels of the POSIX branch of the [switch], with the kind
    each returns, in source order.  [case 0] comes first.  Where the
    platform gives two constants the same number ([ENOTSUP] and
    [EOPNOTSUPP], [EWOULDBLOCK] and [EAGAIN]) the source emits one of
    the two labels only; both return the same kind, so listing both
    selects the same result. *)
Definition switch_cases : list (Z * ErrorIO) :=
  [ (0, ERROR_IO_NONE);
    (EACCES, ERROR_IO_ACCESS_DENIED);
    (EPERM, ERROR_IO_ACCESS_DENIED);
    (ENOMEM, ERROR_IO_NO_RESOURCES);
    (ENOSR, ERROR_IO_NO_RESOURCES);
    (ENOBUFS, ERROR_IO_NO_RESOURCES);
    (ENFILE, ERROR_IO_NO_RESOURCES);
    (ENOSPC, ERROR_IO_NO_RESOURCES);
    (EMFILE, ERROR_IO_NO_RESOURCES);
    (EINVAL, ERROR_IO_INVALID_ARGUMENT);
    (EBADF, ERROR_IO_INVALID_ARGUMENT);
    (ENOTSOCK, ERROR_IO_INVALID_ARGUMENT);
    (EFAULT, ERROR_IO_INVALID_ARGUMENT);
    (EPROTOTYPE, ERROR_IO_INVALID_ARGUMENT);
    (ENOTSUP, ERROR_IO_NOT_SUPPORTED);
    (ENOPROTOOPT, ERROR_IO_NOT_SUPPORTED);
    (EPROTONOSUPPORT, ERROR_IO_NOT_SUPPORTED);
    (EAFNOSUPPORT, ERROR_IO_NOT_SUPPORTED);
    (EOPNOTSUPP, ERROR_IO_NOT_SUPPORTED);
    (EADDRNOTAVAIL, ERROR_IO_NOT_AVAILABLE);
    (ENETUNREACH, ERROR_IO_NOT_AVAILABLE);
    (ENETDOWN, ERROR_IO_NOT_AVAILABLE);
    (EHOSTDOWN, ERROR_IO_NOT_AVAILABLE);
    (ENONET, ERROR_IO_NOT_AVAILABLE);
    (EHOSTUNREACH, ERROR_IO_NOT_AVAILABLE);
    (EINPROGRESS, ERROR_IO_IN_PROGRESS);
    (EALREADY, ERROR_IO_IN_PROGRESS);
    (EISCONN, ERROR_IO_CONNECTED);
    (ECONNREFUSED, ERROR_IO_CONNECTION_REFUSED);
    (ENOTCONN, ERROR_IO_NOT_CONNECTED);
    (ECONNABORTED, ERROR_IO_ABORTED);
    (EADDRINUSE, ERROR_IO_ADDRESS_IN_USE);
    (ETIMEDOUT, ERROR_IO_TIMED_OUT);
    (EDQUOT, ERROR_IO_QUOTA);
    (EISDIR, ERROR_IO_IS_DIRECTORY);
    (ENOTDIR, ERROR_IO_NOT_DIRECTORY);
    (EEXIST, ERROR_IO_EXISTS);
    (ENOENT, ERROR_IO_NOT_EXISTS);
    (ENAMETOOLONG, ERROR_IO_NAMETOOLONG);
    (ENOSYS, ERROR_IO_NOT_IMPLEMENTED);
    (EAGAIN, ERROR_IO_WOULD_BLOCK);
    (EWOULDBLOCK, ERROR_IO_WOULD_BLOCK) ].

(** Dispatch of a [switch]: the label equal to the scrutinee selects the
    result, and [default] applies when there is none. *)
Fixpoint switch (cases : list (Z * ErrorIO)) (default : ErrorIO)
                (scrutinee : Z) : ErrorIO :=
  match cases with
  | [] => default
  | (label, result) :: rest =>
      if scrutinee =? label then result else switch rest default scrutinee
  end.

(** [ErrorIO error_get_io_from_system(int32_t err_code)] *)
Definition error_get_io_from_system (err_code : Z) : ErrorIO :=
  switch switch_cases ERROR_IO_FAILED err_code.

(** The numbers the [switch] names explicitly. *)
Definition mapped_numbers : list Z := map fst switch_cases.

End Classification.

(** [static struct { int32_t code; int32_t native_code; char *message; }
    CURRENT_ERROR] — [message] is [NULL] until an error is recorded. *)
Record ErrorState : Type := {
  code : Z;
  native_code : Z;
  message : option string
}.

(** [CURRENT_ERROR = {0}] *)
Definition no_error : ErrorState :=
  {| code := 0; native_code := 0; message := None |}.

(** The enumerator whose value is [v], if there is one. *)
Definition ErrorIO_of_value (v : Z) : option ErrorIO :=
  find (fun k => ErrorIO_value k =? v) all_kinds.

(** [const char *error_code_to_string(ErrorIO error)]: a [switch] over
    the 23 enumerators, and ["?"] after it for any other number. *)
Definition error_code_to_string (error : Z) : string :=
  match ErrorIO_of_value error with
  | Some ERROR_IO_NONE => "No error."
  | Some ERROR_IO_NO_RESOURCES => "Operating system hasn't enough resources."
  | Some ERROR_IO_NOT_AVAILABLE => "Resource isn't available."
  | Some ERROR_IO_ACCESS_DENIED => "Access denied."
  | Some ERROR_IO_CONNECTED => "Already connected."
  | Some ERROR_IO_IN_PROGRESS => "Operation in progress."
  | Some ERROR_IO_ABORTED => "Operation aborted."
  | Some ERROR_IO_INVALID_ARGUMENT => "Invalid argument specified."
  | Some ERROR_IO_NOT_SUPPORTED => "Operation not supported."
  | Some ERROR_IO_TIMED_OUT => "Operation timed out."
  | Some ERROR_IO_WOULD_BLOCK => "Operation cannot be completed immediatly."
  | Some ERROR_IO_ADDRESS_IN_USE => "Address is already under usage."
  | Some ERROR_IO_CONNECTION_REFUSED => "Connection refused."
  | Some ERROR_IO_NOT_CONNECTED => "Connection required first."
  | Some ERROR_IO_QUOTA => "User quota exceeded."
  | Some ERROR_IO_IS_DIRECTORY => "Trying to open directory for writing."
  | Some ERROR_IO_NOT_DIRECTORY =>
      "Component of the path prefix is not a directory. "
  | Some ERROR_IO_NAMETOOLONG => "Specified name is too long."
  | Some ERROR_IO_EXISTS => "Specified entry already exists."
  | Some ERROR_IO_NOT_EXISTS => "Specified entry doesn't exist."
  | Some ERROR_IO_NO_MORE => "No more data left."
  | Some ERROR_IO_NOT_IMPLEMENTED => "Operation is not implemented."
  | Some ERROR_IO_FAILED => "General error."
  | None => "?"
  end%string.

End Error.

(* ================================================================== *)
(** * Machine integers and memory *)
(* ================================================================== *)

Module Mem.

Definition Z_of_byte (b : byte) : Z := Z.of_N (Byte.to_N b).

(** The byte holding the low eight bits of [z]. *)
Definition byte_of_Z (z : Z) : byte :=
  match Byte.of_N (Z.to_N (z mod 256)) with
  | Some b => b
  | None => x00
  end.

Definition u16 (z : Z) : Z := z mod 65536.
Definition u32 (z : Z) : Z := z mod 4294967296.

(** Conversion to [int32_t] (two's complement). *)
Definition s32 (z : Z) : Z := (z + 2147483648) mod 4294967296 - 2147483648.

(** [n] bytes of [mem] starting at offset [off]; memory past the end of
    the buffer reads as zero. *)
Definition read_bytes (off n : nat) (mem : list byte) : list byte :=
  map (fun i => nth i mem x00) (seq off n).

(** [memcpy (mem + off, src, length src)] *)
Definition write_at (off : nat) (src mem : list byte) : list byte :=
  firstn off mem ++ src ++ skipn (off + length src) mem.

(** Host-order (little-endian) loads and stores. *)
Fixpoint le_decode (bs : list byte) : Z :=
  match bs with
  | [] => 0
  | b :: rest => Z_of_byte b + 256 * le_decode rest
  end.

Fixpoint le_encode (n : nat) (z : Z) : list byte :=
  match n with
  | O => []
  | S k => byte_of_Z z :: le_encode k (z / 256)
  end.

Definition load16 (mem : list byte) (off : nat) : Z := le_decode (read_bytes off 2 mem).
Definition load32 (mem : list byte) (off : nat) : Z := le_decode (read_bytes off 4 mem).
Definition store16 (mem : list byte) (off : nat) (v : Z) : list byte :=
  write_at off (le_encode 2 v) mem.
Definition store32 (mem : list byte) (off : nat) (v : Z) : list byte :=
  write_at off (le_encode 4 v) mem.

(** [htons] / [ntohs] on a little-endian host: swap the two bytes. *)
Definition bswap16 (x : Z) : Z :=
  Z.lor (Z.shiftl (Z.land x 255) 8) (Z.land (Z.shiftr x 8) 255).
Definition htons := bswap16.
Definition ntohs := bswap16.

(** [ntohl] on a little-endian host: reverse the four bytes. *)
Definition bswap32 (x : Z) : Z :=
  Z.lor (Z.lor (Z.shiftl (Z.land x 255) 24)
               (Z.shiftl (Z.land (Z.shiftr x 8) 255) 16))
        (Z.lor (Z.shiftl (Z.land (Z.shiftr x 16) 255) 8)
               (Z.land (Z.shiftr x 24) 255)).
Definition ntohl := bswap32.

Definition zeros (n : nat) : list byte := repeat x00 n.

Definition bytes_eqb (a b : list byte) : bool :=
  (length a =? length b)%nat &&
  forallb (fun p => Byte.eqb (fst p) (snd p)) (combine a b).

End Mem.

(* ================================================================== *)
(** * The C library's numeric address parsers

    [inet_pton] and [getaddrinfo] belong to the platform, not to the
    repository.  They are modelled for the textual forms the sources
    hand to them: dotted-decimal IPv4 ([inet_pton (AF_INET, ...)]), the
    colon-hexadecimal IPv6 forms of RFC 4291 section 2.2, and an
    optional numeric zone index after [%] for [getaddrinfo] with
    [AI_NUMERICHOST]. *)
(* ================================================================== *)

Module Libc.
Import Mem.

Definition AF_UNSPEC : Z := 0.
Definition AF_INET : Z := 2.
Definition AF_INET6 : Z := 10.

Definition sizeof_in_addr : nat := 4.
Definition sizeof_in6_addr : nat := 16.
Definition sizeof_sockaddr_in : nat := 16.
Definition sizeof_sockaddr_in6 : nat := 28.
Definition sizeof_sockaddr_storage : nat := 128.

(** Field offsets of [struct sockaddr_in] and [struct sockaddr_in6]. *)
Definition off_sa_family : nat := 0.
Definition off_sin_port : nat := 2.
Definition off_sin_addr : nat := 4.
Definition off_sin_zero : nat := 8.
Definition sizeof_sin_zero : nat := 8.
Definition off_sin6_port : nat := 2.
Definition off_sin6_flowinfo : nat := 4.
Definition off_sin6_addr : nat := 8.
Definition off_sin6_scope_id : nat := 24.

Definition digit_value (c : ascii) : option Z :=
  let n := Z.of_nat (nat_of_ascii c) in
  if (48 <=? n) && (n <=? 57) then Some (n - 48) else None.

Definition hex_value (c : ascii) : option Z :=
  let n := Z.of_nat (nat_of_ascii c) in
  if (48 <=? n) && (n <=? 57) then Some (n - 48)
  else if (97 <=? n) && (n <=? 102) then Some (n - 87)
  else if (65 <=? n) && (n <=? 70) then Some (n - 55)
  else None.

Definition is_char (c d : ascii) : bool := Ascii.eqb c d.

(** Dotted decimal: four numbers of one to three digits, each at most
    255, without a superfluous leading zero, separated by single dots.
    [done] holds the finished octets (latest first), [cur] the octet
    being read. *)
Fixpoint inet_pton4_scan (s : string) (done : list Z) (cur : option Z)
  : option (list Z) :=
  match s with
  | EmptyString =>
      match cur with
      | Some v => Some (rev (v :: done))
      | None => None
      end
  | String c rest =>
      match digit_value c with
      | Some d =>
          match cur with
          | None => inet_pton4_scan rest done (Some d)
          | Some v =>
              if v =? 0 then None
              else if 255 <? v * 10 + d then None
              else inet_pton4_scan rest done (Some (v * 10 + d))
          end
      | None =>
          if is_char c "."%char then
            match cur with
            | Some v =>
                if (3 <=? length done)%nat then None
                else inet_pton4_scan rest (v :: done) None
            | None => None
            end
          else None
      end
  end.

(** [inet_pton (AF_INET, src, dst)]: the four address bytes, or [None]
    when the call does not return a positive value. *)
Definition inet_pton4 (src : string) : option (list byte) :=
  match inet_pton4_scan src [] None with
  | Some octets =>
      if (length octets =? 4)%nat then Some (map byte_of_Z octets) else None
  | None => None
  end.

(** The text split at every occurrence of [sep]. *)
Fixpoint split_on (sep : ascii) (s : string) : list string :=
  match s with
  | EmptyString => [EmptyString]
  | String c rest =>
      if is_char c sep then EmptyString :: split_on sep rest
      else match split_on sep rest with
           | [] => [String c EmptyString]
           | w :: ws => String c w :: ws
           end
  end.

(** The text before and after the first double colon. *)
Fixpoint cut_double_colon (s : string) : option (string * string) :=
  match s with
  | String c1 ((String c2 rest) as tail) =>
      if is_char c1 ":"%char && is_char c2 ":"%char then Some (EmptyString, rest)
      else match cut_double_colon tail with
           | Some (l, r) => Some (String c1 l, r)
           | None => None
           end
  | _ => None
  end.

Fixpoint contains_char (c : ascii) (s : string) : bool :=
  match s with
  | EmptyString => false
  | String d rest => is_char c d || contains_char c rest
  end.

(** One to four hexadecimal digits. *)
Fixpoint hex_group_scan (s : string) (acc : Z) (n : nat) : option Z :=
  match s with
  | EmptyString => if (n =? 0)%nat then None else Some acc
  | String c rest =>
      match hex_value c with
      | Some d => if (4 <=? n)%nat then None
                  else hex_group_scan rest (acc * 16 + d) (S n)
      | None => None
      end
  end.

Definition hex_group (s : string) : option (list byte) :=
  match hex_group_scan s 0 0 with
  | Some v => Some [byte_of_Z (v / 256); byte_of_Z v]
  | None => None
  end.

(** The colon-separated groups of one side of an address; only the very
    last group of the address ([last_side]) may be a dotted quad. *)
Fixpoint groups_bytes (gs : list string) (last_side : bool)
  : option (list byte) :=
  match gs with
  | [] => Some []
  | g :: rest =>
      let this :=
        match rest with
        | [] => if last_side && contains_char "."%char g
                then inet_pton4 g else hex_group g
        | _ => hex_group g
        end in
      match this, groups_bytes rest last_side with
      | Some b, Some bs => Some (b ++ bs)
      | _, _ => None
      end
  end.

Definition side_bytes (s : string) (last_side : bool) : option (list byte) :=
  match s with
  | EmptyString => Some []
  | _ => groups_bytes (split_on ":"%char s) last_side
  end.

(** [inet_pton (AF_INET6, src, dst)]: the sixteen address bytes. *)
Definition inet_pton6 (src : string) : option (list byte) :=
  match cut_double_colon src with
  | Some (l, r) =>
      match side_bytes l false, side_bytes r true with
      | Some lb, Some rb =>
          if (length lb + length rb <=? 14)%nat
          then Some (lb ++ zeros (16 - (length lb + length rb)) ++ rb)
          else None
      | _, _ => None
      end
  | None =>
      match groups_bytes (split_on ":"%char src) true with
      | Some bs => if (length bs =? 16)%nat then Some bs else None
      | None => None
      end
  end.

(** A decimal number (the zone index after [%]). *)
Fixpoint decimal_scan (s : string) (acc : Z) (n : nat) : option Z :=
  match s with
  | EmptyString => if (n =? 0)%nat then None else Some acc
  | String c rest =>
      match digit_value c with
      | Some d => decimal_scan rest (acc * 10 + d) (S n)
      | None => None
      end
  end.

(** A [struct sockaddr_in6] as [getaddrinfo] fills it in: family tag,
    port 0, flow information 0, the address, the zone index. *)
Definition make_sockaddr_in6 (address : list byte) (scope : Z) : list byte :=
  le_encode 2 AF_INET6 ++ le_encode 2 0 ++ le_encode 4 0 ++ address
  ++ le_encode 4 scope.

(** What the source reads of one [struct addrinfo]. *)
Record addrinfo : Type := {
  ai_family : Z;
  ai_addrlen : Z;
  ai_addr : list byte
}.

(** [getaddrinfo (node, NULL, &hints, &res)] with
    [hints = { AF_UNSPEC, SOCK_STREAM, 0, AI_NUMERICHOST }] for a [node]
    that contains a colon: the literal is an IPv6 address, optionally
    followed by [%] and a numeric zone index.  [None] stands for a
    non-zero return value. *)
Definition getaddrinfo_numerichost (node : string) : option addrinfo :=
  match split_on "%"%char node with
  | [lit] =>
      match inet_pton6 lit with
      | Some a => Some {| ai_family := AF_INET6;
                          ai_addrlen := Z.of_nat sizeof_sockaddr_in6;
                          ai_addr := make_sockaddr_in6 a 0 |}
      | None => None
      end
  | [lit; zone] =>
      match inet_pton6 lit, decimal_scan zone 0 0 with
      | Some a, Some z =>
          if z <? 4294967296
          then Some {| ai_family := AF_INET6;
                       ai_addrlen := Z.of_nat sizeof_sockaddr_in6;
                       ai_addr := make_sockaddr_in6 a z |}
          else None
      | _, _ => None
      end
  | _ => None
  end.

(** [IN6_IS_ADDR_UNSPECIFIED]: all sixteen bytes are zero. *)
Definition IN6_IS_ADDR_UNSPECIFIED (a : list byte) : bool :=
  bytes_eqb (read_bytes 0 16 a) (zeros 16).

(** [IN6_IS_ADDR_LOOPBACK]: fifteen zero bytes followed by 1. *)
Definition IN6_IS_ADDR_LOOPBACK (a : list byte) : bool :=
  bytes_eqb (read_bytes 0 16 a) (zeros 15 ++ [x01]).

Definition INADDR_ANY : Z := 0.

End Libc.

(* ================================================================== *)
(** * The process environment: system calls, [errno], the last error *)
(* ================================================================== *)

Module Sys.
Import Error.

(** [SOL_SOCKET] options the sources read or write. *)
Inductive SockOpt : Type :=
| SO_TYPE | SO_DOMAIN | SO_ERROR | SO_KEEPALIVE
| SO_REUSEADDR | SO_REUSEPORT | SO_RCVBUF | SO_SNDBUF.

(** [typedef enum { ... } SocketIOCondition] *)
Inductive SocketIOCondition : Type :=
| SOCKET_IO_CONDITION_POLLIN
| SOCKET_IO_CONDITION_POLLOUT.

(** A call that leaves the library, with the arguments passed by value.
    Buffers handed to the kernel are recorded up to the length passed
    with them. *)
Inductive Call : Type :=
| Ioctl_FIONBIO (fd arg : Z)
| Getsockopt (fd : Z) (opt : SockOpt)
| Setsockopt (fd : Z) (opt : SockOpt) (value : Z)
| Getsockname (fd : Z)
| Getpeername (fd : Z)
| Fcntl_GETFD (fd : Z)
| Fcntl_SETFD (fd flags : Z)
| Bind (fd : Z) (address : list byte) (len : Z)
| Connect (fd : Z) (address : list byte) (len : Z)
| Listen (fd backlog : Z)
| Accept (fd : Z)
| Recv (fd len flags : Z)
| Recvfrom (fd len flags addrlen : Z)
| Send (fd : Z) (data : list byte) (len flags : Z)
| Sendto (fd : Z) (data : list byte) (len flags : Z)
         (address : list byte) (addrlen : Z)
| Close (fd : Z)
| Shutdown (fd how : Z)
| Poll (fd : Z) (events : SocketIOCondition) (timeout : Z)
| Select (nfds : Z) (readfd writefd : option Z) (timeout : option (Z * Z))
| Free.

(** What comes back from a call: the return value, the value [errno] is
    set to (if the call sets it), and what the call writes through its
    output pointers: an integer, a length, payload bytes, a socket
    address. *)
Record Reply : Type := {
  r_ret : Z;
  r_errno : option Z;
  r_val : Z;
  r_len : Z;
  r_data : list byte;
  r_addr : list byte
}.

(** The state outside the handles.  [os n] is the reply to the [n]-th
    call of the run; [trace] lists the calls made so far, latest first;
    [errno] is the thread's error number; [CURRENT_ERROR] is the
    file-scope variable of [error.c]. *)
Record World : Type := {
  os : nat -> Reply;
  trace : list Call;
  errno : Z;
  CURRENT_ERROR : ErrorState
}.

(** Computations that may run out of fuel ([None]). *)
Definition M (A : Type) : Type := World -> option (A * World).

Definition ret {A} (a : A) : M A := fun w => Some (a, w).

Definition bind {A B} (m : M A) (k : A -> M B) : M B :=
  fun w => match m w with
           | Some (a, w') => k a w'
           | None => None
           end.

Definition out_of_fuel {A} : M A := fun _ => None.

Declare Scope sys_scope.
Delimit Scope sys_scope with sys.
Notation "x <- c1 ;; c2" := (bind c1 (fun x => c2))
  (at level 61, c1 at next level, right associativity) : sys_scope.
Notation "' pat <- c1 ;; c2" :=
  (bind c1 (fun x => match x with pat => c2 end))
  (at level 61, pat pattern, c1 at next level, right associativity) : sys_scope.
Notation "c1 ;; c2" := (bind c1 (fun _ => c2))
  (at level 61, right associativity) : sys_scope.
Local Open Scope sys_scope.

(** Make a call: it is appended to the trace, the oracle answers, and
    [errno] changes if the answer says so. *)
Definition call (c : Call) : M Reply :=
  fun w =>
    let r := os w (length (trace w)) in
    Some (r, {| os := os w;
                trace := c :: trace w;
                errno := match r_errno r with
                         | Some e => e
                         | None => errno w
                         end;
                CURRENT_ERROR := CURRENT_ERROR w |}).

(** [void error_set_error(int32_t code, int32_t native_code,
    const char *message)] *)
Definition error_set_error (c n : Z) (msg : string) : M unit :=
  fun w => Some (tt, {| os := os w; trace := trace w; errno := errno w;
                        CURRENT_ERROR := {| code := c; native_code := n;
                                            message := Some msg |} |}).



(** [int32_t error_get_last_system(void)]: [errno].  (The branch that
    consults [EVMSERR] is specific to OpenVMS.) *)
Definition error_get_last_system : M Z := fun w => Some (errno w, w).

(** [int32_t error_get_last_net(void)] *)
Definition error_get_last_net : M Z := error_get_last_system.



(** The recurring
    [error_set_error (error_get_io_from_system (error_get_last_net ()),
                      error_get_last_net (), msg)]. *)
Definition error_set_from_last_net {errno_h : ErrnoTable} (msg : string)
  : M unit :=
  e1 <- error_get_last_net ;;
  e2 <- error_get_last_net ;;
  error_set_error (ErrorIO_value (error_get_io_from_system e1)) e2 msg.

(** [int32_t sys_close(int32_t fd)] of [util.c], [__unix__] branch
    outside HP-UX: [return close(fd)]. *)
Definition sys_close (fd : Z) : M Z :=
  r <- call (Close fd) ;; ret (r_ret r).

(** The calls a computation adds to the trace of [w]. *)
Definition calls_of {A} (m : M A) (w : World) : option (list Call) :=
  match m w with
  | Some (_, w') => Some (firstn (length (trace w') - length (trace w)) (trace w'))
  | None => None
  end.






End Sys.

(* ================================================================== *)
(** * Socket addresses ([src/socketaddress.h], [src/socketaddress.c]) *)
(* ================================================================== *)

Module Address.
Import Mem Libc Sys.
Local Open Scope sys_scope.

(** [typedef enum { ... } SocketFamily] *)
Inductive SocketFamily : Type :=
| SOCKET_FAMILY_UNKNOWN
| SOCKET_FAMILY_INET
| SOCKET_FAMILY_INET6.

Definition SocketFamily_value (f : SocketFamily) : Z :=
  match f with
  | SOCKET_FAMILY_UNKNOWN => 0
  | SOCKET_FAMILY_INET => AF_INET
  | SOCKET_FAMILY_INET6 => AF_INET6
  end.

Definition SocketFamily_eqb (a b : SocketFamily) : bool :=
  SocketFamily_value a =? SocketFamily_value b.

(** [struct SocketAddress].  [addr] is the storage of the union, sixteen
    bytes; [sin_addr] is its first four bytes, [sin6_addr] all of it. *)
Record SocketAddress : Type := {
  family : SocketFamily;
  addr : list byte;
  port : Z;
  flowinfo : Z;
  scope_id : Z
}.

(** [calloc (sizeof (SocketAddress), 1)] *)
Definition calloc_SocketAddress : SocketAddress :=
  {| family := SOCKET_FAMILY_UNKNOWN; addr := zeros 16; port := 0;
     flowinfo := 0; scope_id := 0 |}.

Definition set_family (f : SocketFamily) (a : SocketAddress) :=
  {| family := f; addr := addr a; port := port a;
     flowinfo := flowinfo a; scope_id := scope_id a |}.
Definition set_addr (b : list byte) (a : SocketAddress) :=
  {| family := family a; addr := b; port := port a;
     flowinfo := flowinfo a; scope_id := scope_id a |}.
Definition set_port (p : Z) (a : SocketAddress) :=
  {| family := family a; addr := addr a; port := p;
     flowinfo := flowinfo a; scope_id := scope_id a |}.
Definition set_flowinfo (v : Z) (a : SocketAddress) :=
  {| family := family a; addr := addr a; port := port a;
     flowinfo := v; scope_id := scope_id a |}.
Definition set_scope_id (v : Z) (a : SocketAddress) :=
  {| family := family a; addr := addr a; port := port a;
     flowinfo := flowinfo a; scope_id := v |}.

(** [SocketAddress *socket_address_new_from_native (const void *native,
    size_t len)] *)
Definition socket_address_new_from_native
    (native : option (list byte)) (len : Z) : option SocketAddress :=
  match native with
  | None => None
  | Some mem =>
      if len =? 0 then None
      else
        let ret := calloc_SocketAddress in
        let family := load16 mem off_sa_family in
        if family =? AF_INET then
          if len <? Z.of_nat sizeof_sockaddr_in then None
          else
            let ret := set_addr (write_at 0 (read_bytes off_sin_addr sizeof_in_addr mem)
                                          (addr ret)) ret in
            let ret := set_family SOCKET_FAMILY_INET ret in
            let ret := set_port (ntohs (load16 mem off_sin_port)) ret in
            Some ret
        else if family =? AF_INET6 then
          if len <? Z.of_nat sizeof_sockaddr_in6 then None
          else
            let ret := set_addr (write_at 0 (read_bytes off_sin6_addr sizeof_in6_addr mem)
                                          (addr ret)) ret in
            let ret := set_family SOCKET_FAMILY_INET6 ret in
            let ret := set_port (ntohs (load16 mem off_sin_port)) ret in
            let ret := set_flowinfo (load32 mem off_sin6_flowinfo) ret in
            let ret := set_scope_id (load32 mem off_sin6_scope_id) ret in
            Some ret
        else None
  end.

(** [SocketAddress *socket_address_new (const char *address,
    uint16_t port)].  The argument [port] is converted to [uint16_t]. *)
Definition socket_address_new (address : option string) (port : Z)
  : option SocketAddress :=
  let port := u16 port in
  match address with
  | None => None
  | Some address =>
      if contains_char ":"%char address then
        match getaddrinfo_numerichost address with
        | None => None
        | Some res =>
            if (ai_family res =? AF_INET6)
               && (ai_addrlen res =? Z.of_nat sizeof_sockaddr_in6)
            then
              let sa := store16 (ai_addr res) off_sin6_port (htons port) in
              socket_address_new_from_native (Some sa) (ai_addrlen res)
            else None
        end
      else
        let ret := calloc_SocketAddress in
        let ret := set_port port ret in
        match inet_pton4 address with
        | Some a =>
            Some (set_family SOCKET_FAMILY_INET
                    (set_addr (write_at 0 a (addr ret)) ret))
        | None =>
            match inet_pton6 address with
            | Some a =>
                Some (set_family SOCKET_FAMILY_INET6
                        (set_addr (write_at 0 a (addr ret)) ret))
            | None => None
            end
        end
  end.

(** [uint8_t any_addr[] = {0, 0, 0, 0}] and [IN6ADDR_ANY_INIT] *)
Definition any_addr : list byte := [x00; x00; x00; x00].
Definition any6_addr : list byte := zeros 16.

(** [SocketAddress *socket_address_new_any (SocketFamily family,
    uint16_t port)] *)
Definition socket_address_new_any (family : SocketFamily) (port : Z)
  : option SocketAddress :=
  let port := u16 port in
  let ret := calloc_SocketAddress in
  match family with
  | SOCKET_FAMILY_INET =>
      let ret := set_addr (write_at 0 any_addr (addr ret)) ret in
      Some (set_port port (set_family family ret))
  | SOCKET_FAMILY_INET6 =>
      let ret := set_addr (write_at 0 any6_addr (addr ret)) ret in
      Some (set_port port (set_family family ret))
  | SOCKET_FAMILY_UNKNOWN => None
  end.

(** [uint8_t loop_addr[] = {127, 0, 0, 0}] and [IN6ADDR_LOOPBACK_INIT] *)
Definition loop_addr : list byte := [x7f; x00; x00; x00].
Definition loop6_addr : list byte := zeros 15 ++ [x01].

(** [SocketAddress *socket_address_new_loopback (SocketFamily family,
    uint16_t port)] *)
Definition socket_address_new_loopback (family : SocketFamily) (port : Z)
  : option SocketAddress :=
  let port := u16 port in
  let ret := calloc_SocketAddress in
  match family with
  | SOCKET_FAMILY_INET =>
      let ret := set_addr (write_at 0 loop_addr (addr ret)) ret in
      Some (set_port port (set_family family ret))
  | SOCKET_FAMILY_INET6 =>
      let ret := set_addr (write_at 0 loop6_addr (addr ret)) ret in
      Some (set_port port (set_family family ret))
  | SOCKET_FAMILY_UNKNOWN => None
  end.

(** [bool socket_address_to_native (const SocketAddress *addr,
    void *dest, size_t destlen)].  [Some m]: the call returns [true] and
    leaves [m] in the destination; [None]: it returns [false], having
    written nothing. *)
Definition socket_address_to_native
    (a : option SocketAddress) (dest : option (list byte)) (destlen : Z)
  : option (list byte) :=
  match a, dest with
  | Some a, Some mem =>
      if destlen =? 0 then None
      else
        match family a with
        | SOCKET_FAMILY_INET =>
            if destlen <? Z.of_nat sizeof_sockaddr_in then None
            else
              let mem := write_at off_sin_addr
                           (read_bytes 0 sizeof_in_addr (addr a)) mem in
              let mem := store16 mem off_sa_family AF_INET in
              let mem := store16 mem off_sin_port (htons (port a)) in
              let mem := write_at off_sin_zero (zeros sizeof_sin_zero) mem in
              Some mem
        | SOCKET_FAMILY_INET6 =>
            if destlen <? Z.of_nat sizeof_sockaddr_in6 then None
            else
              let mem := write_at off_sin6_addr
                           (read_bytes 0 sizeof_in6_addr (addr a)) mem in
              let mem := store16 mem off_sa_family AF_INET6 in
              let mem := store16 mem off_sin6_port (htons (port a)) in
              let mem := store32 mem off_sin6_flowinfo (flowinfo a) in
              let mem := store32 mem off_sin6_scope_id (scope_id a) in
              Some mem
        | SOCKET_FAMILY_UNKNOWN => None
        end
  | _, _ => None
  end.

(** [size_t socket_address_get_native_size (const SocketAddress *addr)] *)
Definition socket_address_get_native_size (a : option SocketAddress) : Z :=
  match a with
  | None => 0
  | Some a =>
      match family a with
      | SOCKET_FAMILY_INET => Z.of_nat sizeof_sockaddr_in
      | SOCKET_FAMILY_INET6 => Z.of_nat sizeof_sockaddr_in6
      | SOCKET_FAMILY_UNKNOWN => 0
      end
  end.

(** [SocketFamily socket_address_get_family (const SocketAddress *addr)] *)
Definition socket_address_get_family (a : option SocketAddress)
  : SocketFamily :=
  match a with
  | None => SOCKET_FAMILY_UNKNOWN
  | Some a => family a
  end.

(** [uint16_t socket_address_get_port (const SocketAddress *addr)] *)
Definition socket_address_get_port (a : option SocketAddress) : Z :=
  match a with
  | None => 0
  | Some a => port a
  end.

(** The two configuration macros that gate the flow-information and
    scope-index accessors.  No file of the repository defines them; they
    are set, or not, on the compiler's command line. *)
Class Config : Type := {
  PLIBSYS_SOCKADDR_IN6_HAS_FLOWINFO : bool;
  PLIBSYS_SOCKADDR_IN6_HAS_SCOPEID : bool
}.

Section Accessors.
Context {config : Config}.

(** [uint32_t socket_address_get_flow_info (const SocketAddress *addr)] *)
Definition socket_address_get_flow_info (a : option SocketAddress) : Z :=
  match a with
  | None => 0
  | Some a =>
      if negb PLIBSYS_SOCKADDR_IN6_HAS_FLOWINFO then 0
      else if negb (SocketFamily_eqb (family a) SOCKET_FAMILY_INET6) then 0
      else flowinfo a
  end.

(** [uint32_t socket_address_get_scope_id (const SocketAddress *addr)] *)
Definition socket_address_get_scope_id (a : option SocketAddress) : Z :=
  match a with
  | None => 0
  | Some a =>
      if negb PLIBSYS_SOCKADDR_IN6_HAS_SCOPEID then 0
      else if negb (SocketFamily_eqb (family a) SOCKET_FAMILY_INET6) then 0
      else scope_id a
  end.

(** [void socket_address_set_flow_info (SocketAddress *addr,
    uint32_t flowinfo)]: the object [addr] points to after the call. *)
Definition socket_address_set_flow_info (a : option SocketAddress)
    (flowinfo : Z) : option SocketAddress :=
  let flowinfo := u32 flowinfo in
  match a with
  | None => None
  | Some a =>
      if negb PLIBSYS_SOCKADDR_IN6_HAS_FLOWINFO then Some a
      else if negb (SocketFamily_eqb (family a) SOCKET_FAMILY_INET6) then Some a
      else Some (set_flowinfo flowinfo a)
  end.

(** [void socket_address_set_scope_id (SocketAddress *addr,
    uint32_t scope_id)] *)
Definition socket_address_set_scope_id (a : option SocketAddress)
    (scope_id : Z) : option SocketAddress :=
  let scope_id := u32 scope_id in
  match a with
  | None => None
  | Some a =>
      if negb PLIBSYS_SOCKADDR_IN6_HAS_SCOPEID then Some a
      else if negb (SocketFamily_eqb (family a) SOCKET_FAMILY_INET6) then Some a
      else Some (set_scope_id scope_id a)
  end.

End Accessors.

(** [bool socket_address_is_flow_info_supported()] and its two
    siblings: [AF_INET6] is defined. *)
Definition socket_address_is_flow_info_supported : bool := true.
Definition socket_address_is_scope_id_supported : bool := true.
Definition socket_address_is_ipv6_supported : bool := true.

(** [bool socket_address_is_any (const SocketAddress *addr)] *)
Definition socket_address_is_any (a : option SocketAddress) : bool :=
  match a with
  | None => false
  | Some a =>
      match family a with
      | SOCKET_FAMILY_UNKNOWN => false
      | SOCKET_FAMILY_INET =>
          let addr4 := ntohl (load32 (addr a) 0) in
          addr4 =? INADDR_ANY
      | SOCKET_FAMILY_INET6 => IN6_IS_ADDR_UNSPECIFIED (addr a)
      end
  end.

(** [bool socket_address_is_loopback (const SocketAddress *addr)] *)
Definition socket_address_is_loopback (a : option SocketAddress) : bool :=
  match a with
  | None => false
  | Some a =>
      match family a with
      | SOCKET_FAMILY_UNKNOWN => false
      | SOCKET_FAMILY_INET =>
          let addr4 := ntohl (load32 (addr a) 0) in
          Z.land addr4 4278190080 =? 2130706432
      | SOCKET_FAMILY_INET6 => IN6_IS_ADDR_LOOPBACK (addr a)
      end
  end.

(** [void socket_address_free (SocketAddress *addr)] *)
Definition socket_address_free (a : option SocketAddress) : M unit :=
  match a with
  | None => ret tt
  | Some _ => _ <- call Free ;; ret tt
  end.

End Address.

(* ================================================================== *)
(** * Socket handles ([src/socket.h], [src/socket.c]) *)
(* ================================================================== *)

Module Socket.
Import Error Mem Libc Sys Address.
Local Open Scope string_scope.
Local Open Scope Z_scope.
Local Open Scope sys_scope.

(** [typedef enum { ... } SocketProtocol] *)
Inductive SocketProtocol : Type :=
| SOCKET_PROTOCOL_UNKNOWN
| SOCKET_PROTOCOL_DEFAULT
| SOCKET_PROTOCOL_TCP
| SOCKET_PROTOCOL_UDP
| SOCKET_PROTOCOL_SCTP.

Definition SocketProtocol_value (p : SocketProtocol) : Z :=
  match p with
  | SOCKET_PROTOCOL_UNKNOWN => -1
  | SOCKET_PROTOCOL_DEFAULT => 0
  | SOCKET_PROTOCOL_TCP => 6
  | SOCKET_PROTOCOL_UDP => 17
  | SOCKET_PROTOCOL_SCTP => 132
  end.

(** [typedef enum { ... } SocketType] *)
Inductive SocketType : Type :=
| SOCKET_TYPE_UNKNOWN
| SOCKET_TYPE_STREAM
| SOCKET_TYPE_DATAGRAM
| SOCKET_TYPE_SEQPACKET.

Definition SocketType_value (t : SocketType) : Z :=
  match t with
  | SOCKET_TYPE_UNKNOWN => 0
  | SOCKET_TYPE_STREAM => 1
  | SOCKET_TYPE_DATAGRAM => 2
  | SOCKET_TYPE_SEQPACKET => 3
  end.

(** [typedef enum { ... } SocketDirection] *)
Inductive SocketDirection : Type :=
| SOCKET_DIRECTION_SND
| SOCKET_DIRECTION_RCV.

(** [struct Socket] *)
Record Socket : Type := {
  s_family : SocketFamily; (* the field [family] *)
  protocol : SocketProtocol;
  type : SocketType;
  fd : Z;
  listen_backlog : Z;
  timeout : Z;
  blocking : bool;
  keepalive : bool;
  closed : bool;
  connected : bool;
  listening : bool
}.

(** [calloc (sizeof (Socket), 1)] *)
Definition calloc_Socket : Socket :=
  {| s_family := SOCKET_FAMILY_UNKNOWN; protocol := SOCKET_PROTOCOL_DEFAULT;
     type := SOCKET_TYPE_UNKNOWN; fd := 0; listen_backlog := 0; timeout := 0;
     blocking := false; keepalive := false; closed := false;
     connected := false; listening := false |}.

Definition with_family (v : SocketFamily) (s : Socket) : Socket :=
  {| s_family := v; protocol := protocol s; type := type s; fd := fd s;
     listen_backlog := listen_backlog s; timeout := timeout s;
     blocking := blocking s; keepalive := keepalive s; closed := closed s;
     connected := connected s; listening := listening s |}.
Definition with_protocol (v : SocketProtocol) (s : Socket) : Socket :=
  {| s_family := s_family s; protocol := v; type := type s; fd := fd s;
     listen_backlog := listen_backlog s; timeout := timeout s;
     blocking := blocking s; keepalive := keepalive s; closed := closed s;
     connected := connected s; listening := listening s |}.
Definition with_type (v : SocketType) (s : Socket) : Socket :=
  {| s_family := s_family s; protocol := protocol s; type := v; fd := fd s;
     listen_backlog := listen_backlog s; timeout := timeout s;
     blocking := blocking s; keepalive := keepalive s; closed := closed s;
     connected := connected s; listening := listening s |}.
Definition with_fd (v : Z) (s : Socket) : Socket :=
  {| s_family := s_family s; protocol := protocol s; type := type s; fd := v;
     listen_backlog := listen_backlog s; timeout := timeout s;
     blocking := blocking s; keepalive := keepalive s; closed := closed s;
     connected := connected s; listening := listening s |}.
Definition with_listen_backlog (v : Z) (s : Socket) : Socket :=
  {| s_family := s_family s; protocol := protocol s; type := type s; fd := fd s;
     listen_backlog := v; timeout := timeout s;
     blocking := blocking s; keepalive := keepalive s; closed := closed s;
     connected := connected s; listening := listening s |}.
Definition with_timeout (v : Z) (s : Socket) : Socket :=
  {| s_family := s_family s; protocol := protocol s; type := type s; fd := fd s;
     listen_backlog := listen_backlog s; timeout := v;
     blocking := blocking s; keepalive := keepalive s; closed := closed s;
     connected := connected s; listening := listening s |}.
Definition with_blocking (v : bool) (s : Socket) : Socket :=
  {| s_family := s_family s; protocol := protocol s; type := type s; fd := fd s;
     listen_backlog := listen_backlog s; timeout := timeout s;
     blocking := v; keepalive := keepalive s; closed := closed s;
     connected := connected s; listening := listening s |}.
Definition with_keepalive (v : bool) (s : Socket) : Socket :=
  {| s_family := s_family s; protocol := protocol s; type := type s; fd := fd s;
     listen_backlog := listen_backlog s; timeout := timeout s;
     blocking := blocking s; keepalive := v; closed := closed s;
     connected := connected s; listening := listening s |}.
Definition with_closed (v : bool) (s : Socket) : Socket :=
  {| s_family := s_family s; protocol := protocol s; type := type s; fd := fd s;
     listen_backlog := listen_backlog s; timeout := timeout s;
     blocking := blocking s; keepalive := keepalive s; closed := v;
     connected := connected s; listening := listening s |}.
Definition with_connected (v : bool) (s : Socket) : Socket :=
  {| s_family := s_family s; protocol := protocol s; type := type s; fd := fd s;
     listen_backlog := listen_backlog s; timeout := timeout s;
     blocking := blocking s; keepalive := keepalive s; closed := closed s;
     connected := v; listening := listening s |}.
Definition with_listening (v : bool) (s : Socket) : Socket :=
  {| s_family := s_family s; protocol := protocol s; type := type s; fd := fd s;
     listen_backlog := listen_backlog s; timeout := timeout s;
     blocking := blocking s; keepalive := keepalive s; closed := closed s;
     connected := connected s; listening := v |}.

Definition SOCKET_DEFAULT_BACKLOG : Z := 5.
Definition SHUT_RD : Z := 0.
Definition SHUT_WR : Z := 1.
Definition SHUT_RDWR : Z := 2.
(** [MSG_NOSIGNAL], [SOCK_*] and [FD_CLOEXEC] as Linux defines them. *)
Definition SOCKET_DEFAULT_SEND_FLAGS : Z := 16384.
Definition SOCK_STREAM : Z := 1.
Definition SOCK_DGRAM : Z := 2.
Definition SOCK_SEQPACKET : Z := 5.
Definition FD_CLOEXEC : Z := 1.

(** An automatic [struct sockaddr_storage]; storage that the source
    leaves uninitialised is taken to hold zero bytes. *)
Definition sockaddr_storage : list byte := zeros sizeof_sockaddr_storage.

(** The readiness-wait backend the preprocessor selects. *)
Inductive WaitBackend : Type :=
| SOCKET_USE_POLL
| SOCKET_USE_SELECT.

Class Build : Type := { wait_backend : WaitBackend }.

Definition invalid_argument : M unit :=
  error_set_error (ErrorIO_value ERROR_IO_INVALID_ARGUMENT) 0
                  "Invalid input argument".

Section Operations.
Context {errno_h : ErrnoTable} {build : Build}.

(** [static bool _XX__socket_set_fd_blocking (int32_t fd, bool blocking)] *)
Definition _XX__socket_set_fd_blocking (fd : Z) (blocking : bool) : M bool :=
  let arg := if negb blocking then 1 else 0 in
  r <- call (Ioctl_FIONBIO fd arg) ;;
  if r_ret r <? 0 then
    error_set_from_last_net "Failed to set socket blocking flags" ;;
    ret false
  else ret true.

(** [static bool _XX__socket_check (const Socket *socket)] *)
Definition _XX__socket_check (socket : Socket) : M bool :=
  if closed socket then
    error_set_error (ErrorIO_value ERROR_IO_NOT_AVAILABLE) 0
                    "Socket is already closed" ;;
    ret false
  else ret true.

(** [static bool _XX__socket_set_details_from_fd (Socket *socket)]: the
    result and the handle as the call leaves it. *)
Definition _XX__socket_set_details_from_fd (socket : Socket)
  : M (bool * Socket) :=
  let fd := fd socket in
  r <- call (Getsockopt fd SO_TYPE) ;;
  if negb (r_ret r =? 0) then
    error_set_from_last_net
      "Failed to call getsockopt() to get socket info for fd" ;;
    ret (false, socket)
  else
  let value := r_val r in
  let optlen := r_len r in
  if negb (optlen =? 4) then
    error_set_error (ErrorIO_value ERROR_IO_INVALID_ARGUMENT) 0
      "Failed to get socket info for fd, bad option length" ;;
    ret (false, socket)
  else
  let socket :=
    if value =? SOCK_STREAM then with_type SOCKET_TYPE_STREAM socket
    else if value =? SOCK_DGRAM then with_type SOCKET_TYPE_DATAGRAM socket
    else if value =? SOCK_SEQPACKET then with_type SOCKET_TYPE_SEQPACKET socket
    else with_type SOCKET_TYPE_UNKNOWN socket in
  r <- call (Getsockname fd) ;;
  if negb (r_ret r =? 0) then
    error_set_from_last_net
      "Failed to call getsockname() to get socket address info" ;;
    ret (false, socket)
  else
  let address := write_at 0 (r_addr r) sockaddr_storage in
  let addrlen := r_len r in
  domain_ok <-
    (if negb (0 <? addrlen) then
       r <- call (Getsockopt (Socket.fd socket) SO_DOMAIN) ;;
       if negb (r_ret r =? 0) then
         error_set_from_last_net
           "Failed to call getsockopt() to get socket SO_DOMAIN option" ;;
         ret false
       else ret true
     else ret true) ;;
  if negb domain_ok then ret (false, socket)
  else
  let ss_family := load16 address off_sa_family in
  let socket :=
    if ss_family =? SocketFamily_value SOCKET_FAMILY_INET
    then with_family SOCKET_FAMILY_INET socket
    else if ss_family =? SocketFamily_value SOCKET_FAMILY_INET6
    then with_family SOCKET_FAMILY_INET6 socket
    else with_family SOCKET_FAMILY_UNKNOWN socket in
  let socket :=
    match s_family socket with
    | SOCKET_FAMILY_INET6 | SOCKET_FAMILY_INET =>
        match type socket with
        | SOCKET_TYPE_STREAM => with_protocol SOCKET_PROTOCOL_TCP socket
        | SOCKET_TYPE_DATAGRAM => with_protocol SOCKET_PROTOCOL_UDP socket
        | SOCKET_TYPE_SEQPACKET => with_protocol SOCKET_PROTOCOL_SCTP socket
        | SOCKET_TYPE_UNKNOWN => socket
        end
    | SOCKET_FAMILY_UNKNOWN => socket
    end in
  socket <-
    (match s_family socket with
     | SOCKET_FAMILY_UNKNOWN => ret socket
     | _ =>
         r <- call (Getpeername fd) ;;
         if 0 <=? r_ret r then ret (with_connected true socket)
         else ret socket
     end) ;;
  r <- call (Getsockopt fd SO_KEEPALIVE) ;;
  if r_ret r =? 0
  then ret (true, with_keepalive (negb (r_val r =? 0)) socket)
  else ret (true, with_keepalive false socket).

(** [void socket_set_listen_backlog (Socket *socket, int32_t backlog)] *)
Definition socket_set_listen_backlog (socket : option Socket) (backlog : Z)
  : option Socket :=
  match socket with
  | None => None
  | Some s =>
      if listening s then Some s
      else Some (with_listen_backlog backlog s)
  end.

(** [void socket_set_blocking (Socket *socket, bool blocking)] *)
Definition socket_set_blocking (socket : option Socket) (blocking : bool)
  : option Socket :=
  match socket with
  | None => None
  | Some s => Some (with_blocking blocking s)
  end.

(** [void socket_set_timeout (Socket *socket, int32_t timeout)] *)
Definition socket_set_timeout (socket : option Socket) (timeout : Z)
  : option Socket :=
  match socket with
  | None => None
  | Some s =>
      let timeout := if timeout <? 0 then 0 else timeout in
      Some (with_timeout timeout s)
  end.

(** [void socket_set_keepalive (Socket *socket, bool keepalive)] *)
Definition socket_set_keepalive (socket : option Socket) (keepalive : bool)
  : M (option Socket) :=
  match socket with
  | None => ret None
  | Some s =>
      if Bool.eqb (Socket.keepalive s) keepalive then ret (Some s)
      else
        let value := if keepalive then 1 else 0 in
        r <- call (Setsockopt (fd s) SO_KEEPALIVE value) ;;
        if r_ret r <? 0 then ret (Some s)
        else ret (Some (with_keepalive keepalive s))
  end.

(** [Socket *socket_new_from_fd (int32_t fd)] *)
Definition socket_new_from_fd (fd : Z) : M (option Socket) :=
  if fd <? 0 then
    error_set_error (ErrorIO_value ERROR_IO_INVALID_ARGUMENT) 0
                    "Unable to create socket from bad fd" ;;
    ret None
  else
    let ret0 := with_fd fd calloc_Socket in
    '(ok, ret0) <- _XX__socket_set_details_from_fd ret0 ;;
    if negb ok then _ <- call Free ;; ret None
    else
      ok <- _XX__socket_set_fd_blocking (Socket.fd ret0) false ;;
      if negb ok then _ <- call Free ;; ret None
      else
        match socket_set_listen_backlog (Some ret0) SOCKET_DEFAULT_BACKLOG with
        | Some ret0 =>
            ret (Some (with_blocking true (with_timeout 0 ret0)))
        | None => ret None
        end.

(** [int32_t socket_get_fd (const Socket *socket)] *)
Definition socket_get_fd (socket : option Socket) : Z :=
  match socket with
  | None => -1
  | Some s => fd s
  end.

(** [SocketFamily socket_get_family (const Socket *socket)] *)
Definition socket_get_family (socket : option Socket) : SocketFamily :=
  match socket with
  | None => SOCKET_FAMILY_UNKNOWN
  | Some s => s_family s
  end.

(** [SocketType socket_get_type (const Socket *socket)] *)
Definition socket_get_type (socket : option Socket) : SocketType :=
  match socket with
  | None => SOCKET_TYPE_UNKNOWN
  | Some s => type s
  end.

(** [SocketProtocol socket_get_protocol (const Socket *socket)] *)
Definition socket_get_protocol (socket : option Socket) : SocketProtocol :=
  match socket with
  | None => SOCKET_PROTOCOL_UNKNOWN
  | Some s => protocol s
  end.

(** [bool socket_get_keepalive (const Socket *socket)] *)
Definition socket_get_keepalive (socket : option Socket) : bool :=
  match socket with
  | None => false
  | Some s => keepalive s
  end.

(** [bool socket_get_blocking (Socket *socket)] *)
Definition socket_get_blocking (socket : option Socket) : bool :=
  match socket with
  | None => false
  | Some s => blocking s
  end.

(** [int socket_get_listen_backlog (const Socket *socket)] *)
Definition socket_get_listen_backlog (socket : option Socket) : Z :=
  match socket with
  | None => -1
  | Some s => listen_backlog s
  end.

(** [int32_t socket_get_timeout (const Socket *socket)] *)
Definition socket_get_timeout (socket : option Socket) : Z :=
  match socket with
  | None => -1
  | Some s => timeout s
  end.

(** [bool socket_is_connected (const Socket *socket)] *)
Definition socket_is_connected (socket : option Socket) : bool :=
  match socket with
  | None => false
  | Some s => connected s
  end.

(** [bool socket_is_closed (const Socket *socket)] *)
Definition socket_is_closed (socket : option Socket) : bool :=
  match socket with
  | None => true
  | Some s => closed s
  end.

(** [bool socket_check_connect_result (Socket *socket)] *)
Definition socket_check_connect_result (socket : option Socket)
  : M (bool * option Socket) :=
  match socket with
  | None => invalid_argument ;; ret (false, None)
  | Some s =>
      r <- call (Getsockopt (fd s) SO_ERROR) ;;
      if r_ret r <? 0 then
        error_set_from_last_net
          "Failed to call getsockopt() to get connection status" ;;
        ret (false, Some s)
      else
        let val := r_val r in
        (if negb (val =? 0) then
           error_set_error (ErrorIO_value (error_get_io_from_system val)) val
                           "Error in socket layer"
         else ret tt) ;;
        ret (val =? 0, Some (with_connected (val =? 0) s))
  end.

(** The loop of the [poll] backend. *)
Fixpoint poll_wait (fuel : nat) (fd : Z) (events : SocketIOCondition)
                   (timeout : Z) : M bool :=
  match fuel with
  | O => out_of_fuel
  | S fuel' =>
      r <- call (Poll fd events timeout) ;;
      let evret := r_ret r in
      e <- error_get_last_net ;;
      if (evret =? -1) && (e =? EINTR) then poll_wait fuel' fd events timeout
      else if evret =? 1 then ret true
      else if evret =? 0 then
        n <- error_get_last_net ;;
        error_set_error (ErrorIO_value ERROR_IO_TIMED_OUT) n
                        "Timed out while waiting socket condition" ;;
        ret false
      else
        error_set_from_last_net "Failed to call poll() on socket" ;;
        ret false
  end.

(** The loop of the [select] backend; [use_tv] tells whether [ptv]
    points to [tv] or is [NULL]. *)
Fixpoint select_wait (fuel : nat) (socket : Socket)
                     (condition : SocketIOCondition) (use_tv : bool)
  : M bool :=
  match fuel with
  | O => out_of_fuel
  | S fuel' =>
      let tv :=
        if 0 <? timeout socket
        then (Z.quot (timeout socket) 1000, Z.rem (timeout socket) 1000 * 1000)
        else (0, 0) in
      let ptv := if use_tv then Some tv else None in
      r <- (match condition with
            | SOCKET_IO_CONDITION_POLLIN =>
                call (Select (fd socket + 1) (Some (fd socket)) None ptv)
            | SOCKET_IO_CONDITION_POLLOUT =>
                call (Select (fd socket + 1) None (Some (fd socket)) ptv)
            end) ;;
      let evret := r_ret r in
      e <- error_get_last_net ;;
      if (evret =? -1) && (e =? EINTR)
      then select_wait fuel' socket condition use_tv
      else if evret =? 1 then ret true
      else if evret =? 0 then
        n <- error_get_last_net ;;
        error_set_error (ErrorIO_value ERROR_IO_TIMED_OUT) n
                        "Timed out while waiting socket condition" ;;
        ret false
      else
        error_set_from_last_net "Failed to call select() on socket" ;;
        ret false
  end.

(** [bool socket_io_condition_wait (const Socket *socket,
    SocketIOCondition condition)] *)
Definition socket_io_condition_wait (socket : option Socket)
    (condition : SocketIOCondition) (fuel : nat) : M bool :=
  match socket with
  | None => invalid_argument ;; ret false
  | Some s =>
      ok <- _XX__socket_check s ;;
      if negb ok then ret false
      else
        match wait_backend with
        | SOCKET_USE_POLL =>
            let timeout := if 0 <? timeout s then timeout s else -1 in
            poll_wait fuel (fd s) condition timeout
        | SOCKET_USE_SELECT =>
            select_wait fuel s condition (0 <? timeout s)
        end
  end.

(** [bool socket_bind (const Socket *socket, SocketAddress *address,
    bool allow_reuse)] *)
Definition socket_bind (socket : option Socket)
    (address : option SocketAddress) (allow_reuse : bool) : M bool :=
  match socket, address with
  | Some s, Some _ =>
      ok <- _XX__socket_check s ;;
      if negb ok then ret false
      else
        let value := if allow_reuse then 1 else 0 in
        _ <- call (Setsockopt (fd s) SO_REUSEADDR value) ;;
        let reuse_port :=
          allow_reuse && (SocketType_value (type s)
                          =? SocketType_value SOCKET_TYPE_DATAGRAM) in
        let value := if reuse_port then 1 else 0 in
        _ <- call (Setsockopt (fd s) SO_REUSEPORT value) ;;
        match socket_address_to_native address (Some sockaddr_storage)
                (Z.of_nat sizeof_sockaddr_storage) with
        | None =>
            error_set_error (ErrorIO_value ERROR_IO_FAILED) 0
              "Failed to convert socket address to native structure" ;;
            ret false
        | Some addr =>
            let len := u32 (socket_address_get_native_size address) in
            r <- call (Bind (fd s) (firstn (Z.to_nat len) addr) len) ;;
            if r_ret r <? 0 then
              error_set_from_last_net "Failed to call bind() on socket" ;;
              ret false
            else ret true
        end
  | _, _ => invalid_argument ;; ret false
  end.

(** The [for (;;)] of [socket_connect]: [connect] until it succeeds or
    fails with something other than [EINTR].  Yields [conn_result] and
    [err_code] ([err_code] is not assigned when [conn_result] is 0). *)
Fixpoint connect_retry (fuel : nat) (fd : Z) (buffer : list byte) (len : Z)
  : M (Z * Z) :=
  match fuel with
  | O => out_of_fuel
  | S fuel' =>
      r <- call (Connect fd buffer len) ;;
      let conn_result := r_ret r in
      if conn_result =? 0 then ret (conn_result, 0)
      else
        err_code <- error_get_last_net ;;
        if err_code =? EINTR then connect_retry fuel' fd buffer len
        else ret (conn_result, err_code)
  end.

(** [bool socket_connect (Socket *socket, SocketAddress *address)] *)
Definition socket_connect (socket : option Socket)
    (address : option SocketAddress) (fuel : nat)
  : M (bool * option Socket) :=
  match socket, address with
  | Some s, Some _ =>
      ok <- _XX__socket_check s ;;
      if negb ok then ret (false, Some s)
      else
        match socket_address_to_native address (Some sockaddr_storage)
                (Z.of_nat sizeof_sockaddr_storage) with
        | None =>
            error_set_error (ErrorIO_value ERROR_IO_FAILED) 0
              "Failed to convert socket address to native structure" ;;
            ret (false, Some s)
        | Some buffer =>
            let len := u32 (socket_address_get_native_size address) in
            '(conn_result, err_code) <-
               connect_retry fuel (fd s) (firstn (Z.to_nat len) buffer) len ;;
            if conn_result =? 0 then ret (true, Some (with_connected true s))
            else
              let sock_err := error_get_io_from_system err_code in
              if ErrorIO_eqb sock_err ERROR_IO_WOULD_BLOCK
                 || ErrorIO_eqb sock_err ERROR_IO_IN_PROGRESS
              then
                if blocking s then
                  ready <- socket_io_condition_wait (Some s)
                             SOCKET_IO_CONDITION_POLLOUT fuel ;;
                  if ready then
                    '(checked, socket') <- socket_check_connect_result (Some s) ;;
                    if checked
                    then ret (true, option_map (with_connected true) socket')
                    else ret (false, socket')
                  else ret (false, Some s)
                else
                  error_set_error (ErrorIO_value sock_err) err_code
                                  "Couldn't block non-blocking socket" ;;
                  ret (false, Some s)
              else
                error_set_error (ErrorIO_value sock_err) err_code
                                "Failed to call connect() on socket" ;;
                ret (false, Some s)
        end
  | _, _ => invalid_argument ;; ret (false, socket)
  end.

(** [bool socket_listen (Socket *socket)] *)
Definition socket_listen (socket : option Socket) : M (bool * option Socket) :=
  match socket with
  | None => invalid_argument ;; ret (false, None)
  | Some s =>
      ok <- _XX__socket_check s ;;
      if negb ok then ret (false, Some s)
      else
        r <- call (Listen (fd s) (listen_backlog s)) ;;
        if r_ret r <? 0 then
          error_set_from_last_net "Failed to call listen() on socket" ;;
          ret (false, Some s)
        else ret (true, Some (with_listening true s))
  end.

(** The wait that opens every round of the transfer loops:
    [socket->blocking && socket_io_condition_wait (...) == false]. *)
Definition blocking_wait_failed (s : Socket) (condition : SocketIOCondition)
    (fuel : nat) : M bool :=
  if blocking s then
    ready <- socket_io_condition_wait (Some s) condition fuel ;;
    ret (negb ready)
  else ret false.

(** The [for (;;)] of [socket_accept]: the accepted descriptor, or
    [None] where the source returns [NULL]. *)
Fixpoint accept_retry (wfuel fuel : nat) (s : Socket) : M (option Z) :=
  match fuel with
  | O => out_of_fuel
  | S fuel' =>
      failed <- blocking_wait_failed s SOCKET_IO_CONDITION_POLLIN wfuel ;;
      if failed then ret None
      else
        r <- call (Accept (fd s)) ;;
        let res := s32 (r_ret r) in
        if res <? 0 then
          err_code <- error_get_last_net ;;
          e <- error_get_last_net ;;
          if e =? EINTR then accept_retry wfuel fuel' s
          else
            let sock_err := error_get_io_from_system err_code in
            if blocking s && ErrorIO_eqb sock_err ERROR_IO_WOULD_BLOCK
            then accept_retry wfuel fuel' s
            else
              error_set_error (ErrorIO_value sock_err) err_code
                              "Failed to call accept() on socket" ;;
              ret None
        else ret (Some res)
  end.

(** [Socket *socket_accept (const Socket *socket)] *)
Definition socket_accept (socket : option Socket) (fuel : nat)
  : M (option Socket) :=
  match socket with
  | None => invalid_argument ;; ret None
  | Some s =>
      ok <- _XX__socket_check s ;;
      if negb ok then ret None
      else
        accepted <- accept_retry fuel fuel s ;;
        match accepted with
        | None => ret None
        | Some res =>
            r <- call (Fcntl_GETFD res) ;;
            let flags := r_ret r in
            (if negb (flags =? -1) && (Z.land flags FD_CLOEXEC =? 0) then
               _ <- call (Fcntl_SETFD res (Z.lor flags FD_CLOEXEC)) ;; ret tt
             else ret tt) ;;
            new <- socket_new_from_fd res ;;
            match new with
            | None => _ <- sys_close res ;; ret None
            | Some child => ret (Some (with_protocol (protocol s) child))
            end
        end
  end.

(** The [for (;;)] of [socket_receive]: the value returned and the
    bytes [recv] stored in the buffer. *)
Fixpoint receive_retry (wfuel fuel : nat) (s : Socket) (buffer : list byte)
    (buflen : Z) : M (Z * list byte) :=
  match fuel with
  | O => out_of_fuel
  | S fuel' =>
      failed <- blocking_wait_failed s SOCKET_IO_CONDITION_POLLIN wfuel ;;
      if failed then ret (-1, buffer)
      else
        r <- call (Recv (fd s) (u32 buflen) 0) ;;
        let ret_ := r_ret r in
        if ret_ <? 0 then
          err_code <- error_get_last_net ;;
          if err_code =? EINTR then receive_retry wfuel fuel' s buffer buflen
          else
            let sock_err := error_get_io_from_system err_code in
            if blocking s && ErrorIO_eqb sock_err ERROR_IO_WOULD_BLOCK
            then receive_retry wfuel fuel' s buffer buflen
            else
              error_set_error (ErrorIO_value sock_err) err_code
                              "Failed to call recv() on socket" ;;
              ret (-1, buffer)
        else ret (ret_, write_at 0 (r_data r) buffer)
  end.

(** [ssize_t socket_receive (const Socket *socket, char *buffer,
    size_t buflen)]: the value returned and the buffer afterwards. *)
Definition socket_receive (socket : option Socket)
    (buffer : option (list byte)) (buflen : Z) (fuel : nat)
  : M (Z * option (list byte)) :=
  match socket, buffer with
  | Some s, Some buf =>
      ok <- _XX__socket_check s ;;
      if negb ok then ret (-1, buffer)
      else
        '(n, buf') <- receive_retry fuel fuel s buf buflen ;;
        ret (n, Some buf')
  | _, _ => invalid_argument ;; ret (-1, buffer)
  end.

(** The [for (;;)] of [socket_receive_from]; [sa] and [optlen] are the
    locals the kernel writes the peer address and its length to. *)
Fixpoint receive_from_retry (wfuel fuel : nat) (s : Socket)
    (buffer : list byte) (buflen : Z) (sa : list byte) (optlen : Z)
  : M (Z * list byte * list byte * Z) :=
  match fuel with
  | O => out_of_fuel
  | S fuel' =>
      failed <- blocking_wait_failed s SOCKET_IO_CONDITION_POLLIN wfuel ;;
      if failed then ret (-1, buffer, sa, optlen)
      else
        r <- call (Recvfrom (fd s) (u32 buflen) 0 optlen) ;;
        let ret_ := r_ret r in
        if ret_ <? 0 then
          err_code <- error_get_last_net ;;
          if err_code =? EINTR
          then receive_from_retry wfuel fuel' s buffer buflen sa optlen
          else
            let sock_err := error_get_io_from_system err_code in
            if blocking s && ErrorIO_eqb sock_err ERROR_IO_WOULD_BLOCK
            then receive_from_retry wfuel fuel' s buffer buflen sa optlen
            else
              error_set_error (ErrorIO_value sock_err) err_code
                              "Failed to call recvfrom() on socket" ;;
              ret (-1, buffer, sa, optlen)
        else ret (ret_, write_at 0 (r_data r) buffer,
                  write_at 0 (r_addr r) sa, r_len r)
  end.

(** [ssize_t socket_receive_from (const Socket *socket,
    SocketAddress **address, char *buffer, size_t buflen)].  [address]
    is [None] for a [NULL] pointer and [Some x] for a pointer to a
    location holding [x]; the result carries the value returned, the
    buffer afterwards and that location afterwards. *)
Definition socket_receive_from (socket : option Socket)
    (address : option (option SocketAddress))
    (buffer : option (list byte)) (buflen : Z) (fuel : nat)
  : M (Z * option (list byte) * option (option SocketAddress)) :=
  match socket, buffer with
  | Some s, Some buf =>
      if buflen =? 0 then invalid_argument ;; ret (-1, buffer, address)
      else
        ok <- _XX__socket_check s ;;
        if negb ok then ret (-1, buffer, address)
        else
          '(n, buf', sa, optlen) <-
             receive_from_retry fuel fuel s buf buflen sockaddr_storage
               (Z.of_nat sizeof_sockaddr_storage) ;;
          if n <? 0 then ret (n, Some buf', address)
          else
            match address with
            | None => ret (n, Some buf', None)
            | Some _ =>
                ret (n, Some buf',
                     Some (socket_address_new_from_native (Some sa) optlen))
            end
  | _, _ => invalid_argument ;; ret (-1, buffer, address)
  end.

(** The [for (;;)] of [socket_send]. *)
Fixpoint send_retry (wfuel fuel : nat) (s : Socket) (buffer : list byte)
    (buflen : Z) : M Z :=
  match fuel with
  | O => out_of_fuel
  | S fuel' =>
      failed <- blocking_wait_failed s SOCKET_IO_CONDITION_POLLOUT wfuel ;;
      if failed then ret (-1)
      else
        r <- call (Send (fd s) (firstn (Z.to_nat (u32 buflen)) buffer)
                        (u32 buflen) SOCKET_DEFAULT_SEND_FLAGS) ;;
        let ret_ := r_ret r in
        if ret_ <? 0 then
          err_code <- error_get_last_net ;;
          if err_code =? EINTR then send_retry wfuel fuel' s buffer buflen
          else
            let sock_err := error_get_io_from_system err_code in
            if blocking s && ErrorIO_eqb sock_err ERROR_IO_WOULD_BLOCK
            then send_retry wfuel fuel' s buffer buflen
            else
              error_set_error (ErrorIO_value sock_err) err_code
                              "Failed to call send() on socket" ;;
              ret (-1)
        else ret ret_
  end.

(** [ssize_t socket_send (const Socket *socket, const char *buffer,
    size_t buflen)] *)
Definition socket_send (socket : option Socket)
    (buffer : option (list byte)) (buflen : Z) (fuel : nat) : M Z :=
  match socket, buffer with
  | Some s, Some buf =>
      if buflen =? 0 then invalid_argument ;; ret (-1)
      else
        ok <- _XX__socket_check s ;;
        if negb ok then ret (-1)
        else send_retry fuel fuel s buf buflen
  | _, _ => invalid_argument ;; ret (-1)
  end.

(** The [for (;;)] of [socket_send_to]. *)
Fixpoint send_to_retry (wfuel fuel : nat) (s : Socket) (buffer : list byte)
    (buflen : Z) (sa : list byte) (optlen : Z) : M Z :=
  match fuel with
  | O => out_of_fuel
  | S fuel' =>
      failed <- blocking_wait_failed s SOCKET_IO_CONDITION_POLLOUT wfuel ;;
      if failed then ret (-1)
      else
        r <- call (Sendto (fd s) (firstn (Z.to_nat (u32 buflen)) buffer)
                          (u32 buflen) 0 (firstn (Z.to_nat optlen) sa) optlen) ;;
        let ret_ := r_ret r in
        if ret_ <? 0 then
          err_code <- error_get_last_net ;;
          if err_code =? EINTR
          then send_to_retry wfuel fuel' s buffer buflen sa optlen
          else
            let sock_err := error_get_io_from_system err_code in
            if blocking s && ErrorIO_eqb sock_err ERROR_IO_WOULD_BLOCK
            then send_to_retry wfuel fuel' s buffer buflen sa optlen
            else
              error_set_error (ErrorIO_value sock_err) err_code
                              "Failed to call sendto() on socket" ;;
              ret (-1)
        else ret ret_
  end.

(** [ssize_t socket_send_to (const Socket *socket, SocketAddress *address,
    const char *buffer, size_t buflen)] *)
Definition socket_send_to (socket : option Socket)
    (address : option SocketAddress) (buffer : option (list byte))
    (buflen : Z) (fuel : nat) : M Z :=
  match socket, address, buffer with
  | Some s, Some _, Some buf =>
      ok <- _XX__socket_check s ;;
      if negb ok then ret (-1)
      else
        match socket_address_to_native address (Some sockaddr_storage)
                (Z.of_nat sizeof_sockaddr_storage) with
        | None =>
            error_set_error (ErrorIO_value ERROR_IO_FAILED) 0
              "Failed to convert socket address to native structure" ;;
            ret (-1)
        | Some sa =>
            let optlen := u32 (socket_address_get_native_size address) in
            send_to_retry fuel fuel s buf buflen sa optlen
        end
  | _, _, _ => invalid_argument ;; ret (-1)
  end.

(** [bool socket_close (Socket *socket)] *)
Definition socket_close (socket : option Socket) : M (bool * option Socket) :=
  match socket with
  | None => invalid_argument ;; ret (false, None)
  | Some s =>
      if closed s then ret (true, Some s)
      else
        res <- sys_close (fd s) ;;
        if res =? 0 then
          let s := with_connected false s in
          let s := with_closed true s in
          let s := with_listening false s in
          let s := with_fd (-1) s in
          ret (true, Some s)
        else
          err_code <- error_get_last_net ;;
          error_set_error
            (ErrorIO_value (error_get_io_from_system err_code)) err_code
            "Failed to close socket" ;;
          ret (false, Some s)
  end.

(** [bool socket_shutdown (Socket *socket, bool shutdown_read,
    bool shutdown_write)] *)
Definition socket_shutdown (socket : option Socket)
    (shutdown_read shutdown_write : bool) : M (bool * option Socket) :=
  match socket with
  | None => invalid_argument ;; ret (false, None)
  | Some s =>
      ok <- _XX__socket_check s ;;
      if negb ok then ret (false, Some s)
      else if negb shutdown_read && negb shutdown_write then ret (true, Some s)
      else
        let how :=
          if shutdown_read && shutdown_write then SHUT_RDWR
          else if shutdown_read then SHUT_RD
          else SHUT_WR in
        r <- call (Shutdown (fd s) how) ;;
        if negb (r_ret r =? 0) then
          error_set_from_last_net "Failed to call shutdown() on socket" ;;
          ret (false, Some s)
        else if shutdown_read && shutdown_write
        then ret (true, Some (with_connected false s))
        else ret (true, Some s)
  end.

(** [void socket_free (Socket *socket)] *)
Definition socket_free (socket : option Socket) : M unit :=
  match socket with
  | None => ret tt
  | Some _ =>
      _ <- socket_close socket ;;
      _ <- call Free ;;
      ret tt
  end.

(** [bool socket_set_buffer_size (const Socket *socket,
    SocketDirection dir, size_t size)] *)
Definition socket_set_buffer_size (socket : option Socket)
    (dir : SocketDirection) (size : Z) : M bool :=
  match socket with
  | None => invalid_argument ;; ret false
  | Some s =>
      ok <- _XX__socket_check s ;;
      if negb ok then ret false
      else
        let optname := match dir with
                       | SOCKET_DIRECTION_RCV => SO_RCVBUF
                       | SOCKET_DIRECTION_SND => SO_SNDBUF
                       end in
        let optval := s32 size in
        r <- call (Setsockopt (fd s) optname optval) ;;
        if negb (r_ret r =? 0) then
          error_set_from_last_net
            "Failed to call setsockopt() on socket to set buffer size" ;;
          ret false
        else ret true
  end.

(** [SocketAddress *socket_get_local_address (const Socket *socket,
    Error **error)].  On failure of [getsockname] the source hands the
    unused [error] to [error_set_error] as an extra first argument; the
    call is read as the one [socket_get_remote_address] makes, with the
    three arguments that follow. *)
Definition socket_get_local_address (socket : option Socket)
  : M (option SocketAddress) :=
  match socket with
  | None => invalid_argument ;; ret None
  | Some s =>
      r <- call (Getsockname (fd s)) ;;
      if r_ret r <? 0 then
        error_set_from_last_net
          "Failed to call getsockname() to get local socket address" ;;
        ret None
      else
        let buffer := write_at 0 (r_addr r) sockaddr_storage in
        let len := r_len r in
        match socket_address_new_from_native (Some buffer) len with
        | None =>
            error_set_error (ErrorIO_value ERROR_IO_FAILED) 0
              "Failed to create socket address from native structure" ;;
            ret None
        | Some a => ret (Some a)
        end
  end.

(** [SocketAddress *socket_get_remote_address (const Socket *socket)] *)
Definition socket_get_remote_address (socket : option Socket)
  : M (option SocketAddress) :=
  match socket with
  | None => invalid_argument ;; ret None
  | Some s =>
      r <- call (Getpeername (fd s)) ;;
      if r_ret r <? 0 then
        error_set_from_last_net
          "Failed to call getpeername() to get remote socket address" ;;
        ret None
      else
        let buffer := write_at 0 (r_addr r) sockaddr_storage in
        let len := r_len r in
        match socket_address_new_from_native (Some buffer) len with
        | None =>
            error_set_error (ErrorIO_value ERROR_IO_FAILED) 0
              "Failed to create socket address from native structure" ;;
            ret None
        | Some a => ret (Some a)
        end
  end.

End Operations.
End Socket.

(* ================================================================== *)
(** * Vocabulary of the properties *)
(* ================================================================== *)

Import Error Mem Libc Sys Address Socket.

(** ** Addresses *)

(** A native address buffer as the kernel produces it: the family tag
    of IPv4 or IPv6, exactly the size of the matching structure, and,
    for IPv4, zero padding in [sin_zero]. *)
Definition well_formed_native (b : list byte) : bool :=
  ((load16 b off_sa_family =? AF_INET)
   && (length b =? sizeof_sockaddr_in)%nat
   && bytes_eqb (read_bytes off_sin_zero sizeof_sin_zero b) (zeros sizeof_sin_zero))
  || ((load16 b off_sa_family =? AF_INET6)
      && (length b =? sizeof_sockaddr_in6)%nat).

(** The addresses a caller can hold: what the four constructors return,
    and what the two setters turn such an address into. *)
Inductive constructed {config : Config} : SocketAddress -> Prop :=
| constructed_from_native native len a :
    socket_address_new_from_native native len = Some a -> constructed a
| constructed_new address port a :
    socket_address_new address port = Some a -> constructed a
| constructed_any family port a :
    socket_address_new_any family port = Some a -> constructed a
| constructed_loopback family port a :
    socket_address_new_loopback family port = Some a -> constructed a
| constructed_set_flow_info a v a' :
    constructed a ->
    socket_address_set_flow_info (Some a) v = Some a' -> constructed a'
| constructed_set_scope_id a v a' :
    constructed a ->
    socket_address_set_scope_id (Some a) v = Some a' -> constructed a'.

(** What every constructed address satisfies: a known family, sixteen
    bytes of address storage, fields within their C types, and for IPv4
    nothing beyond the four address bytes. *)
Definition address_invariant (a : SocketAddress) : Prop :=
  family a <> SOCKET_FAMILY_UNKNOWN
  /\ length (addr a) = 16%nat
  /\ 0 <= port a < 65536
  /\ 0 <= flowinfo a < 4294967296
  /\ 0 <= scope_id a < 4294967296
  /\ (family a = SOCKET_FAMILY_INET ->
      flowinfo a = 0 /\ scope_id a = 0 /\ skipn 4 (addr a) = zeros 12).

(** A build in which both accessor macros are defined, and one in which
    neither is (the repository as it stands). *)
Definition config_with_fields : Config :=
  {| PLIBSYS_SOCKADDR_IN6_HAS_FLOWINFO := true;
     PLIBSYS_SOCKADDR_IN6_HAS_SCOPEID := true |}.
Definition config_without_fields : Config :=
  {| PLIBSYS_SOCKADDR_IN6_HAS_FLOWINFO := false;
     PLIBSYS_SOCKADDR_IN6_HAS_SCOPEID := false |}.

(** [struct sockaddr_in] of 127.0.0.1, port 8080, and
    [struct sockaddr_in6] of ::1, port 443, flow information 1,
    scope 2. *)
Definition sample_sockaddr_in : list byte :=
  [x02; x00; x1f; x90; x7f; x00; x00; x01] ++ zeros 8.
Definition sample_sockaddr_in6 : list byte :=
  [x0a; x00; x01; xbb; x01; x00; x00; x00] ++ zeros 15 ++ [x01]
  ++ [x02; x00; x00; x00].

(** The IPv6 loopback address with port 443. *)
Definition sample_address6 : SocketAddress :=
  {| family := SOCKET_FAMILY_INET6; addr := loop6_addr; port := 443;
     flowinfo := 0; scope_id := 0 |}.
(** 127.0.0.1 with port 8080. *)
Definition sample_address4 : SocketAddress :=
  {| family := SOCKET_FAMILY_INET; addr := [x7f; x00; x00; x01] ++ zeros 12;
     port := 8080; flowinfo := 0; scope_id := 0 |}.

(** ** Handles and the environment *)

(** The operations that change the state of the connection, with the
    arguments other than the handle. *)
Inductive Operation : Type :=
| OpBind (address : option SocketAddress) (allow_reuse : bool)
| OpConnect (address : option SocketAddress)
| OpListen
| OpAccept
| OpReceive (buffer : option (list byte)) (buflen : Z)
| OpReceiveFrom (address : option (option SocketAddress))
                (buffer : option (list byte)) (buflen : Z)
| OpSend (buffer : option (list byte)) (buflen : Z)
| OpSendTo (address : option SocketAddress)
           (buffer : option (list byte)) (buflen : Z)
| OpShutdown (shutdown_read shutdown_write : bool)
| OpSetBufferSize (dir : SocketDirection) (size : Z)
| OpIoConditionWait (condition : SocketIOCondition).

Definition is_some {A} (o : option A) : bool :=
  match o with Some _ => true | None => false end.

(** Whether the arguments pass the validation an operation performs
    before it looks at the [closed] flag. *)
Definition args_valid (op : Operation) : bool :=
  match op with
  | OpBind address _ => is_some address
  | OpConnect address => is_some address
  | OpReceive buffer _ => is_some buffer
  | OpReceiveFrom _ buffer buflen => is_some buffer && negb (buflen =? 0)
  | OpSend buffer buflen => is_some buffer && negb (buflen =? 0)
  | OpSendTo address buffer _ => is_some address && is_some buffer
  | OpListen | OpAccept | OpShutdown _ _ | OpSetBufferSize _ _
  | OpIoConditionWait _ => true
  end.

Section Runs.
Context {errno_h : ErrnoTable} {build : Build}.
Local Open Scope sys_scope.

(** Run an operation on a handle and tell whether it returned its
    failure sentinel ([false], [NULL] or [-1]). *)
Definition returns_failure (op : Operation) (socket : option Socket)
    (fuel : nat) : M bool :=
  match op with
  | OpBind address allow_reuse =>
      b <- socket_bind socket address allow_reuse ;; ret (negb b)
  | OpConnect address =>
      '(b, _) <- socket_connect socket address fuel ;; ret (negb b)
  | OpListen =>
      '(b, _) <- socket_listen socket ;; ret (negb b)
  | OpAccept =>
      child <- socket_accept socket fuel ;; ret (negb (is_some child))
  | OpReceive buffer buflen =>
      '(n, _) <- socket_receive socket buffer buflen fuel ;; ret (n =? -1)
  | OpReceiveFrom address buffer buflen =>
      '(n, _, _) <- socket_receive_from socket address buffer buflen fuel ;;
      ret (n =? -1)
  | OpSend buffer buflen =>
      n <- socket_send socket buffer buflen fuel ;; ret (n =? -1)
  | OpSendTo address buffer buflen =>
      n <- socket_send_to socket address buffer buflen fuel ;; ret (n =? -1)
  | OpShutdown shutdown_read shutdown_write =>
      '(b, _) <- socket_shutdown socket shutdown_read shutdown_write ;;
      ret (negb b)
  | OpSetBufferSize dir size =>
      b <- socket_set_buffer_size socket dir size ;; ret (negb b)
  | OpIoConditionWait condition =>
      b <- socket_io_condition_wait socket condition fuel ;; ret (negb b)
  end.

(** A call cut short by a signal: it returns -1 and sets [errno] to
    [EINTR]. *)
Definition interrupted (r : Reply) : Prop :=
  r_ret r = -1 /\ r_errno r = Some EINTR.

(** The wait primitive as it is invoked for an unbounded wait, and for a
    wait bounded by [t] milliseconds. *)
Definition unbounded_wait_call (s : Socket) (condition : SocketIOCondition)
  : Call :=
  match wait_backend, condition with
  | SOCKET_USE_POLL, _ => Poll (fd s) condition (-1)
  | SOCKET_USE_SELECT, SOCKET_IO_CONDITION_POLLIN =>
      Select (fd s + 1) (Some (fd s)) None None
  | SOCKET_USE_SELECT, SOCKET_IO_CONDITION_POLLOUT =>
      Select (fd s + 1) None (Some (fd s)) None
  end.

Definition bounded_wait_call (s : Socket) (condition : SocketIOCondition)
    (t : Z) : Call :=
  match wait_backend, condition with
  | SOCKET_USE_POLL, _ => Poll (fd s) condition t
  | SOCKET_USE_SELECT, SOCKET_IO_CONDITION_POLLIN =>
      Select (fd s + 1) (Some (fd s)) None
             (Some (Z.quot t 1000, Z.rem t 1000 * 1000))
  | SOCKET_USE_SELECT, SOCKET_IO_CONDITION_POLLOUT =>
      Select (fd s + 1) None (Some (fd s))
             (Some (Z.quot t 1000, Z.rem t 1000 * 1000))
  end.

(** [socket_close] applied [n] times in a row to the same handle: the
    results, oldest first, and the handle at the end. *)
Fixpoint close_repeatedly (n : nat) (socket : option Socket)
  : M (list bool * option Socket) :=
  match n with
  | O => ret ([], socket)
  | S n' =>
      '(b, socket') <- socket_close socket ;;
      '(bs, socket'') <- close_repeatedly n' socket' ;;
      ret (b :: bs, socket'')
  end.

End Runs.

(** The next replies of the environment of [w] are [rs], in order. *)
Definition next_replies (w : World) (rs : list Reply) : Prop :=
  forall i r, nth_error rs i = Some r -> os w (length (trace w) + i) = r.

(** How many descriptor releases a trace holds. *)
Definition releases (t : list Call) : nat :=
  length (filter (fun c => match c with Close _ => true | _ => false end) t).

(** Replies used in the examples. *)
Definition reply (ret_ : Z) (e : option Z) : Reply :=
  {| r_ret := ret_; r_errno := e; r_val := 0; r_len := 0;
     r_data := []; r_addr := [] |}.

(** An environment that answers the [n]-th call with the [n]-th element
    of [script] and answers 0 once the script is exhausted. *)
Definition scripted (script : list Reply) : World :=
  {| os := fun n => nth n script (reply 0 None);
     trace := [];
     errno := 0;
     CURRENT_ERROR := no_error |}.

Definition linux_poll : Build := {| wait_backend := SOCKET_USE_POLL |}.
Definition with_select : Build := {| wait_backend := SOCKET_USE_SELECT |}.

(** An open, connected, non-blocking TCP handle on descriptor 3, the
    same handle marked blocking, and the handle after [socket_close]. *)
Definition sample_socket : Socket :=
  {| s_family := SOCKET_FAMILY_INET; protocol := SOCKET_PROTOCOL_TCP;
     type := SOCKET_TYPE_STREAM; fd := 3;
     listen_backlog := SOCKET_DEFAULT_BACKLOG; timeout := 0;
     blocking := false; keepalive := false; closed := false;
     connected := true; listening := false |}.
Definition sample_blocking_socket : Socket := with_blocking true sample_socket.
Definition sample_closed_socket : Socket :=
  with_fd (-1) (with_listening false (with_closed true
    (with_connected false sample_socket))).


(** The final answer of an unbounded wait, as POSIX specifies [poll]
    with a negative timeout and [select] with a null one: the awaited
    condition (1), or a failure (-1) whose error number is neither
    [EINTR] nor one that is classified as a timeout.  It is never 0. *)
Definition honours_unbounded_wait {errno_h : ErrnoTable} (r : Reply) : Prop :=
  r_ret r = 1
  \/ (r_ret r = -1
      /\ exists e, r_errno r = Some e /\ e <> EINTR
                   /\ error_get_io_from_system e <> ERROR_IO_TIMED_OUT).

(** The call one round of [select_wait] makes. *)
Definition select_call (s : Socket) (condition : SocketIOCondition)
    (use_tv : bool) : Call :=
  let tv := if 0 <? timeout s
            then (Z.quot (timeout s) 1000, Z.rem (timeout s) 1000 * 1000)
            else (0, 0) in
  let ptv := if use_tv then Some tv else None in
  match condition with
  | SOCKET_IO_CONDITION_POLLIN => Select (fd s + 1) (Some (fd s)) None ptv
  | SOCKET_IO_CONDITION_POLLOUT => Select (fd s + 1) None (Some (fd s)) ptv
  end.

(** How a round of the wait loops ends when the reply [r] is not an
    interruption; [w1] is the world right after the call. *)
Inductive wait_outcome {errno_h : ErrnoTable} (r : Reply) (w1 : World)
  : bool -> World -> Prop :=
| wait_ready w' :
    r_ret r = 1 -> w' = w1 -> wait_outcome r w1 true w'
| wait_timed_out w' :
    r_ret r = 0 ->
    trace w' = trace w1 ->
    CURRENT_ERROR w' =
      {| code := ErrorIO_value ERROR_IO_TIMED_OUT; native_code := errno w1;
         message := Some "Timed out while waiting socket condition"%string |} ->
    wait_outcome r w1 false w'
| wait_failed w' msg :
    r_ret r <> 1 -> r_ret r <> 0 ->
    trace w' = trace w1 ->
    CURRENT_ERROR w' =
      {| code := ErrorIO_value (error_get_io_from_system (errno w1));
         native_code := errno w1; message := Some msg |} ->
    wait_outcome r w1 false w'.

(** Environments of the examples: [connect] answers [EINPROGRESS]; the
    state after descriptor 3 has been closed; a wait that is interrupted
    once and then reports readiness; a wait that reports an elapsed
    timeout. *)
Definition in_progress_world : World :=
  scripted [reply (-1) (Some (@EINPROGRESS linux_errno))].
Definition world_after_close : World :=
  {| os := os (scripted []); trace := [Close 3]; errno := 0;
     CURRENT_ERROR := no_error |}.
Definition interrupted_then_ready : list Reply :=
  [reply (-1) (Some (@EINTR linux_errno)); reply 1 None].
Definition elapsed : list Reply := [reply 0 None].

(** A [sockaddr_in] whose padding is not zero. *)
Definition padded_sockaddr_in : list byte :=
  [x02; x00; x1f; x90; x7f; x00; x00; x01; x01] ++ zeros 7.

(** ** Outcomes of runs *)

(** The protocol a handle of known family gets from its type. *)
Definition protocol_of_type (t : SocketType) (otherwise : SocketProtocol)
  : SocketProtocol :=
  match t with
  | SOCKET_TYPE_STREAM => SOCKET_PROTOCOL_TCP
  | SOCKET_TYPE_DATAGRAM => SOCKET_PROTOCOL_UDP
  | SOCKET_TYPE_SEQPACKET => SOCKET_PROTOCOL_SCTP
  | SOCKET_TYPE_UNKNOWN => otherwise
  end.

(** An error has been recorded: the context holds a message and the
    value of an error kind. *)
Definition failure_recorded (w : World) : Prop :=
  message (CURRENT_ERROR w) <> None
  /\ exists k, code (CURRENT_ERROR w) = ErrorIO_value k.

(** What a run from [w] to [w'] with the given outcome leaves behind:
    no descriptor has been closed, and the error context is untouched
    on success and holds an error on failure. *)
Definition settles (success : bool) (w w' : World) : Prop :=
  os w' = os w
  /\ releases (trace w') = releases (trace w)
  /\ (if success then CURRENT_ERROR w' = CURRENT_ERROR w
      else failure_recorded w').

(** A reply that carries an integer, a length and a socket address. *)
Definition reply_with (ret_ val len : Z) (a : list byte) : Reply :=
  {| r_ret := ret_; r_errno := None; r_val := val; r_len := len;
     r_data := []; r_addr := a |}.

(** The answers a connected IPv4 stream descriptor gives to
    [socket_new_from_fd]: [SO_TYPE], [getsockname], [getpeername],
    [SO_KEEPALIVE] and [ioctl]. *)
Definition from_fd_script : list Reply :=
  [reply_with 0 SOCK_STREAM 4 []; reply_with 0 0 16 sample_sockaddr_in;
   reply 0 None; reply 0 None; reply 0 None].

(** [accept] hands out descriptor 4 and both [fcntl] calls succeed;
    then either the descriptor answers as above, or [SO_TYPE] fails
    with [EBADF]. *)
Definition accept_script : list Reply :=
  [reply 4 None; reply 0 None; reply 0 None] ++ from_fd_script.
Definition accept_script_failing : list Reply :=
  [reply 4 None; reply 0 None; reply 0 None; reply (-1) (Some 9)].


(* ================================================================== *)
(** * Properties *)
(* ================================================================== *)

(** ** Error classification *)

Section ClassificationFacts.
Context {errno_h : ErrnoTable}.

(** A [switch] yields its default or the result of one of its cases. *)
Lemma switch_result (cases : list (Z * ErrorIO)) (d : ErrorIO) (x : Z) :
  switch cases d x = d \/ In (switch cases d x) (map snd cases).
Proof.
  induction cases as [| [label result] rest IH]; simpl.
  - now left.
  - destruct (x =? label).
    + right. now left.
    + destruct IH as [IH | IH]; [now left | right; now right].
Qed.

(** A scrutinee that no label names falls through to the default. *)
Lemma switch_default (cases : list (Z * ErrorIO)) (d : ErrorIO) (x : Z) :
  ~ In x (map fst cases) -> switch cases d x = d.
Proof.
  induction cases as [| [label result] rest IH]; simpl; intros Hx.
  - reflexivity.
  - destruct (Z.eqb_spec x label) as [-> | Hne].
    + exfalso. apply Hx. now left.
    + apply IH. intros Hin. apply Hx. now right.
Qed.

Lemma all_kinds_complete (e : ErrorIO) : In e all_kinds.
Proof. destruct e; simpl; tauto. Qed.

Lemma ErrorIO_value_range (e : ErrorIO) : 500 <= ErrorIO_value e <= 522.
Proof. destruct e; simpl; lia. Qed.

(** C2. The classification is total and closed over the 23 portable
    kinds: every error number is mapped to one of the enumerators
    declared in [error.h] (whose values run from 500 to 522); 0 is
    mapped to [ERROR_IO_NONE]; and a number that no [case] label names
    is mapped to [ERROR_IO_FAILED].  This holds whatever numbers the
    platform gives to the [errno] constants. *)
Theorem classification_total_and_closed :
  forall err_code : Z,
    In (error_get_io_from_system err_code) all_kinds
    /\ 500 <= ErrorIO_value (error_get_io_from_system err_code) <= 522
    /\ error_get_io_from_system 0 = ERROR_IO_NONE
    /\ (~ In err_code mapped_numbers ->
        error_get_io_from_system err_code = ERROR_IO_FAILED).
Proof.
  intros err_code. repeat split.
  - apply all_kinds_complete.
  - apply ErrorIO_value_range.
  - apply ErrorIO_value_range.
  - intros Hx. unfold error_get_io_from_system. now apply switch_default.
Qed.

End ClassificationFacts.

(** On Linux, 5 ([EIO]) is not named by the [switch] and is classified
    as the generic failure. *)
Lemma classification_total_and_closed_witness :
  @error_get_io_from_system linux_errno 5 = ERROR_IO_FAILED.
Proof.
  apply (proj2 (proj2 (proj2
           (@classification_total_and_closed linux_errno 5)))).
  vm_compute. intuition discriminate.
Defined.

(** ** Null handles *)

(** C10. Every accessor and both release functions accept a null
    handle: the accessors return their fixed default
    ([socket_get_fd] -1, [socket_is_closed] true, [socket_is_connected]
    false, [socket_address_get_family] unknown, [socket_address_get_port]
    0, and so on for the others), and [socket_address_free] and
    [socket_free] return without any call or change of state. *)
Theorem null_handle_defaults :
  forall (errno_h : ErrnoTable) (config : Config) (w : World),
    socket_get_fd None = -1
    /\ socket_is_closed None = true
    /\ socket_is_connected None = false
    /\ socket_address_get_family None = SOCKET_FAMILY_UNKNOWN
    /\ socket_address_get_port None = 0
    /\ socket_address_free None w = Some (tt, w)
    /\ socket_free None w = Some (tt, w)
    /\ socket_get_family None = SOCKET_FAMILY_UNKNOWN
    /\ socket_get_type None = SOCKET_TYPE_UNKNOWN
    /\ socket_get_protocol None = SOCKET_PROTOCOL_UNKNOWN
    /\ socket_get_keepalive None = false
    /\ socket_get_blocking None = false
    /\ socket_get_listen_backlog None = -1
    /\ socket_get_timeout None = -1
    /\ socket_address_get_native_size None = 0
    /\ socket_address_get_flow_info None = 0
    /\ socket_address_get_scope_id None = 0
    /\ socket_address_is_any None = false
    /\ socket_address_is_loopback None = false.
Proof. intros. repeat split. Qed.

(** ** Parsing of numeric addresses *)

(** C8. ["127.0.0.1"] with port 8080 parses to a loopback address,
    ["0.0.0.0"] with port 0 to the any-address, ["::1"] with port 443 to
    an IPv6 address, and ["not-an-address"] is rejected. *)
Theorem numeric_parsing_examples :
  socket_address_is_loopback (socket_address_new (Some "127.0.0.1"%string) 8080) = true
  /\ socket_address_is_any (socket_address_new (Some "0.0.0.0"%string) 0) = true
  /\ socket_address_get_family (socket_address_new (Some "::1"%string) 443)
     = SOCKET_FAMILY_INET6
  /\ socket_address_new (Some "not-an-address"%string) 80 = None.
Proof. repeat split; vm_compute; reflexivity. Qed.

(** The parsed values themselves. *)
Lemma numeric_parsing_values :
  socket_address_new (Some "127.0.0.1"%string) 8080 = Some sample_address4
  /\ socket_address_new (Some "::1"%string) 443 = Some sample_address6.
Proof. split; vm_compute; reflexivity. Qed.

(** ** Flow information and scope index *)

(** C9, as stated, fails on a build that does not define the accessor
    macros: on an IPv6 address, setting the flow information (or the
    scope index) to 7 and reading it back yields 0. *)
Lemma flow_scope_setters_counterexample :
  family sample_address6 = SOCKET_FAMILY_INET6
  /\ @socket_address_get_flow_info config_without_fields
       (@socket_address_set_flow_info config_without_fields
          (Some sample_address6) 7) <> 7
  /\ @socket_address_get_scope_id config_without_fields
       (@socket_address_set_scope_id config_without_fields
          (Some sample_address6) 7) <> 7.
Proof. repeat split; vm_compute; discriminate. Qed.

Lemma u32_small (v : Z) : 0 <= v < 4294967296 -> u32 v = v.
Proof. intros H. unfold u32. now apply Z.mod_small. Qed.

(** C9, amended. For every 32-bit value [v]: on an IPv6 address, where
    the build defines [PLIBSYS_SOCKADDR_IN6_HAS_FLOWINFO] setting the
    flow information to [v] and reading it back returns [v], and
    likewise for the scope index with
    [PLIBSYS_SOCKADDR_IN6_HAS_SCOPEID]; on an address that is not IPv6
    the setters leave the address unchanged and the getters return 0;
    and where a macro is not defined its setter leaves every address
    unchanged and its getter returns 0. *)
Theorem flow_scope_setters_amended :
  forall (config : Config) (a : SocketAddress) (v : Z),
    0 <= v < 4294967296 ->
    (family a = SOCKET_FAMILY_INET6 ->
       (PLIBSYS_SOCKADDR_IN6_HAS_FLOWINFO = true ->
          socket_address_get_flow_info
            (socket_address_set_flow_info (Some a) v) = v)
       /\ (PLIBSYS_SOCKADDR_IN6_HAS_SCOPEID = true ->
          socket_address_get_scope_id
            (socket_address_set_scope_id (Some a) v) = v))
    /\ (family a <> SOCKET_FAMILY_INET6 ->
          socket_address_set_flow_info (Some a) v = Some a
          /\ socket_address_set_scope_id (Some a) v = Some a
          /\ socket_address_get_flow_info (Some a) = 0
          /\ socket_address_get_scope_id (Some a) = 0)
    /\ (PLIBSYS_SOCKADDR_IN6_HAS_FLOWINFO = false ->
          socket_address_set_flow_info (Some a) v = Some a
          /\ socket_address_get_flow_info (Some a) = 0)
    /\ (PLIBSYS_SOCKADDR_IN6_HAS_SCOPEID = false ->
          socket_address_set_scope_id (Some a) v = Some a
          /\ socket_address_get_scope_id (Some a) = 0).
Proof.
  intros config a v Hv.
  unfold socket_address_get_flow_info, socket_address_set_flow_info,
         socket_address_get_scope_id, socket_address_set_scope_id.
  rewrite (u32_small v Hv).
  split; [| split; [| split]].
  - intros Hfam. rewrite Hfam.
    split; intros Hm; rewrite Hm; simpl; rewrite Hfam; reflexivity.
  - intros Hfam.
    destruct PLIBSYS_SOCKADDR_IN6_HAS_FLOWINFO,
             PLIBSYS_SOCKADDR_IN6_HAS_SCOPEID;
      destruct (family a); simpl; repeat split; congruence.
  - intros Hm. rewrite Hm. split; reflexivity.
  - intros Hm. rewrite Hm. split; reflexivity.
Qed.

(** With both macros defined, flow information and scope index 7 are
    read back from the IPv6 loopback address; the IPv4 address
    127.0.0.1 is left as it is. *)
Lemma flow_scope_setters_amended_witness :
  @socket_address_get_flow_info config_with_fields
    (@socket_address_set_flow_info config_with_fields (Some sample_address6) 7) = 7
  /\ @socket_address_set_flow_info config_with_fields (Some sample_address4) 7
     = Some sample_address4.
Proof.
  assert (Hv : 0 <= 7 < 4294967296) by lia.
  pose proof (flow_scope_setters_amended config_with_fields sample_address6 7 Hv)
    as [H6 _].
  pose proof (flow_scope_setters_amended config_with_fields sample_address4 7 Hv)
    as [_ [H4 _]].
  split.
  - apply H6; reflexivity.
  - apply H4. discriminate.
Defined.

(** ** Bytes, machine integers, memory *)

(** A byte is a number below 256, and the two conversions are inverse. *)
Lemma Z_of_byte_range (b : byte) : 0 <= Z_of_byte b < 256.
Proof.
  unfold Z_of_byte. pose proof (Byte.to_N_bounded b). lia.
Qed.

Lemma byte_of_Z_of_byte (b : byte) : byte_of_Z (Z_of_byte b) = b.
Proof.
  unfold byte_of_Z. pose proof (Z_of_byte_range b) as Hr.
  rewrite Z.mod_small by exact Hr.
  unfold Z_of_byte. rewrite N2Z.id, Byte.of_to_N. reflexivity.
Qed.

Lemma Z_of_byte_of_Z (z : Z) : Z_of_byte (byte_of_Z z) = z mod 256.
Proof.
  unfold byte_of_Z, Z_of_byte.
  pose proof (Z.mod_pos_bound z 256 ltac:(lia)) as Hr.
  destruct (Byte.of_N (Z.to_N (z mod 256))) as [b |] eqn:E.
  - apply Byte.to_of_N in E. rewrite E. lia.
  - apply Byte.of_N_None_iff in E. lia.
Qed.

(** Or-ing a value below [2 ^ n] into a left shift by [n] adds it. *)
Lemma lor_shiftl_add (a b n : Z) :
  0 <= n -> 0 <= b < 2 ^ n -> Z.lor (Z.shiftl a n) b = a * 2 ^ n + b.
Proof.
  intros Hn Hb. rewrite Z.shiftl_mul_pow2 by lia.
  assert (Hand : Z.land (a * 2 ^ n) b = 0).
  { apply Z.bits_inj'. intros i Hi.
    rewrite Z.land_spec, Z.bits_0.
    destruct (Z.lt_ge_cases i n) as [Hlt | Hge].
    - rewrite Z.mul_pow2_bits_low by lia. reflexivity.
    - rewrite <- (Z.mod_small b (2 ^ n)) by lia.
      rewrite Z.mod_pow2_bits_high by lia. apply andb_false_r. }
  rewrite <- Z.lxor_lor by exact Hand.
  symmetry. now apply Z.add_nocarry_lxor.
Qed.

(** The byte swap in arithmetic terms. *)
Lemma bswap16_eq (x : Z) : bswap16 x = (x mod 256) * 256 + (x / 256) mod 256.
Proof.
  unfold bswap16.
  change 255 with (Z.ones 8).
  rewrite !Z.land_ones by lia.
  rewrite Z.shiftr_div_pow2 by lia.
  change (2 ^ 8) with 256.
  rewrite lor_shiftl_add; [reflexivity | lia |].
  change (2 ^ 8) with 256. apply Z.mod_pos_bound. lia.
Qed.

Lemma bswap16_range (x : Z) : 0 <= bswap16 x < 65536.
Proof.
  rewrite bswap16_eq.
  pose proof (Z.mod_pos_bound x 256 ltac:(lia)).
  pose proof (Z.mod_pos_bound (x / 256) 256 ltac:(lia)). lia.
Qed.

Lemma bswap16_involutive (x : Z) : 0 <= x < 65536 -> bswap16 (bswap16 x) = x.
Proof.
  intros Hx. rewrite !bswap16_eq.
  Z.div_mod_to_equations. lia.
Qed.

(** Lists of known length, element by element. *)
Lemma length_S_inv {A} (l : list A) (n : nat) :
  length l = S n -> exists x l', l = x :: l' /\ length l' = n.
Proof.
  destruct l as [| x l']; simpl; intros H; [discriminate |].
  exists x, l'. split; [reflexivity | congruence].
Qed.

Lemma length_ge_S_inv {A} (l : list A) (n : nat) :
  (S n <= length l)%nat -> exists x l', l = x :: l' /\ (n <= length l')%nat.
Proof.
  destruct l as [| x l']; simpl; intros H; [lia |].
  exists x, l'. split; [reflexivity | lia].
Qed.

Ltac explode_list H :=
  match type of H with
  | length ?l = S _ =>
      let x := fresh "b" in
      let l' := fresh "l" in
      let E := fresh "E" in
      let H' := fresh "H" in
      destruct (length_S_inv _ _ H) as (x & l' & E & H'); subst l; clear H;
      explode_list H'
  | length ?l = O =>
      apply length_zero_iff_nil in H; subst l
  | (S _ <= length ?l)%nat =>
      let x := fresh "d" in
      let l' := fresh "l" in
      let E := fresh "E" in
      let H' := fresh "H" in
      destruct (length_ge_S_inv _ _ H) as (x & l' & E & H'); subst l; clear H;
      explode_list H'
  | _ => idtac
  end.

(** The boolean comparison of buffers decides equality. *)
Lemma bytes_eqb_eq (a b : list byte) : bytes_eqb a b = true -> a = b.
Proof.
  unfold bytes_eqb. rewrite andb_true_iff. intros [Hlen Hall].
  apply Nat.eqb_eq in Hlen.
  revert b Hlen Hall. induction a as [| x a IH]; intros [| y b]; simpl;
    try discriminate; intros Hlen Hall.
  - reflexivity.
  - apply andb_true_iff in Hall as [Hxy Hall].
    apply Byte.byte_dec_bl in Hxy. subst y. f_equal. apply IH; [lia | exact Hall].
Qed.

(** Little-endian decoding and encoding are inverse within range. *)
Lemma le_decode_range (bs : list byte) :
  0 <= le_decode bs < 256 ^ Z.of_nat (length bs).
Proof.
  induction bs as [| b bs IH].
  - simpl. lia.
  - cbn [le_decode length]. rewrite Nat2Z.inj_succ, Z.pow_succ_r by lia.
    pose proof (Z_of_byte_range b). lia.
Qed.

Lemma le_encode_decode (bs : list byte) :
  le_encode (length bs) (le_decode bs) = bs.
Proof.
  induction bs as [| b bs IH]; [reflexivity |].
  cbn [le_decode length le_encode].
  pose proof (Z_of_byte_range b) as Hb.
  f_equal.
  - rewrite <- (byte_of_Z_of_byte b) at 2. unfold byte_of_Z.
    replace ((Z_of_byte b + 256 * le_decode bs) mod 256) with (Z_of_byte b mod 256);
      [reflexivity |].
    Z.div_mod_to_equations. lia.
  - replace ((Z_of_byte b + 256 * le_decode bs) / 256) with (le_decode bs);
      [exact IH |].
    Z.div_mod_to_equations. lia.
Qed.

Lemma le_decode_encode (n : nat) (v : Z) :
  le_decode (le_encode n v) = v mod 256 ^ Z.of_nat n.
Proof.
  revert v. induction n as [| n IH]; intros v.
  - simpl. now rewrite Z.mod_1_r.
  - cbn [le_encode le_decode]. rewrite IH, Z_of_byte_of_Z.
    rewrite Nat2Z.inj_succ, Z.pow_succ_r by lia.
    rewrite Z.rem_mul_r by lia. reflexivity.
Qed.

Arguments bswap16 : simpl never.
Arguments Z_of_byte : simpl never.
Arguments byte_of_Z : simpl never.
Arguments le_decode : simpl never.
Arguments le_encode : simpl never.

(** Two bytes read as a port and written back are the same bytes. *)
Lemma port_bytes_round_trip (bs : list byte) :
  length bs = 2%nat -> le_encode 2 (htons (ntohs (le_decode bs))) = bs.
Proof.
  intros H. unfold htons, ntohs.
  rewrite bswap16_involutive.
  - rewrite <- H. apply le_encode_decode.
  - pose proof (le_decode_range bs) as Hr. rewrite H in Hr. exact Hr.
Qed.


Lemma bswap16_ntohs_htons (p : Z) : 0 <= p < 65536 -> ntohs (htons p) = p.
Proof. apply bswap16_involutive. Qed.

Lemma cons2_le_encode (v : Z) (rest : list byte) :
  byte_of_Z v :: byte_of_Z (v / 256) :: rest = le_encode 2 v ++ rest.
Proof. reflexivity. Qed.

Lemma cons4_le_encode (v : Z) (rest : list byte) :
  byte_of_Z v :: byte_of_Z (v / 256) :: byte_of_Z (v / 256 / 256)
    :: byte_of_Z (v / 256 / 256 / 256) :: rest = le_encode 4 v ++ rest.
Proof. reflexivity. Qed.

Ltac memory_compute :=
  cbv [load16 load32 store16 store32 write_at read_bytes le_encode
       off_sin_addr sizeof_in_addr off_sa_family off_sin_port off_sin_zero
       sizeof_sin_zero off_sin6_port off_sin6_flowinfo off_sin6_addr
       off_sin6_scope_id sizeof_in6_addr zeros repeat map seq nth firstn
       skipn app length Nat.add Nat.sub].

Ltac memory_compute_in H :=
  cbv [load16 load32 store16 store32 write_at read_bytes le_encode
       off_sin_addr sizeof_in_addr off_sa_family off_sin_port off_sin_zero
       sizeof_sin_zero off_sin6_port off_sin6_flowinfo off_sin6_addr
       off_sin6_scope_id sizeof_in6_addr zeros repeat map seq nth firstn
       skipn app length Nat.add Nat.sub] in H.

(** Native buffer to address and back, one family at a time. *)
Lemma native_round_trip_inet (b dest : list byte) :
  load16 b off_sa_family = AF_INET ->
  length b = sizeof_sockaddr_in ->
  read_bytes off_sin_zero sizeof_sin_zero b = zeros sizeof_sin_zero ->
  (length b <= length dest)%nat ->
  socket_address_to_native
    (socket_address_new_from_native (Some b) (Z.of_nat (length b)))
    (Some dest) (Z.of_nat (length dest))
  = Some (b ++ skipn (length b) dest).
Proof.
  intros Hfam Hlen Hzero Hd.
  assert (Hdl : 16 <= Z.of_nat (length dest))
    by (rewrite Hlen in Hd; unfold sizeof_sockaddr_in in Hd; lia).
  remember (Z.of_nat (length dest)) as destlen eqn:Edl. clear Edl.
  unfold socket_address_new_from_native.
  rewrite Hfam, Hlen in *. unfold sizeof_sockaddr_in in *.
  explode_list Hlen. explode_list Hd.
  memory_compute_in Hzero.
  injection Hzero as -> -> -> -> -> -> -> ->.
  change (Z.of_nat 16 =? 0) with false. cbv iota.
  change (AF_INET =? AF_INET) with true. cbv iota.
  change (Z.of_nat 16 <? Z.of_nat 16) with false. cbv iota.
  unfold socket_address_to_native.
  cbn [family set_port set_family set_addr calloc_SocketAddress addr port].
  destruct (Z.eqb_spec destlen 0) as [-> | _]; [lia |].
  destruct (Z.ltb_spec destlen (Z.of_nat sizeof_sockaddr_in)) as [Hlt | _];
    [unfold sizeof_sockaddr_in in Hlt; lia |].
  memory_compute. memory_compute_in Hfam.
  rewrite !cons2_le_encode.
  rewrite <- Hfam.
  rewrite (le_encode_decode [_; _]).
  rewrite (port_bytes_round_trip [_; _]) by reflexivity.
  reflexivity.
Qed.

Lemma native_round_trip_inet6 (b dest : list byte) :
  load16 b off_sa_family = AF_INET6 ->
  length b = sizeof_sockaddr_in6 ->
  (length b <= length dest)%nat ->
  socket_address_to_native
    (socket_address_new_from_native (Some b) (Z.of_nat (length b)))
    (Some dest) (Z.of_nat (length dest))
  = Some (b ++ skipn (length b) dest).
Proof.
  intros Hfam Hlen Hd.
  assert (Hdl : 28 <= Z.of_nat (length dest))
    by (rewrite Hlen in Hd; unfold sizeof_sockaddr_in6 in Hd; lia).
  remember (Z.of_nat (length dest)) as destlen eqn:Edl. clear Edl.
  unfold socket_address_new_from_native.
  rewrite Hfam, Hlen in *. unfold sizeof_sockaddr_in6 in *.
  explode_list Hlen. explode_list Hd.
  change (Z.of_nat 28 =? 0) with false. cbv iota.
  change (AF_INET6 =? AF_INET) with false. cbv iota.
  change (AF_INET6 =? AF_INET6) with true. cbv iota.
  change (Z.of_nat 28 <? Z.of_nat 28) with false. cbv iota.
  unfold socket_address_to_native.
  cbn [family set_port set_family set_addr set_flowinfo set_scope_id
       calloc_SocketAddress addr port flowinfo scope_id].
  destruct (Z.eqb_spec destlen 0) as [-> | _]; [lia |].
  destruct (Z.ltb_spec destlen (Z.of_nat sizeof_sockaddr_in6)) as [Hlt | _];
    [unfold sizeof_sockaddr_in6 in Hlt; lia |].
  memory_compute. memory_compute_in Hfam.
  rewrite !cons4_le_encode, !cons2_le_encode.
  rewrite <- Hfam.
  rewrite (le_encode_decode [_; _]).
  rewrite (port_bytes_round_trip [_; _]) by reflexivity.
  rewrite !(le_encode_decode [_; _; _; _]).
  reflexivity.
Qed.

(** ** Address invariants and the round trip *)

(** Narrowed values lie within their type. *)
Lemma u16_range (p : Z) : 0 <= u16 p < 65536.
Proof. unfold u16. apply Z.mod_pos_bound. lia. Qed.

Lemma u32_range (v : Z) : 0 <= u32 v < 4294967296.
Proof. unfold u32. apply Z.mod_pos_bound. lia. Qed.

Lemma load32_range (mem : list byte) (off : nat) :
  0 <= load32 mem off < 4294967296.
Proof.
  unfold load32. pose proof (le_decode_range (read_bytes off 4 mem)) as H.
  unfold read_bytes in *. rewrite length_map, length_seq in H. exact H.
Qed.

(** Every constructor establishes the invariant, and the setters keep
    it. *)
Lemma from_native_invariant native len a :
  socket_address_new_from_native native len = Some a -> address_invariant a.
Proof.
  unfold socket_address_new_from_native.
  destruct native as [mem |]; [| discriminate].
  destruct (len =? 0); [discriminate |].
  destruct (load16 mem off_sa_family =? AF_INET).
  - destruct (len <? Z.of_nat sizeof_sockaddr_in); [discriminate |].
    intros [= <-]. unfold address_invariant.
    cbn [family addr port flowinfo scope_id set_port set_family set_addr
         calloc_SocketAddress].
    repeat split; try discriminate; try lia; try apply bswap16_range.
  - destruct (load16 mem off_sa_family =? AF_INET6); [| discriminate].
    destruct (len <? Z.of_nat sizeof_sockaddr_in6); [discriminate |].
    intros [= <-]. unfold address_invariant.
    cbn [family addr port flowinfo scope_id set_port set_family set_addr
         set_flowinfo set_scope_id calloc_SocketAddress].
    repeat split; try discriminate; try apply bswap16_range;
      try apply load32_range.
Qed.

(** The parsers yield four and sixteen bytes. *)
Lemma inet_pton4_length s a : inet_pton4 s = Some a -> length a = 4%nat.
Proof.
  unfold inet_pton4. destruct (inet_pton4_scan s [] None) as [octets |];
    [| discriminate].
  destruct (Nat.eqb_spec (length octets) 4); [| discriminate].
  intros [= <-]. now rewrite length_map.
Qed.

Lemma inet_pton6_length s a : inet_pton6 s = Some a -> length a = 16%nat.
Proof.
  unfold inet_pton6. destruct (cut_double_colon s) as [[l r] |].
  - destruct (side_bytes l false) as [lb |]; [| discriminate].
    destruct (side_bytes r true) as [rb |]; [| discriminate].
    destruct (Nat.leb_spec (length lb + length rb) 14); [| discriminate].
    intros E.
    assert (Ea : a = lb ++ zeros (16 - (length lb + length rb)) ++ rb)
      by congruence.
    rewrite Ea, !length_app. unfold zeros. rewrite repeat_length. lia.
  - destruct (groups_bytes (split_on ":" s) true) as [bs |]; [| discriminate].
    destruct (Nat.eqb_spec (length bs) 16); [| discriminate].
    now intros [= <-].
Qed.

Lemma new_invariant address p a :
  socket_address_new address p = Some a -> address_invariant a.
Proof.
  unfold socket_address_new. destruct address as [s |]; [| discriminate].
  destruct (contains_char ":" s).
  - destruct (getaddrinfo_numerichost s) as [res |]; [| discriminate].
    destruct (_ && _); [| discriminate]. apply from_native_invariant.
  - destruct (inet_pton4 s) as [a4 |] eqn:E4.
    + apply inet_pton4_length in E4. explode_list E4.
      intros [= <-]. unfold address_invariant.
      cbn [family addr port flowinfo scope_id set_port set_family set_addr
           calloc_SocketAddress].
      pose proof (u16_range p).
      repeat split; try discriminate; try lia.
    + destruct (inet_pton6 s) as [a6 |] eqn:E6; [| discriminate].
      apply inet_pton6_length in E6. explode_list E6.
      intros [= <-]. unfold address_invariant.
      cbn [family addr port flowinfo scope_id set_port set_family set_addr
           calloc_SocketAddress].
      pose proof (u16_range p).
      repeat split; try discriminate; try lia.
Qed.

Lemma any_invariant fam p a :
  socket_address_new_any fam p = Some a -> address_invariant a.
Proof.
  unfold socket_address_new_any.
  pose proof (u16_range p).
  destruct fam; [discriminate | |]; intros [= <-]; unfold address_invariant;
    cbn [family addr port flowinfo scope_id set_port set_family
         set_addr calloc_SocketAddress];
    repeat split; try discriminate; try lia.
Qed.

Lemma loopback_invariant fam p a :
  socket_address_new_loopback fam p = Some a -> address_invariant a.
Proof.
  unfold socket_address_new_loopback.
  pose proof (u16_range p).
  destruct fam; [discriminate | |]; intros [= <-]; unfold address_invariant;
    cbn [family addr port flowinfo scope_id set_port set_family
         set_addr calloc_SocketAddress];
    repeat split; try discriminate; try lia.
Qed.

Lemma set_flow_info_invariant {config : Config} a v a' :
  address_invariant a ->
  socket_address_set_flow_info (Some a) v = Some a' -> address_invariant a'.
Proof.
  unfold socket_address_set_flow_info. intros Hinv.
  destruct (negb PLIBSYS_SOCKADDR_IN6_HAS_FLOWINFO); [now intros [= <-] |].
  destruct (family a) eqn:Ef; cbn [SocketFamily_eqb SocketFamily_value negb];
    try (now intros [= <-]).
  change (negb (AF_INET6 =? AF_INET6)) with false. cbv iota.
  intros [= <-]. unfold address_invariant in *.
  cbn [family addr port flowinfo scope_id set_flowinfo].
  rewrite Ef in *. pose proof (u32_range v).
  destruct Hinv as (H1 & H2 & H3 & H4 & H5 & H6).
  repeat split; try discriminate; try lia.
Qed.

Lemma set_scope_id_invariant {config : Config} a v a' :
  address_invariant a ->
  socket_address_set_scope_id (Some a) v = Some a' -> address_invariant a'.
Proof.
  unfold socket_address_set_scope_id. intros Hinv.
  destruct (negb PLIBSYS_SOCKADDR_IN6_HAS_SCOPEID); [now intros [= <-] |].
  destruct (family a) eqn:Ef; cbn [SocketFamily_eqb SocketFamily_value negb];
    try (now intros [= <-]).
  change (negb (AF_INET6 =? AF_INET6)) with false. cbv iota.
  intros [= <-]. unfold address_invariant in *.
  cbn [family addr port flowinfo scope_id set_scope_id].
  rewrite Ef in *. pose proof (u32_range v).
  destruct Hinv as (H1 & H2 & H3 & H4 & H5 & H6).
  repeat split; try discriminate; try lia.
Qed.

Lemma constructed_invariant {config : Config} a :
  constructed a -> address_invariant a.
Proof.
  induction 1 as [native len a H | address p a H | fam p a H
                  | fam p a H | a v a' Hc IH Hs | a v a' Hc IH Hs].
  - eapply from_native_invariant; eassumption.
  - eapply new_invariant; eassumption.
  - eapply any_invariant; eassumption.
  - eapply loopback_invariant; eassumption.
  - eapply set_flow_info_invariant; eassumption.
  - eapply set_scope_id_invariant; eassumption.
Qed.

Lemma le_decode_encode_small (n : nat) (v : Z) :
  0 <= v < 256 ^ Z.of_nat n -> le_decode (le_encode n v) = v.
Proof. intros H. rewrite le_decode_encode. now apply Z.mod_small. Qed.



Lemma le_decode_encode2 (v : Z) :
  0 <= v < 65536 -> le_decode [byte_of_Z v; byte_of_Z (v / 256)] = v.
Proof. intros H. now apply (le_decode_encode_small 2). Qed.

Lemma le_decode_encode4 (v : Z) :
  0 <= v < 4294967296 ->
  le_decode [byte_of_Z v; byte_of_Z (v / 256); byte_of_Z (v / 256 / 256);
             byte_of_Z (v / 256 / 256 / 256)] = v.
Proof. intros H. now apply (le_decode_encode_small 4). Qed.

Ltac decide_length_tests :=
  repeat match goal with
  | |- context [Z.of_nat ?n =? 0] =>
      let E := fresh "E" in
      destruct (Z.eqb_spec (Z.of_nat n) 0) as [E | _];
      [exfalso; cbv [length app le_encode zeros repeat sizeof_sockaddr_in
                     sizeof_sockaddr_in6] in E; lia |]
  | |- context [Z.of_nat ?n <? Z.of_nat ?m] =>
      let E := fresh "E" in
      destruct (Z.ltb_spec (Z.of_nat n) (Z.of_nat m)) as [E | _];
      [exfalso; cbv [length app le_encode zeros repeat sizeof_sockaddr_in
                     sizeof_sockaddr_in6] in E; lia |]
  end.

(** Address to native buffer and back, from the invariant alone. *)
Lemma address_round_trip_invariant (a : SocketAddress) (dest : list byte) :
  address_invariant a ->
  socket_address_get_native_size (Some a) <= Z.of_nat (length dest) ->
  exists b,
    socket_address_to_native (Some a) (Some dest) (Z.of_nat (length dest)) = Some b
    /\ length b = length dest
    /\ socket_address_new_from_native (Some b) (Z.of_nat (length b)) = Some a.
Proof.
  intros (Hfam & Hlen & Hport & Hflow & Hscope & H4) Hsize.
  destruct a as [fam ad p fl sc].
  cbn [family addr port flowinfo scope_id socket_address_get_native_size] in *.
  unfold socket_address_to_native. cbn [family addr port flowinfo scope_id].
  destruct fam; [congruence | |].
  - destruct (H4 eq_refl) as (-> & -> & Htail). clear H4 Hfam.
    unfold sizeof_sockaddr_in in Hsize.
    assert (Hd : (16 <= length dest)%nat) by lia.
    explode_list Hlen. explode_list Hd.
    cbv [skipn zeros repeat] in Htail.
    injection Htail as -> -> -> -> -> -> -> -> -> -> -> ->.
    decide_length_tests.
    exists (le_encode 2 AF_INET ++ le_encode 2 (htons p)
            ++ [b; b0; b1; b2] ++ zeros 8 ++ l0).
    split; [memory_compute; reflexivity |].
    split; [reflexivity |].
    unfold socket_address_new_from_native.
    decide_length_tests.
    memory_compute.
    rewrite !le_decode_encode2
      by (first [apply bswap16_range | unfold AF_INET, AF_INET6; lia]).
    change (AF_INET =? AF_INET) with true. cbv iota.
    rewrite bswap16_ntohs_htons by exact Hport.
    reflexivity.
  - clear H4 Hfam.
    unfold sizeof_sockaddr_in6 in Hsize.
    assert (Hd : (28 <= length dest)%nat) by lia.
    explode_list Hlen. explode_list Hd.
    decide_length_tests.
    exists (le_encode 2 AF_INET6 ++ le_encode 2 (htons p) ++ le_encode 4 fl
            ++ [b; b0; b1; b2; b3; b4; b5; b6; b7; b8; b9; b10; b11; b12; b13; b14]
            ++ le_encode 4 sc ++ l0).
    split; [memory_compute; reflexivity |].
    split; [reflexivity |].
    unfold socket_address_new_from_native.
    decide_length_tests.
    memory_compute.
    rewrite !le_decode_encode2
      by (first [apply bswap16_range | unfold AF_INET, AF_INET6; lia]).
    rewrite !le_decode_encode4 by assumption.
    change (AF_INET6 =? AF_INET) with false. cbv iota.
    change (AF_INET6 =? AF_INET6) with true. cbv iota.
    rewrite bswap16_ntohs_htons by exact Hport.
    reflexivity.
Qed.

(** C1. Conversion between a socket address and its native form round
    trips.  For every well-formed native IPv4 or IPv6 buffer [b],
    converting [b] to an address and that address back into a
    destination at least as long as [b] writes [b] again (what lies
    beyond the structure in the destination is left alone, so a
    destination of the same length holds exactly [b]).  And for every
    constructed address [a], writing it to a destination that is large
    enough and reading the destination back yields [a], field for
    field. *)
Theorem native_round_trip :
  forall config : Config,
    (forall b dest : list byte,
        well_formed_native b = true ->
        (length b <= length dest)%nat ->
        socket_address_to_native
          (socket_address_new_from_native (Some b) (Z.of_nat (length b)))
          (Some dest) (Z.of_nat (length dest))
        = Some (b ++ skipn (length b) dest))
    /\ (forall (a : SocketAddress) (dest : list byte),
        constructed a ->
        socket_address_get_native_size (Some a) <= Z.of_nat (length dest) ->
        exists b,
          socket_address_to_native (Some a) (Some dest)
            (Z.of_nat (length dest)) = Some b
          /\ socket_address_new_from_native (Some b) (Z.of_nat (length b))
             = Some a).
Proof.
  intros config. split.
  - intros b dest Hwf Hd. unfold well_formed_native in Hwf.
    apply orb_true_iff in Hwf as [H4 | H6].
    + apply andb_true_iff in H4 as [H4 Hzero].
      apply andb_true_iff in H4 as [Hfam Hlen].
      apply native_round_trip_inet.
      * now apply Z.eqb_eq.
      * now apply Nat.eqb_eq.
      * now apply bytes_eqb_eq.
      * exact Hd.
    + apply andb_true_iff in H6 as [Hfam Hlen].
      apply native_round_trip_inet6.
      * now apply Z.eqb_eq.
      * now apply Nat.eqb_eq.
      * exact Hd.
  - intros a dest Hc Hsize.
    destruct (address_round_trip_invariant a dest
                (constructed_invariant a Hc) Hsize) as (b & Hto & _ & Hfrom).
    exists b. split; assumption.
Qed.

(** The [sockaddr_in] of 127.0.0.1:8080 survives the round trip through
    a destination of its own size, and the address parsed from
    ["127.0.0.1"] survives the round trip through a
    [sockaddr_storage]. *)
Lemma native_round_trip_witness :
  socket_address_to_native
    (socket_address_new_from_native (Some sample_sockaddr_in) 16)
    (Some (zeros 16)) 16 = Some sample_sockaddr_in
  /\ exists b,
       socket_address_to_native (Some sample_address4)
         (Some sockaddr_storage) 128 = Some b
       /\ socket_address_new_from_native (Some b) (Z.of_nat (length b))
          = Some sample_address4.
Proof.
  split.
  - apply (proj1 (native_round_trip config_with_fields)
             sample_sockaddr_in (zeros 16)).
    + reflexivity.
    + simpl. lia.
  - apply (proj2 (native_round_trip config_with_fields)
             sample_address4 sockaddr_storage).
    + apply (@constructed_new config_with_fields
               (Some "127.0.0.1"%string) 8080).
      vm_compute. reflexivity.
    + simpl. lia.
Defined.

(** Why well-formedness asks for zero padding: [sin_zero] is not kept in
    a [SocketAddress], and [socket_address_to_native] clears it. *)
Lemma padding_is_cleared :
  socket_address_to_native
    (socket_address_new_from_native (Some padded_sockaddr_in) 16)
    (Some padded_sockaddr_in) 16 = Some sample_sockaddr_in
  /\ padded_sockaddr_in <> sample_sockaddr_in.
Proof. split; [vm_compute; reflexivity | discriminate]. Qed.

(** ** Handles *)

(** ** The closed-handle guard *)

(** Distinct kinds have distinct numbers. *)
Lemma ErrorIO_value_inj (a b : ErrorIO) :
  ErrorIO_value a = ErrorIO_value b -> a = b.
Proof. destruct a, b; simpl; intros H; first [reflexivity | discriminate H]. Qed.

(** C3, as stated, fails when an argument other than the handle is
    rejected first: [socket_bind] on a closed handle with a null address
    returns [false] without any call, but the kind it records is
    invalid-argument, not not-available. *)
Lemma closed_guard_counterexample :
  exists w',
    socket_bind (errno_h := linux_errno)
      (Some sample_closed_socket) None true (scripted []) = Some (false, w')
    /\ code (CURRENT_ERROR w') = ErrorIO_value ERROR_IO_INVALID_ARGUMENT
    /\ code (CURRENT_ERROR w') <> ErrorIO_value ERROR_IO_NOT_AVAILABLE.
Proof.
  eexists. split; [reflexivity |]. split; [reflexivity | discriminate].
Qed.

(** C3, amended. On a handle whose [closed] flag is set, each of bind,
    connect, listen, accept, receive, receive_from, send, send_to,
    shutdown, set_buffer_size and io_condition_wait returns its failure
    sentinel and makes no call at all (the trace is unchanged); the kind
    recorded is not-available when the other arguments pass the null
    and zero-length checks that precede the guard, and invalid-argument
    when they do not. *)
Theorem closed_guard_amended :
  forall (errno_h : ErrnoTable) (build : Build) (s : Socket) (op : Operation)
         (fuel : nat) (w : World),
    closed s = true ->
    exists w',
      returns_failure op (Some s) fuel w = Some (true, w')
      /\ trace w' = trace w
      /\ code (CURRENT_ERROR w')
         = ErrorIO_value (if args_valid op then ERROR_IO_NOT_AVAILABLE
                          else ERROR_IO_INVALID_ARGUMENT).
Proof.
  intros errno_h build s op fuel w Hclosed.
  destruct op as [address allow_reuse | address | | | buffer buflen
                 | address buffer buflen | buffer buflen
                 | address buffer buflen | rd wr | dir size | condition];
    unfold returns_failure, socket_bind, socket_connect, socket_listen,
           socket_accept, socket_receive, socket_receive_from, socket_send,
           socket_send_to, socket_shutdown, socket_set_buffer_size,
           socket_io_condition_wait, _XX__socket_check, args_valid;
    rewrite ?Hclosed;
    repeat match goal with
           | x : option _ |- _ => destruct x
           end;
    try (destruct (buflen =? 0));
    eexists; (split; [reflexivity | split; reflexivity]).
Qed.

(** [socket_receive] on the closed sample handle, with a valid buffer. *)
Lemma closed_guard_amended_witness :
  exists w',
    returns_failure (errno_h := linux_errno) (build := linux_poll)
      (OpReceive (Some (zeros 4)) 4) (Some sample_closed_socket) 1
      (scripted []) = Some (true, w')
    /\ trace w' = []
    /\ code (CURRENT_ERROR w') = ErrorIO_value ERROR_IO_NOT_AVAILABLE.
Proof.
  apply (closed_guard_amended linux_errno linux_poll sample_closed_socket
           (OpReceive (Some (zeros 4)) 4) 1 (scripted [])).
  reflexivity.
Defined.

(** ** Calls and the replies of the environment *)

(** The world a call leaves behind when the reply is [r]. *)
Lemma call_next (c : Call) (w : World) (r : Reply) (rs : list Reply) :
  next_replies w (r :: rs) ->
  exists w1,
    call c w = Some (r, w1)
    /\ trace w1 = c :: trace w
    /\ os w1 = os w
    /\ errno w1 = match r_errno r with Some e => e | None => errno w end
    /\ CURRENT_ERROR w1 = CURRENT_ERROR w
    /\ next_replies w1 rs.
Proof.
  intros Hnext. unfold call.
  assert (Hr : os w (length (trace w)) = r).
  { rewrite <- (Nat.add_0_r (length (trace w))). now apply Hnext. }
  rewrite Hr. eexists. split; [reflexivity |].
  cbn [trace os errno CURRENT_ERROR]. repeat split.
  intros i r' Hi. cbn [trace os length].
  replace (S (length (trace w)) + i)%nat with (length (trace w) + S i)%nat by lia.
  now apply Hnext.
Qed.

Lemma repeat_snoc {A} (x : A) (n : nat) (l : list A) :
  repeat x n ++ x :: l = repeat x (S n) ++ l.
Proof. induction n as [| n IH]; simpl; [reflexivity | now rewrite IH]. Qed.

Section LoopFacts.
Context {errno_h : ErrnoTable} {build : Build}.

(** Interrupted attempts of a retry loop are repeated: each costs one
    unit of fuel and one call, and changes nothing else but [errno]. *)
Lemma connect_retry_interrupted (fd : Z) (buffer : list byte) (len : Z)
      (ints rest : list Reply) (n : nat) :
  Forall interrupted ints ->
  forall w, next_replies w (ints ++ rest) ->
  exists w1,
    connect_retry (length ints + n) fd buffer len w
      = connect_retry n fd buffer len w1
    /\ trace w1 = repeat (Connect fd buffer len) (length ints) ++ trace w
    /\ CURRENT_ERROR w1 = CURRENT_ERROR w
    /\ next_replies w1 rest.
Proof.
  induction 1 as [| r ints [Hret Herr] _ IH]; intros w Hnext.
  - exists w. repeat split; assumption.
  - destruct (call_next (Connect fd buffer len) w r (ints ++ rest) Hnext)
      as (w1 & Hcall & Ht & _ & He & Hc & Hn).
    destruct (IH w1 Hn) as (w2 & Hrun & Ht2 & Hc2 & Hn2).
    exists w2. repeat split; try assumption.
    + cbn [length Nat.add connect_retry]. unfold bind at 1. rewrite Hcall.
      rewrite Hret. change (-1 =? 0) with false. cbv iota.
      unfold bind at 1, error_get_last_net, error_get_last_system.
      rewrite He, Herr, Z.eqb_refl. exact Hrun.
    + rewrite Ht2, Ht. cbn [length]. apply repeat_snoc.
    + congruence.
Qed.

End LoopFacts.

(** ** Non-blocking connect *)

Section ConnectFacts.
Context {errno_h : ErrnoTable} {build : Build}.

(** An address of known family always fits a [sockaddr_storage]. *)
Lemma to_native_storage (a : SocketAddress) :
  family a <> SOCKET_FAMILY_UNKNOWN ->
  exists buffer,
    socket_address_to_native (Some a) (Some sockaddr_storage)
      (Z.of_nat sizeof_sockaddr_storage) = Some buffer.
Proof.
  intros Hfam. unfold socket_address_to_native.
  change (Z.of_nat sizeof_sockaddr_storage =? 0) with false. cbv iota.
  destruct (family a); [congruence | |]; eexists; reflexivity.
Qed.

(** C5, amended. On an open handle with [blocking == false], when
    [connect] (retried while it is interrupted) fails with an error
    number classified as would-block or as in-progress,
    [socket_connect] returns [false], leaves the handle as it was, makes
    no call other than [connect] (so no readiness wait), and records
    the kind the error number is classified as, would-block or
    in-progress, together with the error number itself. *)
Theorem nonblocking_connect_amended :
  forall (s : Socket) (a : SocketAddress) (w : World)
         (ints : list Reply) (r : Reply) (e : Z) (fuel : nat),
    closed s = false ->
    blocking s = false ->
    family a <> SOCKET_FAMILY_UNKNOWN ->
    Forall interrupted ints ->
    next_replies w (ints ++ [r]) ->
    r_ret r <> 0 ->
    r_errno r = Some e ->
    e <> EINTR ->
    error_get_io_from_system e = ERROR_IO_WOULD_BLOCK
    \/ error_get_io_from_system e = ERROR_IO_IN_PROGRESS ->
    (length ints < fuel)%nat ->
    exists w',
      socket_connect (Some s) (Some a) fuel w = Some ((false, Some s), w')
      /\ code (CURRENT_ERROR w')
         = ErrorIO_value (error_get_io_from_system e)
      /\ native_code (CURRENT_ERROR w') = e
      /\ exists buffer len,
           trace w' = repeat (Connect (fd s) buffer len) (S (length ints))
                      ++ trace w.
Proof.
  intros s a w ints r e fuel Hopen Hnb Hfam Hints Hnext Hret Herr Hne Hkind Hfuel.
  unfold socket_connect, _XX__socket_check. rewrite Hopen.
  unfold bind at 1. cbn [ret negb].
  destruct (to_native_storage a Hfam) as (buffer & ->).
  set (len := u32 (socket_address_get_native_size (Some a))).
  set (buf := firstn (Z.to_nat len) buffer).
  replace fuel with (length ints + S (fuel - length ints - 1))%nat by lia.
  destruct (connect_retry_interrupted (fd s) buf len ints [r]
              (S (fuel - length ints - 1)) Hints w Hnext)
    as (w1 & Hrun & Ht1 & Hc1 & Hn1).
  unfold bind at 1. rewrite Hrun.
  destruct (call_next (Connect (fd s) buf len) w1 r [] Hn1)
    as (w2 & Hcall & Ht2 & _ & He2 & Hc2 & _).
  cbn [connect_retry]. unfold bind at 1. rewrite Hcall.
  destruct (Z.eqb_spec (r_ret r) 0) as [E | _]; [contradiction |].
  unfold bind at 1, error_get_last_net, error_get_last_system.
  rewrite He2, Herr.
  destruct (Z.eqb_spec e EINTR) as [E | _]; [contradiction |].
  cbn [ret]. rewrite (proj2 (Z.eqb_neq (r_ret r) 0) Hret).
  assert (Hk : ErrorIO_eqb (error_get_io_from_system e) ERROR_IO_WOULD_BLOCK
               || ErrorIO_eqb (error_get_io_from_system e) ERROR_IO_IN_PROGRESS
               = true).
  { destruct Hkind as [-> | ->]; reflexivity. }
  rewrite Hk, Hnb.
  eexists. split; [reflexivity |].
  cbn [code native_code CURRENT_ERROR trace]. repeat split.
  exists buf, len. rewrite Ht2, Ht1. reflexivity.
Qed.

End ConnectFacts.

(** C5, as stated, fails when the platform answers [EINPROGRESS], the
    usual answer to a non-blocking [connect]: the kind recorded is
    in-progress, not would-block. *)
Lemma nonblocking_connect_counterexample :
  exists w',
    socket_connect (errno_h := linux_errno) (build := linux_poll)
      (Some sample_socket) (Some sample_address4) 1 in_progress_world
    = Some ((false, Some sample_socket), w')
    /\ trace w' = [Connect 3 sample_sockaddr_in 16]
    /\ code (CURRENT_ERROR w') = ErrorIO_value ERROR_IO_IN_PROGRESS
    /\ code (CURRENT_ERROR w') <> ErrorIO_value ERROR_IO_WOULD_BLOCK.
Proof.
  eexists. split; [vm_compute; reflexivity |].
  split; [reflexivity |]. split; [reflexivity | discriminate].
Qed.

(** The amended statement at the sample handle and [EINPROGRESS]. *)
Lemma nonblocking_connect_amended_witness :
  exists w',
    socket_connect (errno_h := linux_errno) (build := linux_poll)
      (Some sample_socket) (Some sample_address4) 1 in_progress_world
    = Some ((false, Some sample_socket), w')
    /\ code (CURRENT_ERROR w') = ErrorIO_value ERROR_IO_IN_PROGRESS.
Proof.
  destruct (@nonblocking_connect_amended linux_errno linux_poll
              sample_socket sample_address4 in_progress_world []
              (reply (-1) (Some 115)) 115 1)
    as (w' & Hrun & Hcode & _).
  - reflexivity.
  - reflexivity.
  - discriminate.
  - constructor.
  - intros [| [| i]] r' Hi; simpl in Hi; try discriminate.
    injection Hi as <-. reflexivity.
  - simpl. lia.
  - reflexivity.
  - vm_compute. discriminate.
  - right. vm_compute. reflexivity.
  - simpl. lia.
  - exists w'. split; [exact Hrun | exact Hcode].
Defined.

(** ** Readiness wait *)

Section WaitFacts.
Context {errno_h : ErrnoTable} {build : Build}.

Lemma poll_wait_interrupted (fd : Z) (ev : SocketIOCondition) (t : Z)
      (ints rest : list Reply) (n : nat) :
  Forall interrupted ints ->
  forall w, next_replies w (ints ++ rest) ->
  exists w1,
    poll_wait (length ints + n) fd ev t w = poll_wait n fd ev t w1
    /\ trace w1 = repeat (Poll fd ev t) (length ints) ++ trace w
    /\ CURRENT_ERROR w1 = CURRENT_ERROR w
    /\ next_replies w1 rest.
Proof.
  induction 1 as [| r ints [Hret Herr] _ IH]; intros w Hnext.
  - exists w. repeat split; assumption.
  - destruct (call_next (Poll fd ev t) w r (ints ++ rest) Hnext)
      as (w1 & Hcall & Ht & _ & He & Hc & Hn).
    destruct (IH w1 Hn) as (w2 & Hrun & Ht2 & Hc2 & Hn2).
    exists w2. repeat split; try assumption.
    + cbn [length Nat.add poll_wait]. unfold bind at 1. rewrite Hcall.
      unfold bind at 1, error_get_last_net, error_get_last_system.
      rewrite Hret, He, Herr, !Z.eqb_refl. exact Hrun.
    + rewrite Ht2, Ht. cbn [length]. apply repeat_snoc.
    + congruence.
Qed.

(** One round of [select_wait], with its call named. *)
Lemma select_wait_unfold (n : nat) (s : Socket) (cond : SocketIOCondition)
      (use_tv : bool) (w : World) :
  select_wait (S n) s cond use_tv w =
  bind (call (select_call s cond use_tv))
    (fun r =>
       bind error_get_last_net (fun e =>
         if (r_ret r =? -1) && (e =? EINTR)
         then select_wait n s cond use_tv
         else if r_ret r =? 1 then ret true
         else if r_ret r =? 0 then
           bind error_get_last_net (fun k =>
             bind (error_set_error (ErrorIO_value ERROR_IO_TIMED_OUT) k
                     "Timed out while waiting socket condition")
                  (fun _ => ret false))
         else bind (error_set_from_last_net "Failed to call select() on socket")
                   (fun _ => ret false))) w.
Proof. destruct cond; reflexivity. Qed.

Lemma select_wait_interrupted (s : Socket) (cond : SocketIOCondition)
      (use_tv : bool) (ints rest : list Reply) (n : nat) :
  Forall interrupted ints ->
  forall w, next_replies w (ints ++ rest) ->
  exists w1,
    select_wait (length ints + n) s cond use_tv w
      = select_wait n s cond use_tv w1
    /\ trace w1 = repeat (select_call s cond use_tv) (length ints) ++ trace w
    /\ CURRENT_ERROR w1 = CURRENT_ERROR w
    /\ next_replies w1 rest.
Proof.
  induction 1 as [| r ints [Hret Herr] _ IH]; intros w Hnext.
  - exists w. repeat split; assumption.
  - destruct (call_next (select_call s cond use_tv) w r (ints ++ rest) Hnext)
      as (w1 & Hcall & Ht & _ & He & Hc & Hn).
    destruct (IH w1 Hn) as (w2 & Hrun & Ht2 & Hc2 & Hn2).
    exists w2. repeat split; try assumption.
    + cbn [length Nat.add]. rewrite select_wait_unfold.
      unfold bind at 1. rewrite Hcall.
      unfold bind at 1, error_get_last_net, error_get_last_system.
      rewrite Hret, He, Herr, !Z.eqb_refl. exact Hrun.
    + rewrite Ht2, Ht. cbn [length]. apply repeat_snoc.
    + congruence.
Qed.

(** A round whose reply is not an interruption ends the loop. *)
Lemma poll_wait_settled (fd : Z) (ev : SocketIOCondition) (t : Z)
      (r : Reply) (n : nat) (w w1 : World) :
  call (Poll fd ev t) w = Some (r, w1) ->
  ~ (r_ret r = -1 /\ errno w1 = EINTR) ->
  exists b w', poll_wait (S n) fd ev t w = Some (b, w')
               /\ wait_outcome r w1 b w'.
Proof.
  intros Hcall Hsettled.
  cbn [poll_wait]. unfold bind at 1. rewrite Hcall.
  unfold bind at 1, error_get_last_net, error_get_last_system.
  destruct ((r_ret r =? -1) && (errno w1 =? EINTR)) eqn:E.
  { apply andb_true_iff in E as [E1 E2]. exfalso. apply Hsettled. lia. }
  destruct (Z.eqb_spec (r_ret r) 1) as [H1 | H1].
  { exists true, w1. split; [reflexivity | now constructor]. }
  destruct (Z.eqb_spec (r_ret r) 0) as [H0 | H0].
  - eexists false, _. split; [reflexivity |].
    apply wait_timed_out; [assumption | reflexivity | reflexivity].
  - eexists false, _. split; [reflexivity |].
    eapply wait_failed; [assumption | assumption | reflexivity | reflexivity].
Qed.

Lemma select_wait_settled (s : Socket) (cond : SocketIOCondition)
      (use_tv : bool) (r : Reply) (n : nat) (w w1 : World) :
  call (select_call s cond use_tv) w = Some (r, w1) ->
  ~ (r_ret r = -1 /\ errno w1 = EINTR) ->
  exists b w', select_wait (S n) s cond use_tv w = Some (b, w')
               /\ wait_outcome r w1 b w'.
Proof.
  intros Hcall Hsettled.
  rewrite select_wait_unfold. unfold bind at 1. rewrite Hcall.
  unfold bind at 1, error_get_last_net, error_get_last_system.
  destruct ((r_ret r =? -1) && (errno w1 =? EINTR)) eqn:E.
  { apply andb_true_iff in E as [E1 E2]. exfalso. apply Hsettled. lia. }
  destruct (Z.eqb_spec (r_ret r) 1) as [H1 | H1].
  { exists true, w1. split; [reflexivity | now constructor]. }
  destruct (Z.eqb_spec (r_ret r) 0) as [H0 | H0].
  - eexists false, _. split; [reflexivity |].
    apply wait_timed_out; [assumption | reflexivity | reflexivity].
  - eexists false, _. split; [reflexivity |].
    eapply wait_failed; [assumption | assumption | reflexivity | reflexivity].
Qed.


(** The wait of an open handle, whichever backend is compiled in: the
    interrupted rounds are retried and the first settled answer decides
    the outcome.  [use_tv] tells whether the timeout is positive. *)
Lemma io_condition_wait_run (s : Socket) (cond : SocketIOCondition)
      (w : World) (ints : list Reply) (r : Reply) (fuel : nat) :
  closed s = false ->
  Forall interrupted ints ->
  next_replies w (ints ++ [r]) ->
  (length ints < fuel)%nat ->
  (r_ret r = -1 -> exists e, r_errno r = Some e /\ e <> EINTR) ->
  exists b w' w1,
    socket_io_condition_wait (Some s) cond fuel w = Some (b, w')
    /\ trace w' =
       repeat (if 0 <? timeout s then bounded_wait_call s cond (timeout s)
               else unbounded_wait_call s cond) (S (length ints)) ++ trace w
    /\ errno w1 = match r_errno r with Some e => e | None => errno w1 end
    /\ wait_outcome r w1 b w'.
Proof.
  intros Hopen Hints Hnext Hfuel Hsettled.
  unfold socket_io_condition_wait, _XX__socket_check. rewrite Hopen.
  unfold bind at 1. cbn [ret negb].
  replace fuel with (length ints + S (fuel - length ints - 1))%nat by lia.
  unfold bounded_wait_call, unbounded_wait_call.
  destruct wait_backend.
  - set (t := if 0 <? timeout s then timeout s else -1).
    destruct (poll_wait_interrupted (fd s) cond t ints [r]
                (S (fuel - length ints - 1)) Hints w Hnext)
      as (w0 & Hrun & Ht0 & _ & Hn0).
    destruct (call_next (Poll (fd s) cond t) w0 r [] Hn0)
      as (w1 & Hcall & Ht1 & _ & He1 & _ & _).
    destruct (poll_wait_settled (fd s) cond t r (fuel - length ints - 1)
                w0 w1 Hcall) as (b & w' & Hres & Hout).
    { intros [Hm He]. destruct (Hsettled Hm) as (e & Hr & Hne).
      rewrite Hr in He1. congruence. }
    exists b, w', w1. rewrite Hrun, Hres.
    split; [reflexivity |]. split; [| split; [| exact Hout]].
    + assert (Htr : trace w' = trace w1) by (destruct Hout; congruence).
      rewrite Htr, Ht1, Ht0. subst t.
      destruct (0 <? timeout s); reflexivity.
    + rewrite He1. destruct (r_errno r); [reflexivity | ].
      destruct (r_errno r); reflexivity.
  - destruct (select_wait_interrupted s cond (0 <? timeout s) ints [r]
                (S (fuel - length ints - 1)) Hints w Hnext)
      as (w0 & Hrun & Ht0 & _ & Hn0).
    destruct (call_next (select_call s cond (0 <? timeout s)) w0 r [] Hn0)
      as (w1 & Hcall & Ht1 & _ & He1 & _ & _).
    destruct (select_wait_settled s cond (0 <? timeout s) r
                (fuel - length ints - 1) w0 w1 Hcall)
      as (b & w' & Hres & Hout).
    { intros [Hm He]. destruct (Hsettled Hm) as (e & Hr & Hne).
      rewrite Hr in He1. congruence. }
    exists b, w', w1. rewrite Hrun, Hres.
    split; [reflexivity |]. split; [| split; [| exact Hout]].
    + assert (Htr : trace w' = trace w1) by (destruct Hout; congruence).
      rewrite Htr, Ht1, Ht0. unfold select_call.
      destruct (0 <? timeout s), cond; reflexivity.
    + rewrite He1. destruct (r_errno r); reflexivity.
Qed.

(** C6. Timeout semantics of the readiness wait, for both POSIX
    backends.  On an open handle, after any number of interrupted
    rounds (given fuel for them): with timeout 0 every call of the
    primitive asks for an unbounded wait ([poll] with -1, [select] with
    a null timeout), and, the primitive honouring that, the wait
    returns [true] exactly when the primitive reports readiness and
    never fails with the timed-out kind; with a positive timeout every
    call carries that timeout, and when the primitive reports that it
    elapsed the wait returns [false] with [ERROR_IO_TIMED_OUT]
    recorded. *)
Theorem readiness_wait_timeout :
  forall (s : Socket) (condition : SocketIOCondition) (w : World)
         (ints : list Reply) (r : Reply) (fuel : nat),
    closed s = false ->
    Forall interrupted ints ->
    next_replies w (ints ++ [r]) ->
    (length ints < fuel)%nat ->
    (timeout s = 0 ->
     honours_unbounded_wait r ->
     exists b w',
       socket_io_condition_wait (Some s) condition fuel w = Some (b, w')
       /\ trace w' = repeat (unbounded_wait_call s condition)
                            (S (length ints)) ++ trace w
       /\ b = (r_ret r =? 1)
       /\ ~ (b = false
             /\ code (CURRENT_ERROR w') = ErrorIO_value ERROR_IO_TIMED_OUT))
    /\ (0 < timeout s ->
        r_ret r = 0 ->
        exists w',
          socket_io_condition_wait (Some s) condition fuel w = Some (false, w')
          /\ trace w' = repeat (bounded_wait_call s condition (timeout s))
                               (S (length ints)) ++ trace w
          /\ code (CURRENT_ERROR w') = ErrorIO_value ERROR_IO_TIMED_OUT).
Proof.
  intros s condition w ints r fuel Hopen Hints Hnext Hfuel. split.
  - intros Ht Hhon.
    destruct (io_condition_wait_run s condition w ints r fuel
                Hopen Hints Hnext Hfuel) as (b & w' & w1 & Hrun & Htr & He & Hout).
    { intros Hm. destruct Hhon as [H1 | (_ & e & Hr & Hne & _)]; [lia |].
      now exists e. }
    rewrite Ht in Htr. change (0 <? 0) with false in Htr. cbv iota in Htr.
    exists b, w'. split; [exact Hrun |]. split; [exact Htr |].
    destruct Hout as [w' H1 -> | w' H0 _ _ | w' msg H1 H0 _ Hce].
    + split; [now rewrite H1 | intros [Hb _]; discriminate].
    + destruct Hhon as [H | (H & _)]; lia.
    + split; [symmetry; now apply Z.eqb_neq |].
      intros [_ Hcode]. rewrite Hce in Hcode. cbn [code] in Hcode.
      apply ErrorIO_value_inj in Hcode.
      destruct Hhon as [H | (_ & e & Hr & _ & Hk)]; [contradiction |].
      rewrite Hr in He. rewrite He in Hcode. contradiction.
  - intros Ht H0.
    destruct (io_condition_wait_run s condition w ints r fuel
                Hopen Hints Hnext Hfuel) as (b & w' & w1 & Hrun & Htr & He & Hout).
    { intros Hm. lia. }
    rewrite (proj2 (Z.ltb_lt 0 (timeout s)) Ht) in Htr.
    destruct Hout as [w' H1 _ | w' _ _ Hce | w' msg _ Hn0 _ _]; try lia.
    exists w'. split; [exact Hrun |]. split; [exact Htr |].
    rewrite Hce. reflexivity.
Qed.

End WaitFacts.

(** A scripted environment answers with its script. *)
Lemma scripted_next_replies (rs : list Reply) : next_replies (scripted rs) rs.
Proof.
  intros i r Hi. unfold scripted. cbn [os trace length Nat.add].
  now apply nth_error_nth.
Qed.

(** With [poll] and timeout 0, a wait interrupted once and then ready
    returns [true] after two unbounded calls; with [select] and a
    timeout of 1500 ms, an elapsed wait fails with the timed-out
    kind. *)
Lemma readiness_wait_timeout_witness :
  (exists w',
      socket_io_condition_wait (errno_h := linux_errno) (build := linux_poll)
        (Some sample_blocking_socket) SOCKET_IO_CONDITION_POLLIN 2
        (scripted interrupted_then_ready) = Some (true, w')
      /\ trace w' = [Poll 3 SOCKET_IO_CONDITION_POLLIN (-1);
                     Poll 3 SOCKET_IO_CONDITION_POLLIN (-1)])
  /\ (exists w',
      socket_io_condition_wait (errno_h := linux_errno) (build := with_select)
        (Some (with_timeout 1500 sample_blocking_socket))
        SOCKET_IO_CONDITION_POLLOUT 1 (scripted elapsed) = Some (false, w')
      /\ trace w' = [Select 4 None (Some 3) (Some (1, 500000))]
      /\ code (CURRENT_ERROR w') = ErrorIO_value ERROR_IO_TIMED_OUT).
Proof.
  split.
  - assert (Hints : Forall (@interrupted linux_errno) [reply (-1) (Some 4)])
      by (repeat constructor).
    assert (Hhon : @honours_unbounded_wait linux_errno (reply 1 None))
      by (left; reflexivity).
    destruct (proj1 (@readiness_wait_timeout linux_errno linux_poll
                sample_blocking_socket SOCKET_IO_CONDITION_POLLIN
                (scripted interrupted_then_ready)
                [reply (-1) (Some 4)] (reply 1 None) 2
                eq_refl Hints
                (scripted_next_replies interrupted_then_ready)
                (le_n 2))
              eq_refl Hhon)
      as (b & w' & Hrun & Htrace & Hb & _).
    exists w'. rewrite Hb in Hrun. split; [exact Hrun | exact Htrace].
  - destruct (proj2 (@readiness_wait_timeout linux_errno with_select
                (with_timeout 1500 sample_blocking_socket)
                SOCKET_IO_CONDITION_POLLOUT (scripted elapsed)
                [] (reply 0 None) 1
                eq_refl (Forall_nil _) (scripted_next_replies elapsed)
                (le_n 1))
              eq_refl eq_refl)
      as (w' & Hrun & Htrace & Hcode).
    exists w'. split; [exact Hrun |]. split; [exact Htrace | exact Hcode].
Defined.

(** ** Close, and the validation of transfer arguments *)

Section CloseFacts.
Context {errno_h : ErrnoTable}.

(** Closing a closed handle again and again changes nothing. *)
Lemma close_repeatedly_closed (s : Socket) (w : World) (n : nat) :
  closed s = true ->
  close_repeatedly n (Some s) w = Some ((repeat true n, Some s), w).
Proof.
  intros Hclosed. induction n as [| n IH]; [reflexivity |].
  cbn [close_repeatedly]. unfold bind at 1.
  unfold socket_close at 1. rewrite Hclosed. cbn [ret].
  unfold bind at 1. rewrite IH. reflexivity.
Qed.

(** C7. [socket_close] is idempotent.  On a handle that is already
    closed it returns [true] and changes nothing, the trace included.
    After a first successful close of an open handle, the handle is
    closed, neither connected nor listening, its descriptor is -1, one
    [close] call has been made on the old descriptor, and closing again
    any number of times returns [true] every time without a further
    call: the descriptor is released once. *)
Theorem close_idempotent :
  forall (s : Socket) (w : World),
    (closed s = true -> socket_close (Some s) w = Some ((true, Some s), w))
    /\ (closed s = false ->
        forall (s1 : Socket) (w1 : World),
          socket_close (Some s) w = Some ((true, Some s1), w1) ->
          closed s1 = true /\ connected s1 = false /\ listening s1 = false
          /\ fd s1 = -1
          /\ trace w1 = Close (fd s) :: trace w
          /\ releases (trace w1) = S (releases (trace w))
          /\ forall n : nat,
               close_repeatedly n (Some s1) w1
               = Some ((repeat true n, Some s1), w1)).
Proof.
  intros s w. split.
  - intros Hclosed. unfold socket_close. now rewrite Hclosed.
  - intros Hopen s1 w1. unfold socket_close, sys_close. rewrite Hopen.
    unfold bind, call, ret, error_get_last_net, error_get_last_system,
           error_set_error.
    destruct (r_ret (os w (length (trace w))) =? 0); [| discriminate].
    intros [= <- <-]. cbn [closed connected listening fd with_fd with_listening
                           with_closed with_connected trace].
    repeat split.
    intros n. now apply close_repeatedly_closed.
Qed.

End CloseFacts.

(** Closing the sample handle, then closing it again [n] times. *)
Lemma close_idempotent_witness :
  socket_close (errno_h := linux_errno) (Some sample_closed_socket) (scripted [])
  = Some ((true, Some sample_closed_socket), scripted [])
  /\ socket_close (errno_h := linux_errno) (Some sample_socket) (scripted [])
     = Some ((true, Some sample_closed_socket), world_after_close)
  /\ releases (trace world_after_close) = 1%nat
  /\ forall n : nat,
       close_repeatedly (errno_h := linux_errno) n
         (Some sample_closed_socket) world_after_close
       = Some ((repeat true n, Some sample_closed_socket), world_after_close).
Proof.
  split.
  - apply (proj1 (@close_idempotent linux_errno sample_closed_socket (scripted []))).
    reflexivity.
  - assert (Hfirst :
      socket_close (errno_h := linux_errno) (Some sample_socket) (scripted [])
      = Some ((true, Some sample_closed_socket), world_after_close))
      by reflexivity.
    split; [exact Hfirst |].
    destruct (proj2 (@close_idempotent linux_errno sample_socket (scripted []))
                eq_refl sample_closed_socket world_after_close Hfirst)
      as (_ & _ & _ & _ & _ & Hrel & Hrep).
    split; [exact Hrel | exact Hrep].
Defined.

Section TransferFacts.
Context {errno_h : ErrnoTable} {build : Build}.

(** What the argument validation of the four transfer functions does
    reject, before any call: a null buffer in all four, and a zero
    length in [socket_receive_from] and [socket_send]. *)
Lemma transfer_argument_checks (s : Socket) (a : option SocketAddress)
      (loc : option (option SocketAddress)) (buf : list byte) (buflen : Z)
      (fuel : nat) (w : World) :
  let rejected := fun (result : Z) (w' : World) =>
    result = -1 /\ trace w' = trace w
    /\ code (CURRENT_ERROR w') = ErrorIO_value ERROR_IO_INVALID_ARGUMENT in
  (exists w', socket_receive (Some s) None buflen fuel w = Some ((-1, None), w')
              /\ rejected (-1) w')
  /\ (exists w', socket_receive_from (Some s) loc None buflen fuel w
                 = Some ((-1, None, loc), w') /\ rejected (-1) w')
  /\ (exists w', socket_send (Some s) None buflen fuel w = Some (-1, w')
                 /\ rejected (-1) w')
  /\ (exists w', socket_send_to (Some s) a None buflen fuel w = Some (-1, w')
                 /\ rejected (-1) w')
  /\ (exists w', socket_receive_from (Some s) loc (Some buf) 0 fuel w
                 = Some ((-1, Some buf, loc), w') /\ rejected (-1) w')
  /\ (exists w', socket_send (Some s) (Some buf) 0 fuel w = Some (-1, w')
                 /\ rejected (-1) w').
Proof.
  intros rejected. unfold rejected.
  repeat split; try (destruct a); eexists; (split; [reflexivity |]);
    repeat split.
Qed.

(** C4 (defect). [socket_receive] and [socket_send_to] do not check
    [buflen == 0]: on an open, non-blocking handle with a non-null
    buffer and length 0 they call [recv] / [sendto] with length 0 and
    return what the call returns, recording no error, where the claim
    (and the sibling functions [socket_receive_from] and [socket_send])
    reject the call as an invalid argument. *)
Theorem zero_length_transfer_reaches_syscall :
  forall (s : Socket) (a : SocketAddress) (buf : list byte) (w : World)
         (fuel : nat),
    closed s = false ->
    blocking s = false ->
    family a <> SOCKET_FAMILY_UNKNOWN ->
    0 <= r_ret (os w (length (trace w))) ->
    (exists data w',
        socket_receive (Some s) (Some buf) 0 (S fuel) w
        = Some ((r_ret (os w (length (trace w))), data), w')
        /\ trace w' = Recv (fd s) 0 0 :: trace w
        /\ CURRENT_ERROR w' = CURRENT_ERROR w)
    /\ (exists sa len w',
        socket_send_to (Some s) (Some a) (Some buf) 0 (S fuel) w
        = Some (r_ret (os w (length (trace w))), w')
        /\ trace w' = Sendto (fd s) [] 0 0 sa len :: trace w
        /\ CURRENT_ERROR w' = CURRENT_ERROR w).
Proof.
  intros s a buf w fuel Hopen Hnb Hfam Hret.
  assert (Hneg : (r_ret (os w (length (trace w))) <? 0) = false)
    by (apply Z.ltb_ge; exact Hret).
  split.
  - unfold socket_receive, _XX__socket_check. rewrite Hopen.
    unfold bind at 1. cbn [ret negb receive_retry].
    unfold blocking_wait_failed. rewrite Hnb.
    unfold bind, ret, call. cbn [trace os]. rewrite Hneg.
    eexists _, _. split; [reflexivity |]. split; reflexivity.
  - unfold socket_send_to, _XX__socket_check. rewrite Hopen.
    unfold bind at 1. cbn [ret negb].
    destruct (to_native_storage a Hfam) as (sa & ->).
    cbn [send_to_retry]. unfold blocking_wait_failed. rewrite Hnb.
    unfold bind, ret, call. cbn [trace os]. rewrite Hneg.
    eexists _, _, _. split; [reflexivity |]. split; reflexivity.
Qed.

End TransferFacts.

(** [socket_receive] with length 0 on the sample handle. *)
Lemma zero_length_transfer_reaches_syscall_witness :
  exists data w',
    socket_receive (errno_h := linux_errno) (build := linux_poll)
      (Some sample_socket) (Some (zeros 4)) 0 1 (scripted [])
    = Some ((0, data), w')
    /\ trace w' = [Recv 3 0 0].
Proof.
  destruct (proj1 (@zero_length_transfer_reaches_syscall linux_errno linux_poll
              sample_socket sample_address4 (zeros 4) (scripted []) 0%nat
              eq_refl eq_refl ltac:(discriminate) ltac:(simpl; lia)))
    as (data & w' & Hrun & Htrace & _).
  exists data, w'. split; [exact Hrun | exact Htrace].
Defined.

(* ================================================================== *)
(** * Further properties of the code *)
(* ================================================================== *)

(** ** Error context *)

(** A [switch] returns its default or the result paired with the label
    that equals the scrutinee. *)
Lemma switch_sound (cases : list (Z * ErrorIO)) (d : ErrorIO) (x : Z)
      (k : ErrorIO) :
  switch cases d x = k -> k = d \/ In (x, k) cases.
Proof.
  induction cases as [| [label result] rest IH]; simpl; intros H.
  - left. now symmetry.
  - destruct (Z.eqb_spec x label) as [-> | _].
    + right. left. now rewrite H.
    + destruct (IH H) as [Hd | Hin]; [now left | right; now right].
Qed.

Ltac case_labels H :=
  simpl in H;
  repeat match type of H with
         | _ \/ _ => destruct H as [H | H]
         end;
  first [ contradiction
        | discriminate H
        | injection H as H; try discriminate; subst; tauto ].

(** X1. Whatever numbers the platform gives to the errno constants, an
    error number is classified as "no error" exactly when it is 0, and a
    classification as would-block, in-progress or timed-out identifies
    the constants behind it: [EAGAIN] or [EWOULDBLOCK], [EINPROGRESS] or
    [EALREADY], and [ETIMEDOUT]. *)
Theorem classification_reflects_numbers :
  forall (errno_h : ErrnoTable) (e : Z),
    (error_get_io_from_system e = ERROR_IO_NONE <-> e = 0)
    /\ (error_get_io_from_system e = ERROR_IO_WOULD_BLOCK ->
        e = EAGAIN \/ e = EWOULDBLOCK)
    /\ (error_get_io_from_system e = ERROR_IO_IN_PROGRESS ->
        e = EINPROGRESS \/ e = EALREADY)
    /\ (error_get_io_from_system e = ERROR_IO_TIMED_OUT -> e = ETIMEDOUT).
Proof.
  intros errno_h e. unfold error_get_io_from_system.
  split; [split |]; [| | split; [| split]].
  - intros H. apply switch_sound in H. destruct H as [H | H];
      [discriminate |]. unfold switch_cases in H. case_labels H.
  - intros ->. reflexivity.
  - intros H. apply switch_sound in H. destruct H as [H | H];
      [discriminate |]. unfold switch_cases in H. case_labels H.
  - intros H. apply switch_sound in H. destruct H as [H | H];
      [discriminate |]. unfold switch_cases in H. case_labels H.
  - intros H. apply switch_sound in H. destruct H as [H | H];
      [discriminate |]. unfold switch_cases in H. case_labels H.
Qed.

(** On Linux, 11 is classified as would-block, and 11 is [EAGAIN]. *)
Lemma classification_reflects_numbers_witness :
  11 = @EAGAIN linux_errno \/ 11 = @EWOULDBLOCK linux_errno.
Proof.
  apply (proj1 (proj2 (classification_reflects_numbers linux_errno 11))).
  reflexivity.
Defined.

(** Only the 23 values are values of an enumerator. *)
Lemma ErrorIO_of_value_spec (v : Z) :
  match ErrorIO_of_value v with
  | Some k => ErrorIO_value k = v
  | None => forall k, ErrorIO_value k <> v
  end.
Proof.
  unfold ErrorIO_of_value.
  destruct (find _ all_kinds) as [k |] eqn:E.
  - apply find_some in E. now apply Z.eqb_eq.
  - intros k Hk.
    pose proof (find_none _ _ E k (all_kinds_complete k)) as Hn.
    simpl in Hn. apply Z.eqb_neq in Hn. contradiction.
Qed.

Lemma ErrorIO_of_value_value (k : ErrorIO) :
  ErrorIO_of_value (ErrorIO_value k) = Some k.
Proof. destruct k; reflexivity. Qed.

(** X2. [error_code_to_string] gives every one of the 23 kinds a message
    of its own: the message is neither empty nor the fallback ["?"], two
    different kinds never share a message, and exactly the numbers that
    are not the value of a kind (0 among them, the code of the cleared
    error state) get ["?"]. *)
Theorem error_code_to_string_distinct :
  (forall k : ErrorIO,
      error_code_to_string (ErrorIO_value k) <> ""%string
      /\ error_code_to_string (ErrorIO_value k) <> "?"%string)
  /\ (forall k1 k2 : ErrorIO,
         error_code_to_string (ErrorIO_value k1)
         = error_code_to_string (ErrorIO_value k2) -> k1 = k2)
  /\ (forall v : Z,
         error_code_to_string v = "?"%string
         <-> forall k, ErrorIO_value k <> v).
Proof.
  split; [| split].
  - intros k. destruct k; split; vm_compute; discriminate.
  - intros k1 k2. unfold error_code_to_string.
    rewrite !ErrorIO_of_value_value.
    destruct k1, k2; intros H; first [reflexivity | discriminate H].
  - intros v. pose proof (ErrorIO_of_value_spec v) as Hs.
    unfold error_code_to_string.
    destruct (ErrorIO_of_value v) as [k |].
    + split.
      * destruct k; intros H; discriminate H.
      * intros H. exfalso. exact (H k Hs).
    + split; [intros _; exact Hs | reflexivity].
Qed.

(** 0, the code of the cleared error context, has no message. *)
Lemma error_code_to_string_distinct_witness :
  error_code_to_string 0 = "?"%string.
Proof.
  apply (proj2 (proj2 error_code_to_string_distinct) 0).
  intros k. destruct k; discriminate.
Defined.


(** ** Socket addresses *)

(** X4. The any-address and loopback constructors and the two
    classifiers agree, for both families and every port: an any-address
    is classified as any and not as loopback, a loopback address as
    loopback and not as any; the port given is the port stored
    (narrowed to 16 bits); and the unknown family is refused. *)
Theorem any_and_loopback_classified :
  forall (fam : SocketFamily) (p : Z),
    socket_address_new_any SOCKET_FAMILY_UNKNOWN p = None
    /\ socket_address_new_loopback SOCKET_FAMILY_UNKNOWN p = None
    /\ (fam <> SOCKET_FAMILY_UNKNOWN ->
        socket_address_is_any (socket_address_new_any fam p) = true
        /\ socket_address_is_loopback (socket_address_new_any fam p) = false
        /\ socket_address_is_loopback (socket_address_new_loopback fam p) = true
        /\ socket_address_is_any (socket_address_new_loopback fam p) = false
        /\ socket_address_get_family (socket_address_new_any fam p) = fam
        /\ socket_address_get_family (socket_address_new_loopback fam p) = fam
        /\ socket_address_get_port (socket_address_new_any fam p) = u16 p
        /\ socket_address_get_port (socket_address_new_loopback fam p) = u16 p).
Proof.
  intros fam p. split; [reflexivity |]. split; [reflexivity |].
  intros Hfam. destruct fam; [congruence | |]; repeat split.
Qed.

Lemma any_and_loopback_classified_witness :
  socket_address_is_loopback
    (socket_address_new_loopback SOCKET_FAMILY_INET 8080) = true.
Proof.
  apply (proj2 (proj2 (any_and_loopback_classified SOCKET_FAMILY_INET 8080))).
  discriminate.
Defined.

(** [byte_of_Z] looks at the low eight bits only. *)
Lemma byte_of_Z_mod (x y : Z) : x mod 256 = y mod 256 -> byte_of_Z x = byte_of_Z y.
Proof. intros H. unfold byte_of_Z. now rewrite H. Qed.

(** [htons], stored by a little-endian host, puts the high byte first. *)
Lemma le_encode_htons (p : Z) :
  le_encode 2 (htons p) = [byte_of_Z (p / 256); byte_of_Z p].
Proof.
  unfold htons. cbv [le_encode]. rewrite bswap16_eq. f_equal; [| f_equal].
  - apply byte_of_Z_mod. Z.div_mod_to_equations. lia.
  - apply byte_of_Z_mod. Z.div_mod_to_equations. lia.
Qed.

(** X5. The layout [socket_address_to_native] writes.  For IPv4: the
    family tag, the port with its high byte first (network order), the
    four address bytes and eight zero bytes; for IPv6: the tag, the
    port in network order, the flow information, the sixteen address
    bytes and the scope index.  The destination keeps its length and
    everything beyond the structure is left as it was. *)
Theorem to_native_layout :
  forall (a : SocketAddress) (dest : list byte),
    socket_address_get_native_size (Some a) <= Z.of_nat (length dest) ->
    (family a = SOCKET_FAMILY_INET ->
     socket_address_to_native (Some a) (Some dest) (Z.of_nat (length dest))
     = Some ([x02; x00; byte_of_Z (port a / 256); byte_of_Z (port a)]
             ++ read_bytes 0 4 (addr a) ++ zeros 8 ++ skipn 16 dest))
    /\ (family a = SOCKET_FAMILY_INET6 ->
        socket_address_to_native (Some a) (Some dest) (Z.of_nat (length dest))
        = Some ([x0a; x00; byte_of_Z (port a / 256); byte_of_Z (port a)]
                ++ le_encode 4 (flowinfo a) ++ read_bytes 0 16 (addr a)
                ++ le_encode 4 (scope_id a) ++ skipn 28 dest)).
Proof.
  intros a dest Hsize. unfold socket_address_get_native_size in Hsize.
  unfold socket_address_to_native.
  split; intros Hfam; rewrite Hfam in *.
  - unfold sizeof_sockaddr_in in Hsize.
    assert (Hd : (16 <= length dest)%nat) by lia.
    explode_list Hd. decide_length_tests.
    memory_compute. rewrite !cons2_le_encode, le_encode_htons. reflexivity.
  - unfold sizeof_sockaddr_in6 in Hsize.
    assert (Hd : (28 <= length dest)%nat) by lia.
    explode_list Hd. decide_length_tests.
    memory_compute. rewrite !cons2_le_encode, le_encode_htons. reflexivity.
Qed.

(** 127.0.0.1:8080 in a 16-byte destination. *)
Lemma to_native_layout_witness :
  socket_address_to_native (Some sample_address4) (Some (zeros 16)) 16
  = Some sample_sockaddr_in.
Proof.
  apply (proj1 (to_native_layout sample_address4 (zeros 16)
                  ltac:(simpl; lia)) eq_refl).
Defined.

(** X6. [socket_address_to_native] succeeds exactly when the destination
    is at least as large as [socket_address_get_native_size] says (and
    the family is known); it refuses a null address, a null or empty
    destination and an address of unknown family. *)
Theorem to_native_needs_native_size :
  forall (a : SocketAddress) (dest : list byte),
    (socket_address_to_native (Some a) (Some dest) (Z.of_nat (length dest))
     <> None
     <-> family a <> SOCKET_FAMILY_UNKNOWN
         /\ socket_address_get_native_size (Some a) <= Z.of_nat (length dest))
    /\ socket_address_to_native None (Some dest) (Z.of_nat (length dest)) = None
    /\ socket_address_to_native (Some a) None (Z.of_nat (length dest)) = None.
Proof.
  intros a dest. split; [| split; reflexivity].
  unfold socket_address_to_native, socket_address_get_native_size.
  destruct (family a).
  - destruct (_ =? 0); split; intros K; try congruence; destruct K; congruence.
  - unfold sizeof_sockaddr_in.
    destruct (Z.eqb_spec (Z.of_nat (length dest)) 0) as [E | E];
      destruct (Z.ltb_spec (Z.of_nat (length dest)) (Z.of_nat 16)) as [L | L];
      split; intros K;
      first [ congruence | destruct K; lia | split; [discriminate | lia]
            | discriminate ].
  - unfold sizeof_sockaddr_in6.
    destruct (Z.eqb_spec (Z.of_nat (length dest)) 0) as [E | E];
      destruct (Z.ltb_spec (Z.of_nat (length dest)) (Z.of_nat 28)) as [L | L];
      split; intros K;
      first [ congruence | destruct K; lia | split; [discriminate | lia]
            | discriminate ].
Qed.

(** A 16-byte destination is too small for an IPv6 address. *)
Lemma to_native_needs_native_size_witness :
  socket_address_to_native (Some sample_address6) (Some (zeros 16)) 16 = None.
Proof.
  destruct (socket_address_to_native (Some sample_address6) (Some (zeros 16)) 16)
    as [b |] eqn:E; [| reflexivity].
  exfalso.
  assert (H : socket_address_to_native (Some sample_address6) (Some (zeros 16))
                (Z.of_nat (length (zeros 16))) <> None)
    by (change (Z.of_nat (length (zeros 16))) with 16; rewrite E; discriminate).
  apply (proj1 (proj1 (to_native_needs_native_size sample_address6 (zeros 16)))) in H.
  destruct H as [_ H]. simpl in H. lia.
Defined.

(** Reading inside a prefix of a buffer is reading the buffer. *)
Lemma read_bytes_firstn (off n k : nat) (mem : list byte) :
  (off + n <= k)%nat -> read_bytes off n (firstn k mem) = read_bytes off n mem.
Proof.
  intros Hk. unfold read_bytes. apply map_ext_in. intros i Hi.
  apply in_seq in Hi. rewrite nth_firstn.
  destruct (Nat.ltb_spec i k); [reflexivity | lia].
Qed.

Lemma from_native_prefix (mem : list byte) (len : Z) :
  socket_address_new_from_native (Some (firstn 28 mem)) len
  = socket_address_new_from_native (Some mem) len.
Proof.
  unfold socket_address_new_from_native, load16, load32,
         off_sa_family, off_sin_port, off_sin_addr, sizeof_in_addr,
         off_sin6_addr, sizeof_in6_addr, off_sin6_flowinfo, off_sin6_scope_id.
  rewrite !read_bytes_firstn by lia. reflexivity.
Qed.

(** X7. What [socket_address_new_from_native] accepts.  It returns an
    address only for a buffer tagged [AF_INET] and at least 16 bytes
    long, which gives an IPv4 address without flow information or scope,
    or tagged [AF_INET6] and at least 28 bytes long, which gives an IPv6
    address; a null buffer, length 0, a truncated structure and any
    other tag are refused.  Bytes after the first 28 play no part, so
    the result for a [sockaddr_storage] is that for the structure it
    holds. *)
Theorem from_native_accepts :
  forall (mem : list byte) (len : Z),
    socket_address_new_from_native None len = None
    /\ socket_address_new_from_native (Some mem) 0 = None
    /\ (forall a, socket_address_new_from_native (Some mem) len = Some a ->
         (load16 mem off_sa_family = AF_INET /\ 16 <= len
          /\ family a = SOCKET_FAMILY_INET
          /\ flowinfo a = 0 /\ scope_id a = 0)
         \/ (load16 mem off_sa_family = AF_INET6 /\ 28 <= len
             /\ family a = SOCKET_FAMILY_INET6))
    /\ (forall mem', firstn 28 mem' = firstn 28 mem ->
         socket_address_new_from_native (Some mem') len
         = socket_address_new_from_native (Some mem) len).
Proof.
  intros mem len. split; [reflexivity |]. split; [reflexivity |]. split.
  - intros a. unfold socket_address_new_from_native.
    destruct (len =? 0); [discriminate |].
    destruct (Z.eqb_spec (load16 mem off_sa_family) AF_INET) as [E4 | _].
    + destruct (Z.ltb_spec len (Z.of_nat sizeof_sockaddr_in)) as [L | L];
        [discriminate |].
      intros [= <-]. left. unfold sizeof_sockaddr_in in L.
      repeat split; [assumption | lia].
    + destruct (Z.eqb_spec (load16 mem off_sa_family) AF_INET6) as [E6 | _];
        [| discriminate].
      destruct (Z.ltb_spec len (Z.of_nat sizeof_sockaddr_in6)) as [L | L];
        [discriminate |].
      intros [= <-]. right. unfold sizeof_sockaddr_in6 in L.
      repeat split; [assumption | lia].
  - intros mem' Hp.
    rewrite <- (from_native_prefix mem'), <- (from_native_prefix mem).
    now rewrite Hp.
Qed.

(** The [sockaddr_in] of 127.0.0.1:8080 at the start of a
    [sockaddr_storage]. *)
Lemma from_native_accepts_witness :
  socket_address_new_from_native
    (Some (sample_sockaddr_in ++ zeros 112)) 16
  = socket_address_new_from_native (Some (sample_sockaddr_in ++ zeros 12)) 16
  /\ family sample_address4 = SOCKET_FAMILY_INET.
Proof.
  pose proof (from_native_accepts (sample_sockaddr_in ++ zeros 12) 16)
    as (_ & _ & Hacc & Hpre).
  split.
  - apply Hpre. reflexivity.
  - destruct (Hacc sample_address4 eq_refl) as [(_ & _ & H & _) | (H & _)].
    + exact H.
    + discriminate H.
Defined.

(** X8. Every address a caller can hold (returned by one of the four
    constructors, possibly changed by the setters) has a known family,
    a port below 65536, flow information and scope index below 2^32,
    and, when it is IPv4, no flow information, no scope index and no
    address bytes beyond the first four; its native size is that of
    [sockaddr_in] or of [sockaddr_in6], never 0. *)
Theorem constructed_address_invariant :
  forall (config : Config) (a : SocketAddress),
    constructed a ->
    address_invariant a
    /\ (socket_address_get_native_size (Some a) = 16
        \/ socket_address_get_native_size (Some a) = 28).
Proof.
  intros config a Hc.
  assert (Hinv : address_invariant a).
  { induction Hc as [native len a H | address p a H | fam p a H
                     | fam p a H | a v a' Hc IH Hs | a v a' Hc IH Hs].
    - eapply from_native_invariant; eassumption.
    - eapply new_invariant; eassumption.
    - eapply any_invariant; eassumption.
    - eapply loopback_invariant; eassumption.
    - eapply set_flow_info_invariant; eassumption.
    - eapply set_scope_id_invariant; eassumption. }
  split; [exact Hinv |].
  destruct Hinv as (Hfam & _). unfold socket_address_get_native_size.
  destruct (family a); [congruence | left | right]; reflexivity.
Qed.

Lemma constructed_address_invariant_witness :
  address_invariant sample_address4.
Proof.
  assert (H : @constructed config_with_fields sample_address4).
  { apply (@constructed_new config_with_fields (Some "127.0.0.1"%string) 8080).
    vm_compute. reflexivity. }
  exact (proj1 (constructed_address_invariant config_with_fields _ H)).
Defined.

(** Text without a colon: nothing to cut, one group, not an IPv6
    address. *)
Lemma no_colon_cut (s : string) :
  contains_char ":" s = false -> cut_double_colon s = None.
Proof.
  induction s as [| c s IH]; [reflexivity |].
  cbn [contains_char]. intros H. apply orb_false_iff in H as [Hc Hs].
  cbn [cut_double_colon]. destruct s as [| c2 s']; [reflexivity |].
  unfold is_char in *. rewrite Ascii.eqb_sym in Hc. rewrite Hc.
  cbn [andb]. now rewrite (IH Hs).
Qed.

Lemma no_colon_split (s : string) :
  contains_char ":" s = false -> split_on ":" s = [s].
Proof.
  induction s as [| c s IH]; [reflexivity |].
  cbn [contains_char]. intros H. apply orb_false_iff in H as [Hc Hs].
  cbn [split_on]. unfold is_char in *. rewrite Ascii.eqb_sym in Hc.
  rewrite Hc. now rewrite (IH Hs).
Qed.

Lemma no_colon_inet_pton6 (s : string) :
  contains_char ":" s = false -> inet_pton6 s = None.
Proof.
  intros H. unfold inet_pton6.
  rewrite (no_colon_cut s H), (no_colon_split s H).
  cbn [groups_bytes andb].
  destruct (contains_char "." s).
  - destruct (inet_pton4 s) as [b |] eqn:E; [| reflexivity].
    apply inet_pton4_length in E. rewrite length_app, E. reflexivity.
  - unfold hex_group. destruct (hex_group_scan s 0 0); reflexivity.
Qed.

Lemma getaddrinfo_numerichost_shape (s : string) (res : addrinfo) :
  getaddrinfo_numerichost s = Some res ->
  exists a z, ai_addr res = make_sockaddr_in6 a z
              /\ ai_addrlen res = Z.of_nat sizeof_sockaddr_in6.
Proof.
  unfold getaddrinfo_numerichost.
  destruct (split_on "%" s) as [| lit [| zone [| x rest]]]; try discriminate.
  - destruct (inet_pton6 lit) as [a |]; [| discriminate].
    intros [= <-]. now exists a, 0.
  - destruct (inet_pton6 lit) as [a |]; [| discriminate].
    destruct (decimal_scan zone 0 0) as [z |]; [| discriminate].
    destruct (z <? 4294967296); [| discriminate].
    intros [= <-]. now exists a, z.
Qed.

(** X9. Parsing keeps the port and chooses the family by the colon:
    whenever [socket_address_new] returns an address, its port is the
    port given (narrowed to 16 bits), it is IPv6 if the text contains a
    colon and IPv4 if it does not; a null text is refused. *)
Theorem parse_port_and_family :
  forall (text : string) (p : Z) (a : SocketAddress),
    socket_address_new None p = None
    /\ (socket_address_new (Some text) p = Some a ->
        port a = u16 p
        /\ family a = (if contains_char ":" text then SOCKET_FAMILY_INET6
                       else SOCKET_FAMILY_INET)).
Proof.
  intros text p a. split; [reflexivity |].
  unfold socket_address_new.
  destruct (contains_char ":" text) eqn:Hcolon.
  - destruct (getaddrinfo_numerichost text) as [res |] eqn:Hres;
      [| discriminate].
    destruct (getaddrinfo_numerichost_shape text res Hres)
      as (a6 & z & Haddr & Hlen).
    destruct (_ && _); [| discriminate].
    rewrite Haddr, Hlen. unfold make_sockaddr_in6, socket_address_new_from_native.
    change (Z.of_nat sizeof_sockaddr_in6 =? 0) with false.
    change (Z.of_nat sizeof_sockaddr_in6 <? Z.of_nat sizeof_sockaddr_in6)
      with false.
    change (Z.of_nat sizeof_sockaddr_in6 <? Z.of_nat sizeof_sockaddr_in)
      with false.
    cbv iota.
    cbv [load16 store16 write_at read_bytes le_encode off_sa_family
         off_sin_port off_sin6_port map seq nth firstn skipn app length
         Nat.add].
    rewrite !le_decode_encode2
      by (first [apply bswap16_range | unfold AF_INET6; lia]).
    change (AF_INET6 =? AF_INET) with false.
    change (AF_INET6 =? AF_INET6) with true. cbv iota.
    intros [= <-]. cbn [port family set_port set_family set_addr
                        set_flowinfo set_scope_id].
    split; [| reflexivity].
    apply bswap16_ntohs_htons. apply u16_range.
  - destruct (inet_pton4 text) as [a4 |].
    + intros [= <-]. split; reflexivity.
    + rewrite (no_colon_inet_pton6 text Hcolon). discriminate.
Qed.

Lemma parse_port_and_family_witness :
  port sample_address6 = u16 443
  /\ family sample_address6 = SOCKET_FAMILY_INET6.
Proof.
  apply (proj2 (parse_port_and_family "::1" 443 sample_address6)).
  vm_compute. reflexivity.
Defined.

(** ** Handles: arguments, setters, listen, shutdown, close *)

Ltac run_monad :=
  unfold sys_close, invalid_argument, error_set_from_last_net;
  unfold error_set_error, error_get_last_net, error_get_last_system,
         bind, ret, call;
  cbn [trace os errno CURRENT_ERROR negb fst snd].

Ltac run_monad_in H :=
  unfold sys_close, invalid_argument, error_set_from_last_net in H;
  unfold error_set_error, error_get_last_net, error_get_last_system,
         bind, ret, call in H;
  cbn [trace os errno CURRENT_ERROR negb fst snd] in H.

(** X10. A null handle is refused by every operation before anything is
    done: bind, connect, listen, accept, the four transfer functions,
    shutdown, set_buffer_size and io_condition_wait, and also close and
    check_connect_result, return their failure sentinel, make no call,
    and record the invalid-argument kind with native code 0. *)
Theorem null_handle_operations_rejected :
  forall (errno_h : ErrnoTable) (build : Build) (op : Operation)
         (fuel : nat) (w : World),
    let rejected := fun w' : World =>
      trace w' = trace w
      /\ code (CURRENT_ERROR w') = ErrorIO_value ERROR_IO_INVALID_ARGUMENT
      /\ native_code (CURRENT_ERROR w') = 0 in
    (exists w', returns_failure op None fuel w = Some (true, w') /\ rejected w')
    /\ (exists w', socket_close None w = Some ((false, None), w') /\ rejected w')
    /\ (exists w', socket_check_connect_result None w = Some ((false, None), w')
                   /\ rejected w').
Proof.
  intros errno_h build op fuel w rejected. unfold rejected.
  split; [| split].
  - destruct op; eexists; (split; [reflexivity | repeat split]).
  - eexists. split; [reflexivity | repeat split].
  - eexists. split; [reflexivity | repeat split].
Qed.

(** X11. The setters.  A negative timeout is stored as 0 and any other
    as given; the backlog is stored while the handle is not listening
    and ignored once it is; [socket_set_keepalive] makes no call when
    the flag already has the value asked for, and otherwise changes the
    flag only if [setsockopt] succeeded. *)
Theorem setters_behaviour :
  forall (s : Socket) (v : Z) (k : bool) (w : World),
    socket_get_timeout (socket_set_timeout (Some s) v) = Z.max 0 v
    /\ socket_get_listen_backlog (socket_set_listen_backlog (Some s) v)
       = (if listening s then listen_backlog s else v)
    /\ socket_get_blocking (socket_set_blocking (Some s) k) = k
    /\ (keepalive s = k -> socket_set_keepalive (Some s) k w = Some (Some s, w))
    /\ (keepalive s <> k ->
        exists s' w',
          socket_set_keepalive (Some s) k w = Some (Some s', w')
          /\ trace w' = Setsockopt (fd s) SO_KEEPALIVE (if k then 1 else 0)
                        :: trace w
          /\ keepalive s'
             = (if r_ret (os w (length (trace w))) <? 0 then keepalive s else k)
          /\ with_keepalive (keepalive s) s' = s).
Proof.
  intros s v k w. split; [| split; [| split; [| split]]].
  - cbn. destruct (Z.ltb_spec v 0); lia.
  - cbn. destruct (listening s); reflexivity.
  - reflexivity.
  - intros Hk. unfold socket_set_keepalive. rewrite Hk, eqb_reflx. reflexivity.
  - intros Hk. unfold socket_set_keepalive.
    destruct (Bool.eqb (keepalive s) k) eqn:E;
      [apply eqb_prop in E; contradiction |].
    run_monad. destruct (r_ret (os w (length (trace w))) <? 0);
      eexists _, _; (split; [reflexivity |]); repeat split;
      destruct s; reflexivity.
Qed.

Lemma setters_behaviour_witness :
  socket_set_keepalive (Some sample_socket) false (scripted [])
  = Some (Some sample_socket, scripted []).
Proof.
  apply (proj1 (proj2 (proj2 (proj2
           (setters_behaviour sample_socket 0 false (scripted [])))))).
  reflexivity.
Defined.

(** X12. [socket_listen] on an open handle passes the configured backlog
    to [listen]; on success the handle is listening and from then on
    [socket_set_listen_backlog] leaves it unchanged; on failure the
    handle is as before and the kind recorded is the classification of
    [errno]. *)
Theorem listen_fixes_backlog :
  forall (errno_h : ErrnoTable) (s : Socket) (w : World) (b : bool) (s1 : Socket) (w1 : World),
    closed s = false ->
    socket_listen (Some s) w = Some ((b, Some s1), w1) ->
    trace w1 = Listen (fd s) (listen_backlog s) :: trace w
    /\ b = negb (r_ret (os w (length (trace w))) <? 0)
    /\ (b = true ->
        s1 = with_listening true s
        /\ CURRENT_ERROR w1 = CURRENT_ERROR w
        /\ forall v, socket_set_listen_backlog (Some s1) v = Some s1)
    /\ (b = false ->
        s1 = s
        /\ code (CURRENT_ERROR w1)
           = ErrorIO_value (error_get_io_from_system (errno w1))).
Proof.
  intros errno_h s w b s1 w1 Hopen. unfold socket_listen, _XX__socket_check.
  rewrite Hopen. run_monad.
  destruct (r_ret (os w (length (trace w))) <? 0); intros [= <- <- <-];
    cbn [trace CURRENT_ERROR code errno negb]; repeat split;
    try discriminate; reflexivity.
Qed.

Lemma listen_fixes_backlog_witness :
  exists w1,
    socket_listen (errno_h := linux_errno)
      (Some (with_listen_backlog 16 sample_socket)) (scripted [])
    = Some ((true, Some (with_listening true
                           (with_listen_backlog 16 sample_socket))), w1)
    /\ trace w1 = [Listen 3 16].
Proof.
  destruct (socket_listen (errno_h := linux_errno)
              (Some (with_listen_backlog 16 sample_socket)) (scripted []))
    as [[[b [s1 |]] w1] |] eqn:Hrun;
    [| vm_compute in Hrun; discriminate Hrun
     | vm_compute in Hrun; discriminate Hrun].
  destruct (listen_fixes_backlog linux_errno
              (with_listen_backlog 16 sample_socket) (scripted []) b s1 w1
              eq_refl Hrun)
    as (Htrace & Hb & Hok & _).
  vm_compute in Hb. subst b.
  destruct (Hok eq_refl) as (-> & _).
  exists w1. split; [reflexivity | exact Htrace].
Defined.

(** X13. [socket_shutdown] on an open handle.  With both flags false it
    succeeds without a call.  Otherwise it calls [shutdown] once, with
    [SHUT_RDWR], [SHUT_RD] or [SHUT_WR]; on success the connected flag
    is cleared only when both directions were shut down, on failure the
    handle is unchanged; in no case is the handle marked closed or its
    descriptor changed. *)
Theorem shutdown_behaviour :
  forall (errno_h : ErrnoTable) (s : Socket) (rd wr : bool) (w : World),
    closed s = false ->
    socket_shutdown (Some s) false false w = Some ((true, Some s), w)
    /\ (rd || wr = true ->
        exists b s1 w1,
          socket_shutdown (Some s) rd wr w = Some ((b, Some s1), w1)
          /\ trace w1
             = Shutdown (fd s) (if rd && wr then 2 else if rd then 0 else 1)
               :: trace w
          /\ b = (r_ret (os w (length (trace w))) =? 0)
          /\ s1 = (if b && rd && wr then with_connected false s else s)
          /\ closed s1 = false /\ fd s1 = fd s).
Proof.
  intros errno_h s rd wr w Hopen. unfold socket_shutdown, _XX__socket_check.
  rewrite Hopen. split; [reflexivity |].
  intros Hany. run_monad.
  destruct rd, wr; try discriminate; cbn [negb andb];
    destruct (r_ret (os w (length (trace w))) =? 0);
    eexists _, _, _; (split; [reflexivity |]); cbn [trace andb negb];
    repeat split; assumption.
Qed.

Lemma shutdown_behaviour_witness :
  exists w1,
    socket_shutdown (errno_h := linux_errno) (Some sample_socket) true true
      (scripted [])
    = Some ((true, Some (with_connected false sample_socket)), w1)
    /\ trace w1 = [Shutdown 3 2].
Proof.
  destruct (proj2 (shutdown_behaviour linux_errno sample_socket true true
                     (scripted []) eq_refl) eq_refl)
    as (b & s1 & w1 & Hrun & Htrace & Hb & Hs & _).
  exists w1. subst b s1. split; [exact Hrun | exact Htrace].
Defined.

(** X14. A failed [close] leaves the handle open: [socket_close] returns
    [false], the handle (descriptor and flags) is unchanged, and the
    kind recorded is the classification of the error number, which is
    stored as native code.  A later [socket_close] therefore calls
    [close] on the same descriptor again. *)
Theorem close_failure_leaves_open :
  forall (errno_h : ErrnoTable) (s : Socket) (w : World),
    closed s = false ->
    r_ret (os w (length (trace w))) <> 0 ->
    exists w1,
      socket_close (Some s) w = Some ((false, Some s), w1)
      /\ trace w1 = Close (fd s) :: trace w
      /\ code (CURRENT_ERROR w1)
         = ErrorIO_value (error_get_io_from_system (errno w1))
      /\ native_code (CURRENT_ERROR w1) = errno w1
      /\ exists w2 b s2,
           socket_close (Some s) w1 = Some ((b, s2), w2)
           /\ trace w2 = Close (fd s) :: Close (fd s) :: trace w.
Proof.
  intros errno_h s w Hopen Hret. unfold socket_close. rewrite Hopen. run_monad.
  rewrite (proj2 (Z.eqb_neq _ _) Hret).
  eexists. split; [reflexivity |]. cbn [trace CURRENT_ERROR code native_code errno].
  repeat split.
  match goal with
  | |- context [if ?c then _ else _] => destruct c
  end; eexists _, _, _; split; reflexivity.
Qed.

Lemma close_failure_leaves_open_witness :
  exists w1,
    socket_close (errno_h := linux_errno) (Some sample_socket)
      (scripted [reply (-1) (Some 9)])
    = Some ((false, Some sample_socket), w1)
    /\ code (CURRENT_ERROR w1) = ErrorIO_value ERROR_IO_INVALID_ARGUMENT.
Proof.
  destruct (close_failure_leaves_open linux_errno sample_socket
              (scripted [reply (-1) (Some 9)]) eq_refl ltac:(discriminate))
    as (w1 & Hrun & _ & Hcode & _).
  exists w1. split; [exact Hrun |].
  rewrite Hcode.
  assert (Hw : Some ((false, Some sample_socket), w1)
               = socket_close (errno_h := linux_errno) (Some sample_socket)
                   (scripted [reply (-1) (Some 9)])) by (symmetry; exact Hrun).
  vm_compute in Hw. injection Hw as ->. reflexivity.
Defined.

(** X15. [socket_free] releases the descriptor once: on an open handle
    it calls [close] and then [free], whatever [close] answers; on a
    handle that is already closed it calls [free] only.  So closing and
    then freeing a handle closes the descriptor a single time. *)
Theorem free_releases_once :
  forall (errno_h : ErrnoTable) (s : Socket) (w : World),
    exists w',
      socket_free (Some s) w = Some (tt, w')
      /\ trace w' = (if closed s then [Free] else [Free; Close (fd s)])
                    ++ trace w
      /\ forall s1 w1,
           socket_close (Some s) w = Some ((true, Some s1), w1) ->
           exists w2, socket_free (Some s1) w1 = Some (tt, w2)
                      /\ releases (trace w2)
                         = (releases (trace w) + (if closed s then 0 else 1))%nat.
Proof.
  intros errno_h s w. unfold socket_free, socket_close.
  destruct (closed s) eqn:Hc.
  - run_monad. eexists. split; [reflexivity |]. split; [reflexivity |].
    intros s1 w1 [= <- <-]. rewrite Hc. eexists. split; [reflexivity |].
    cbn [trace]. unfold releases. cbn [filter]. lia.
  - run_monad.
    destruct (r_ret (os w (length (trace w))) =? 0).
    + eexists. split; [reflexivity |]. split; [reflexivity |].
      intros s1 w1 [= <- <-].
      cbn [closed with_fd with_listening with_closed with_connected].
      eexists. split; [reflexivity |].
      cbn [trace]. unfold releases. cbn [filter length]. lia.
    + eexists. split; [reflexivity |]. split; [reflexivity |].
      intros s1 w1 H. discriminate H.
Qed.

(** X16. [socket_check_connect_result] reads [SO_ERROR] once.  When
    [getsockopt] succeeds, the pending error decides: 0 marks the handle
    connected, returns [true] and records nothing; any other value
    marks it not connected, returns [false] and records its
    classification with the value as native code.  When [getsockopt]
    fails the handle is unchanged.  The closed flag and the descriptor
    are never touched. *)
Theorem check_connect_result_behaviour :
  forall (errno_h : ErrnoTable) (s : Socket) (w : World),
    let r := os w (length (trace w)) in
    exists b s1 w1,
      socket_check_connect_result (Some s) w = Some ((b, Some s1), w1)
      /\ trace w1 = Getsockopt (fd s) SO_ERROR :: trace w
      /\ closed s1 = closed s /\ fd s1 = fd s
      /\ (r_ret r < 0 -> b = false /\ s1 = s)
      /\ (0 <= r_ret r -> r_val r = 0 ->
          b = true /\ s1 = with_connected true s
          /\ CURRENT_ERROR w1 = CURRENT_ERROR w)
      /\ (0 <= r_ret r -> r_val r <> 0 ->
          b = false /\ s1 = with_connected false s
          /\ code (CURRENT_ERROR w1)
             = ErrorIO_value (error_get_io_from_system (r_val r))
          /\ native_code (CURRENT_ERROR w1) = r_val r).
Proof.
  intros errno_h s w r. subst r. unfold socket_check_connect_result. run_monad.
  destruct (Z.ltb_spec (r_ret (os w (length (trace w)))) 0) as [L | L].
  - eexists _, _, _. split; [reflexivity |]. cbn [trace].
    repeat split; intros; lia.
  - destruct (Z.eqb_spec (r_val (os w (length (trace w)))) 0) as [E | E];
      cbn [negb]; eexists _, _, _; (split; [reflexivity |]);
      cbn [trace CURRENT_ERROR code native_code closed fd with_connected];
      repeat split; intros; first [lia | contradiction | reflexivity].
Qed.

(** ** Runs that settle *)

Lemma releases_cons (c : Call) (t : list Call) :
  releases (c :: t)
  = ((match c with Close _ => 1 | _ => 0 end) + releases t)%nat.
Proof. unfold releases. cbn [filter]. destruct c; reflexivity. Qed.

Lemma settles_refl (w : World) : settles true w w.
Proof. repeat split. Qed.

Lemma settles_trans (b : bool) (w w1 w2 : World) :
  settles true w w1 -> settles b w1 w2 -> settles b w w2.
Proof.
  intros (Ho1 & Hr1 & He1) (Ho2 & Hr2 & He2).
  split; [congruence |]. split; [congruence |].
  destruct b; [congruence | assumption].
Qed.

Lemma settles_call (c : Call) (w : World) (r : Reply) (w1 : World) :
  call c w = Some (r, w1) ->
  (forall d, c <> Close d) ->
  settles true w w1 /\ r = os w (length (trace w)).
Proof.
  unfold call. intros [= <- <-] Hc. split; [| reflexivity].
  split; [reflexivity |]. split; [| reflexivity].
  cbn [trace]. rewrite releases_cons. destruct c; try reflexivity.
  exfalso. eapply Hc. reflexivity.
Qed.

Lemma settles_error (k : ErrorIO) (n : Z) (m : string) (w : World) :
  exists w', error_set_error (ErrorIO_value k) n m w = Some (tt, w')
             /\ settles false w w'.
Proof.
  eexists. split; [reflexivity |].
  split; [reflexivity |]. split; [reflexivity |].
  split; [discriminate | exists k; reflexivity].
Qed.

Ltac settled_failure :=
  split; [reflexivity |]; split;
  [cbn [trace]; rewrite ?releases_cons; reflexivity |];
  split;
  [ discriminate
  | cbn [code CURRENT_ERROR];
    first [ eexists; reflexivity
          | exists ERROR_IO_TIMED_OUT; reflexivity
          | exists ERROR_IO_INVALID_ARGUMENT; reflexivity
          | exists ERROR_IO_NOT_AVAILABLE; reflexivity
          | exists ERROR_IO_FAILED; reflexivity ] ].

Ltac settled_success :=
  split; [reflexivity |]; split;
  [cbn [trace]; rewrite ?releases_cons; reflexivity | reflexivity].

(** ** Handles made from a descriptor *)

Ltac socket_fields :=
  cbn [s_family protocol type fd listen_backlog timeout blocking keepalive
       closed connected listening with_family with_protocol with_type with_fd
       with_listen_backlog with_timeout with_blocking with_keepalive
       with_closed with_connected with_listening calloc_Socket].

Ltac socket_fields_in H :=
  cbn [s_family protocol type fd listen_backlog timeout blocking keepalive
       closed connected listening with_family with_protocol with_type with_fd
       with_listen_backlog with_timeout with_blocking with_keepalive
       with_closed with_connected with_listening calloc_Socket] in H.

(** Case analysis on every test of a run given as a hypothesis. *)
Ltac split_run H :=
  run_monad_in H; socket_fields_in H;
  repeat match type of H with
         | context [if ?c then _ else _] =>
             let E := fresh "E" in
             destruct c eqn:E; run_monad_in H; socket_fields_in H
         end.

Lemma set_details_from_fd_frame :
  forall (errno_h : ErrnoTable) (s : Socket) (w : World)
         (ok : bool) (s' : Socket) (w' : World),
    _XX__socket_set_details_from_fd s w = Some ((ok, s'), w') ->
    fd s' = fd s /\ blocking s' = blocking s /\ timeout s' = timeout s
    /\ listen_backlog s' = listen_backlog s /\ closed s' = closed s
    /\ listening s' = listening s
    /\ settles ok w w'
    /\ (ok = true ->
        protocol s'
        = match s_family s' with
          | SOCKET_FAMILY_UNKNOWN => protocol s
          | _ => protocol_of_type (type s') (protocol s)
          end
        /\ (s_family s' = SOCKET_FAMILY_UNKNOWN -> connected s' = connected s)).
Proof.
  intros errno_h s w ok s' w' H.
  unfold _XX__socket_set_details_from_fd in H.
  split_run H;
    repeat match type of H with
           | context [match ?x with _ => _ end] => destruct x eqn:?
           end;
    try discriminate H;
    injection H as <- <- <-; socket_fields;
    (do 6 (split; [reflexivity |]));
    (split; [first [settled_success | settled_failure] |]);
    intros; try discriminate; split; intros; try reflexivity; congruence.
Qed.

Lemma new_from_fd_outcome :
  forall (errno_h : ErrnoTable) (d : Z) (w : World)
         (r : option Socket) (w' : World),
    0 <= d ->
    socket_new_from_fd d w = Some (r, w') ->
    settles (is_some r) w w'
    /\ match r with
       | Some s =>
           fd s = d /\ blocking s = true /\ timeout s = 0
           /\ listen_backlog s = SOCKET_DEFAULT_BACKLOG
           /\ closed s = false /\ listening s = false
           /\ protocol s
              = match s_family s with
                | SOCKET_FAMILY_UNKNOWN => SOCKET_PROTOCOL_DEFAULT
                | _ => protocol_of_type (type s) SOCKET_PROTOCOL_DEFAULT
                end
           /\ (s_family s = SOCKET_FAMILY_UNKNOWN -> connected s = false)
           /\ exists rest, trace w' = Ioctl_FIONBIO d 1 :: rest
       | None => exists rest, trace w' = Free :: rest
       end.
Proof.
  intros errno_h d w r w' Hd H. unfold socket_new_from_fd in H.
  rewrite (proj2 (Z.ltb_ge d 0) Hd) in H.
  unfold bind at 1 in H.
  destruct (_XX__socket_set_details_from_fd (with_fd d calloc_Socket) w)
    as [[[ok s1] w1] |] eqn:Hdet; [| discriminate H].
  apply set_details_from_fd_frame in Hdet.
  destruct Hdet as (Hfd & Hbl & Hto & Hlb & Hcl & Hli & Hset & Hok).
  socket_fields_in Hfd. socket_fields_in Hli. socket_fields_in Hcl.
  destruct ok; cbn [negb] in H.
  - unfold _XX__socket_set_fd_blocking, socket_set_listen_backlog in H.
    rewrite Hli in H. split_run H; injection H as <- <-; cbn [is_some].
    + split; [| eexists; reflexivity].
      eapply settles_trans; [exact Hset | settled_failure].
    + split; [eapply settles_trans; [exact Hset | settled_success] |].
      destruct (Hok eq_refl) as [Hproto Hconn].
      socket_fields_in Hproto. socket_fields_in Hconn. socket_fields.
      cbn [trace]. rewrite Hfd.
      repeat split; try assumption. eexists; reflexivity.
  - run_monad_in H. injection H as <- <-. cbn [is_some].
    split; [| eexists; reflexivity].
    destruct Hset as (Ho & Hr & He).
    split; [exact Ho |]. split; [| exact He].
    cbn [trace]. rewrite releases_cons. exact Hr.
Qed.

(** X17. [socket_new_from_fd] refuses a negative descriptor without a
    call.  For any other descriptor, a handle it returns holds that
    descriptor, is open, not listening, in blocking mode with no
    time-out and the default backlog 5, its protocol is the one that
    goes with its type when the family is known, and the last thing
    done was to switch the descriptor to non-blocking mode; when it
    returns null an error has been recorded and the handle freed.  In
    neither case is the descriptor closed. *)
Theorem new_from_fd_result :
  forall (errno_h : ErrnoTable) (d : Z) (w : World),
    (d < 0 ->
     exists w', socket_new_from_fd d w = Some (None, w')
                /\ trace w' = trace w
                /\ code (CURRENT_ERROR w')
                   = ErrorIO_value ERROR_IO_INVALID_ARGUMENT)
    /\ (forall (r : option Socket) (w' : World),
          0 <= d ->
          socket_new_from_fd d w = Some (r, w') ->
          settles (is_some r) w w'
          /\ match r with
             | Some s =>
                 fd s = d /\ blocking s = true /\ timeout s = 0
                 /\ listen_backlog s = 5
                 /\ closed s = false /\ listening s = false
                 /\ protocol s
                    = match s_family s with
                      | SOCKET_FAMILY_UNKNOWN => SOCKET_PROTOCOL_DEFAULT
                      | _ => protocol_of_type (type s) SOCKET_PROTOCOL_DEFAULT
                      end
                 /\ (s_family s = SOCKET_FAMILY_UNKNOWN -> connected s = false)
                 /\ exists rest, trace w' = Ioctl_FIONBIO d 1 :: rest
             | None => exists rest, trace w' = Free :: rest
             end).
Proof.
  intros errno_h d w. split.
  - intros Hd. unfold socket_new_from_fd.
    rewrite (proj2 (Z.ltb_lt d 0) Hd). eexists. split; [reflexivity |].
    split; reflexivity.
  - intros r w' Hd H.
    exact (new_from_fd_outcome errno_h d w r w' Hd H).
Qed.

Lemma new_from_fd_result_witness :
  exists s w',
    socket_new_from_fd (errno_h := linux_errno) 4 (scripted from_fd_script)
    = Some (Some s, w')
    /\ fd s = 4 /\ blocking s = true /\ closed s = false.
Proof.
  destruct (socket_new_from_fd (errno_h := linux_errno) 4
              (scripted from_fd_script)) as [[[s |] w'] |] eqn:Hrun;
    [| vm_compute in Hrun; discriminate Hrun
     | vm_compute in Hrun; discriminate Hrun].
  exists s, w'. split; [reflexivity |].
  destruct (proj2 (new_from_fd_result linux_errno 4 (scripted from_fd_script))
              _ _ ltac:(lia) Hrun)
    as (_ & Hfd & Hb & _ & _ & Hc & _).
  repeat split; assumption.
Defined.

Lemma poll_wait_settles (errno_h : ErrnoTable) (fuel : nat) (d : Z)
      (ev : SocketIOCondition) (t : Z) :
  forall (w : World) (b : bool) (w' : World),
    poll_wait fuel d ev t w = Some (b, w') -> settles b w w'.
Proof.
  induction fuel as [| fuel IH]; intros w b w' H; [discriminate H |].
  cbn [poll_wait] in H. run_monad_in H.
  set (w1 := {| os := os w; trace := Poll d ev t :: trace w;
                errno := _; CURRENT_ERROR := _ |}) in *.
  assert (H1 : settles true w w1) by (subst w1; settled_success).
  repeat match type of H with
         | context [if ?c then _ else _] => destruct c
         end.
  - eapply settles_trans; [exact H1 | apply IH; exact H].
  - injection H as <- <-. exact H1.
  - injection H as <- <-. subst w1. settled_failure.
  - injection H as <- <-. subst w1. settled_failure.
Qed.

Lemma select_wait_settles (errno_h : ErrnoTable) (fuel : nat) (s : Socket)
      (cond : SocketIOCondition) (use_tv : bool) :
  forall (w : World) (b : bool) (w' : World),
    select_wait fuel s cond use_tv w = Some (b, w') -> settles b w w'.
Proof.
  induction fuel as [| fuel IH]; intros w b w' H; [discriminate H |].
  cbn [select_wait] in H.
  destruct cond; run_monad_in H;
    match type of H with
    | context [{| os := os ?w0; trace := ?c :: trace ?w0;
                  errno := ?e; CURRENT_ERROR := ?ce |}] =>
        set (w1 := {| os := os w0; trace := c :: trace w0;
                      errno := e; CURRENT_ERROR := ce |}) in *;
        assert (H1 : settles true w0 w1) by (subst w1; settled_success)
    end;
    repeat match type of H with
           | context [if (?c && ?d)%bool then _ else _] =>
               destruct (c && d)%bool
           | context [if r_ret ?c =? ?k then _ else _] =>
               destruct (r_ret c =? k)
           end;
    first [ eapply settles_trans; [exact H1 | apply IH; exact H]
          | injection H as <- <-; exact H1
          | injection H as <- <-; subst w1; settled_failure ].
Qed.

Lemma io_condition_wait_settles (errno_h : ErrnoTable) (build : Build)
      (socket : option Socket) (cond : SocketIOCondition) (fuel : nat)
      (w : World) (b : bool) (w' : World) :
  socket_io_condition_wait socket cond fuel w = Some (b, w') ->
  settles b w w'.
Proof.
  unfold socket_io_condition_wait. destruct socket as [s |].
  - unfold _XX__socket_check. destruct (closed s).
    + run_monad. intros [= <- <-]. settled_failure.
    + unfold bind at 1, ret at 1. cbn [negb]. destruct wait_backend.
      * apply poll_wait_settles.
      * apply select_wait_settles.
  - run_monad. intros [= <- <-]. settled_failure.
Qed.

Lemma blocking_wait_settles (errno_h : ErrnoTable) (build : Build)
      (s : Socket) (cond : SocketIOCondition) (fuel : nat)
      (w : World) (failed : bool) (w' : World) :
  blocking_wait_failed s cond fuel w = Some (failed, w') ->
  settles (negb failed) w w'.
Proof.
  unfold blocking_wait_failed. destruct (blocking s).
  - unfold bind.
    destruct (socket_io_condition_wait (Some s) cond fuel w)
      as [[ready w1] |] eqn:Hw; [| discriminate].
    intros [= <- <-]. rewrite Bool.negb_involutive.
    eapply io_condition_wait_settles; exact Hw.
  - intros [= <- <-]. apply settles_refl.
Qed.

(** One round of a retry loop: the call has been made from [w0], giving
    [w1]; what remains is the analysis of its result. *)
Ltac loop_round H :=
  run_monad_in H;
  match type of H with
  | context [{| os := os ?w0; trace := ?c :: trace ?w0;
                errno := ?e; CURRENT_ERROR := ?ce |}] =>
      let w1 := fresh "w1" in
      let H1 := fresh "H1" in
      set (w1 := {| os := os w0; trace := c :: trace w0;
                    errno := e; CURRENT_ERROR := ce |}) in *;
      assert (H1 : settles true w0 w1) by (subst w1; settled_success)
  end.

(** The rounds of the four transfer loops are alike: a wait, the call,
    and then a retry, a recorded failure or the count returned. *)
Ltac transfer_loop IH H Hw w0 :=
  apply blocking_wait_settles in Hw;
  match type of Hw with
  | settles (negb ?failed) _ _ => destruct failed; cbn [negb] in Hw
  end;
  [ inversion H; subst; split; [exact Hw | lia]
  | loop_round H;
    destruct (Z.ltb_spec (r_ret (os w0 (length (trace w0)))) 0) as [L | L];
    [ match type of H with
      | context [if ?c then _ else _] => destruct c
      end;
      [ apply IH in H; destruct H as [H Hn]; split; [| exact Hn];
        eapply settles_trans; [exact Hw |];
        eapply settles_trans; [eassumption | exact H]
      | match type of H with
        | context [if ?c then _ else _] => destruct c
        end;
        [ apply IH in H; destruct H as [H Hn]; split; [| exact Hn];
          eapply settles_trans; [exact Hw |];
          eapply settles_trans; [eassumption | exact H]
        | inversion H; subst; split; [| lia];
          eapply settles_trans; [exact Hw |]; settled_failure ] ]
    | inversion H; subst; split; [| lia];
      rewrite (proj2 (Z.leb_le 0 _) L);
      eapply settles_trans; [exact Hw | eassumption] ] ].

Lemma receive_retry_settles (errno_h : ErrnoTable) (build : Build)
      (wfuel fuel : nat) (s : Socket) (buffer : list byte) (buflen : Z) :
  forall (w : World) (n : Z) (out : list byte) (w' : World),
    receive_retry wfuel fuel s buffer buflen w = Some ((n, out), w') ->
    settles (0 <=? n) w w' /\ -1 <= n.
Proof.
  induction fuel as [| fuel IH]; intros w n out w' H; [discriminate H |].
  cbn [receive_retry] in H. unfold bind at 1 in H.
  destruct (blocking_wait_failed s SOCKET_IO_CONDITION_POLLIN wfuel w)
    as [[failed w0] |] eqn:Hw; [| discriminate H].
  transfer_loop IH H Hw w0.
Qed.

Lemma receive_from_retry_settles (errno_h : ErrnoTable) (build : Build)
      (wfuel fuel : nat) (s : Socket) (buffer : list byte) (buflen : Z)
      (sa : list byte) (optlen : Z) :
  forall (w : World) (n : Z) (out sa' : list byte) (len' : Z) (w' : World),
    receive_from_retry wfuel fuel s buffer buflen sa optlen w
    = Some ((n, out, sa', len'), w') ->
    settles (0 <=? n) w w' /\ -1 <= n.
Proof.
  induction fuel as [| fuel IH]; intros w n out sa' len' w' H;
    [discriminate H |].
  cbn [receive_from_retry] in H. unfold bind at 1 in H.
  destruct (blocking_wait_failed s SOCKET_IO_CONDITION_POLLIN wfuel w)
    as [[failed w0] |] eqn:Hw; [| discriminate H].
  transfer_loop IH H Hw w0.
Qed.

Lemma send_retry_settles (errno_h : ErrnoTable) (build : Build)
      (wfuel fuel : nat) (s : Socket) (buffer : list byte) (buflen : Z) :
  forall (w : World) (n : Z) (w' : World),
    send_retry wfuel fuel s buffer buflen w = Some (n, w') ->
    settles (0 <=? n) w w' /\ -1 <= n.
Proof.
  induction fuel as [| fuel IH]; intros w n w' H; [discriminate H |].
  cbn [send_retry] in H. unfold bind at 1 in H.
  destruct (blocking_wait_failed s SOCKET_IO_CONDITION_POLLOUT wfuel w)
    as [[failed w0] |] eqn:Hw; [| discriminate H].
  transfer_loop IH H Hw w0.
Qed.

Lemma send_to_retry_settles (errno_h : ErrnoTable) (build : Build)
      (wfuel fuel : nat) (s : Socket) (buffer : list byte) (buflen : Z)
      (sa : list byte) (optlen : Z) :
  forall (w : World) (n : Z) (w' : World),
    send_to_retry wfuel fuel s buffer buflen sa optlen w = Some (n, w') ->
    settles (0 <=? n) w w' /\ -1 <= n.
Proof.
  induction fuel as [| fuel IH]; intros w n w' H; [discriminate H |].
  cbn [send_to_retry] in H. unfold bind at 1 in H.
  destruct (blocking_wait_failed s SOCKET_IO_CONDITION_POLLOUT wfuel w)
    as [[failed w0] |] eqn:Hw; [| discriminate H].
  transfer_loop IH H Hw w0.
Qed.

Lemma accept_retry_settles (errno_h : ErrnoTable) (build : Build)
      (wfuel fuel : nat) (s : Socket) :
  forall (w : World) (r : option Z) (w' : World),
    accept_retry wfuel fuel s w = Some (r, w') ->
    settles (is_some r) w w'
    /\ match r with Some res => 0 <= res | None => True end.
Proof.
  induction fuel as [| fuel IH]; intros w r w' H; [discriminate H |].
  cbn [accept_retry] in H. unfold bind at 1 in H.
  destruct (blocking_wait_failed s SOCKET_IO_CONDITION_POLLIN wfuel w)
    as [[failed w0] |] eqn:Hw; [| discriminate H].
  apply blocking_wait_settles in Hw.
  destruct failed; cbn [negb] in Hw.
  - injection H as <- <-. split; [exact Hw | exact I].
  - loop_round H.
    destruct (Z.ltb_spec (s32 (r_ret (os w0 (length (trace w0))))) 0)
      as [L | L].
    + repeat match type of H with
             | context [if ?c then _ else _] => destruct c
             end;
        first [ apply IH in H; destruct H as [H Hn]; split; [| exact Hn];
                eapply settles_trans; [exact Hw |];
                eapply settles_trans; [exact H1 | exact H]
              | injection H as <- <-; split; [| exact I];
                eapply settles_trans; [exact Hw |]; settled_failure ].
    + injection H as <- <-. split; [| exact L].
      eapply settles_trans; [exact Hw | exact H1].
Qed.

Lemma connect_retry_settles (errno_h : ErrnoTable) (fuel : nat) (d : Z)
      (buffer : list byte) (len : Z) :
  forall (w : World) (r e : Z) (w' : World),
    connect_retry fuel d buffer len w = Some ((r, e), w') ->
    settles true w w'.
Proof.
  induction fuel as [| fuel IH]; intros w r e w' H; [discriminate H |].
  cbn [connect_retry] in H. loop_round H.
  repeat match type of H with
         | context [if ?c then _ else _] => destruct c
         end;
    first [ apply IH in H; eapply settles_trans; [exact H1 | exact H]
          | injection H as <- <- <-; exact H1 ].
Qed.

(** ** Accepting a connection *)

Lemma accept_outcome (errno_h : ErrnoTable) (build : Build) (s : Socket)
      (fuel : nat) (w : World) (r : option Socket) (w' : World) :
  closed s = false ->
  socket_accept (Some s) fuel w = Some (r, w') ->
  exists got w1,
    accept_retry fuel fuel s w = Some (got, w1)
    /\ os w' = os w
    /\ match got, r with
       | None, None => w' = w1 /\ settles false w w'
       | Some res, Some child =>
           0 <= res /\ fd child = res /\ protocol child = protocol s
           /\ blocking child = true /\ timeout child = 0
           /\ listen_backlog child = SOCKET_DEFAULT_BACKLOG
           /\ closed child = false /\ listening child = false
           /\ settles true w w'
       | Some res, None =>
           (exists rest, trace w' = Close res :: Free :: rest)
           /\ releases (trace w') = S (releases (trace w))
           /\ failure_recorded w'
       | None, Some _ => False
       end.
Proof.
  intros Hopen H. unfold socket_accept, _XX__socket_check in H.
  rewrite Hopen in H. unfold bind at 1, ret at 1 in H. cbn [negb] in H.
  unfold bind at 1 in H.
  destruct (accept_retry fuel fuel s w) as [[got w1] |] eqn:Hacc;
    [| discriminate H].
  exists got, w1. split; [reflexivity |].
  apply accept_retry_settles in Hacc. destruct Hacc as [Hset Hres].
  destruct got as [res |]; cbn [is_some] in Hset.
  - run_monad_in H.
    set (wa := {| os := os w1; trace := Fcntl_GETFD res :: trace w1;
                  errno := _; CURRENT_ERROR := _ |}) in *.
    assert (Ha : settles true w wa)
      by (eapply settles_trans; [exact Hset | subst wa; settled_success]).
    match type of H with
    | context [if ?c then _ else _] => destruct c
    end.
    + match type of H with
      | context [socket_new_from_fd res ?wb] =>
          assert (Hb : settles true w wb)
            by (eapply settles_trans; [exact Ha | subst wa; settled_success]);
          destruct (socket_new_from_fd res wb) as [[new w2] |] eqn:Hnew;
            [| discriminate H]
      end.
      apply new_from_fd_outcome in Hnew; [| exact Hres].
      destruct Hnew as [Hs2 Hfields].
      pose proof (settles_trans _ _ _ _ Hb Hs2) as Hall.
      destruct new as [child |]; injection H as <- <-; cbn [is_some] in Hall.
      * destruct Hall as (Ho & Hr & He).
        split; [exact Ho |]. socket_fields.
        destruct Hfields as (F1 & F2 & F3 & F4 & F5 & F6 & _).
        repeat split; assumption.
      * destruct Hall as (Ho & Hr & He).
        cbn [os trace]. split; [exact Ho |].
        destruct Hfields as [rest Hrest].
        split; [rewrite Hrest; eexists; reflexivity |].
        split; [rewrite releases_cons; cbn [Nat.add]; f_equal; exact Hr | exact He].
    + match type of H with
      | context [socket_new_from_fd res ?wb] =>
          destruct (socket_new_from_fd res wb) as [[new w2] |] eqn:Hnew;
            [| discriminate H]
      end.
      apply new_from_fd_outcome in Hnew; [| exact Hres].
      destruct Hnew as [Hs2 Hfields].
      pose proof (settles_trans _ _ _ _ Ha Hs2) as Hall.
      destruct new as [child |]; injection H as <- <-; cbn [is_some] in Hall.
      * destruct Hall as (Ho & Hr & He).
        split; [exact Ho |]. socket_fields.
        destruct Hfields as (F1 & F2 & F3 & F4 & F5 & F6 & _).
        repeat split; assumption.
      * destruct Hall as (Ho & Hr & He).
        cbn [os trace]. split; [exact Ho |].
        destruct Hfields as [rest Hrest].
        split; [rewrite Hrest; eexists; reflexivity |].
        split; [rewrite releases_cons; cbn [Nat.add]; f_equal; exact Hr | exact He].
  - injection H as <- <-. split; [apply Hset |]. split; [reflexivity | exact Hset].
Qed.

(** X18. The handle [socket_accept] returns.  It takes its protocol
    from the listening handle and nothing else: whatever the blocking
    mode and time-out of the listening handle, the new handle is in
    blocking mode with no time-out and the default backlog, open, not
    listening, and holds the non-negative descriptor [accept] handed
    out; the error context is as before the call. *)
Theorem accept_child_handle :
  forall (errno_h : ErrnoTable) (build : Build) (s : Socket) (fuel : nat)
         (w : World) (child : Socket) (w' : World),
    socket_accept (Some s) fuel w = Some (Some child, w') ->
    closed s = false
    /\ protocol child = protocol s
    /\ 0 <= fd child
    /\ blocking child = true /\ timeout child = 0
    /\ listen_backlog child = 5
    /\ closed child = false /\ listening child = false
    /\ CURRENT_ERROR w' = CURRENT_ERROR w.
Proof.
  intros errno_h build s fuel w child w' H.
  destruct (closed s) eqn:Hc.
  { unfold socket_accept, _XX__socket_check in H. rewrite Hc in H.
    run_monad_in H. discriminate H. }
  destruct (accept_outcome _ _ _ _ _ _ _ Hc H) as (got & w0 & _ & _ & Hout).
  destruct got as [res |]; [| contradiction].
  destruct Hout as (Hres & Hfd & Hp & Hb & Ht & Hl & Hcl & Hli & Hset).
  rewrite Hfd. repeat split; try assumption. apply Hset.
Qed.

Lemma accept_child_handle_witness :
  exists child w',
    socket_accept (errno_h := linux_errno) (build := linux_poll)
      (Some (with_protocol SOCKET_PROTOCOL_SCTP sample_socket)) 1
      (scripted accept_script) = Some (Some child, w')
    /\ protocol child = SOCKET_PROTOCOL_SCTP /\ blocking child = true.
Proof.
  destruct (socket_accept (errno_h := linux_errno) (build := linux_poll)
              (Some (with_protocol SOCKET_PROTOCOL_SCTP sample_socket)) 1
              (scripted accept_script)) as [[[child |] w'] |] eqn:Hrun;
    [| vm_compute in Hrun; discriminate Hrun
     | vm_compute in Hrun; discriminate Hrun].
  exists child, w'. split; [reflexivity |].
  destruct (accept_child_handle _ _ _ _ _ _ _ Hrun)
    as (_ & Hp & _ & Hb & _).
  split; [exact Hp | exact Hb].
Defined.

(** X19. [socket_accept] does not leak the descriptor it accepted: when
    it returns null on an open handle, either its loop ended without a
    descriptor and nothing else was done, or the descriptor the loop
    obtained has been closed, right after the half-made handle was
    freed. *)
Theorem accept_failure_closes_descriptor :
  forall (errno_h : ErrnoTable) (build : Build) (s : Socket) (fuel : nat)
         (w w' : World),
    closed s = false ->
    socket_accept (Some s) fuel w = Some (None, w') ->
    exists got w1,
      accept_retry fuel fuel s w = Some (got, w1)
      /\ match got with
         | None => w' = w1
         | Some res =>
             (exists rest, trace w' = Close res :: Free :: rest)
             /\ releases (trace w') = S (releases (trace w))
         end.
Proof.
  intros errno_h build s fuel w w' Hc H.
  destruct (accept_outcome _ _ _ _ _ _ _ Hc H) as (got & w0 & Hacc & _ & Hout).
  exists got, w0. split; [exact Hacc |].
  destruct got as [res |]; [| apply Hout].
  destruct Hout as (Ht & Hr & _). split; assumption.
Qed.

Lemma accept_failure_closes_descriptor_witness :
  exists w',
    socket_accept (errno_h := linux_errno) (build := linux_poll)
      (Some sample_socket) 1 (scripted accept_script_failing)
    = Some (None, w')
    /\ releases (trace w') = 1%nat.
Proof.
  destruct (socket_accept (errno_h := linux_errno) (build := linux_poll)
              (Some sample_socket) 1 (scripted accept_script_failing))
    as [[[child |] w'] |] eqn:Hrun;
    [ vm_compute in Hrun; discriminate Hrun
    | | vm_compute in Hrun; discriminate Hrun].
  exists w'. split; [reflexivity |].
  destruct (accept_failure_closes_descriptor linux_errno linux_poll sample_socket 1 _ _ eq_refl Hrun)
    as (got & w1 & Hacc & Hout).
  vm_compute in Hacc. injection Hacc as <- <-.
  exact (proj2 Hout).
Defined.

(** ** What every operation leaves behind *)

Ltac settle_guard s :=
  unfold _XX__socket_check; destruct (closed s);
  [ run_monad; intros [= <- <-]; settled_failure
  | unfold bind at 1, ret at 1; cbn [negb] ].

Lemma bind_settles (errno_h : ErrnoTable) (socket : option Socket)
      (address : option SocketAddress) (reuse : bool)
      (w : World) (b : bool) (w' : World) :
  socket_bind socket address reuse w = Some (b, w') -> settles b w w'.
Proof.
  unfold socket_bind.
  destruct socket as [s |], address as [a |];
    try (run_monad; intros [= <- <-]; settled_failure).
  settle_guard s.
  destruct (socket_address_to_native _ _ _); run_monad.
  - destruct (r_ret _ <? 0); intros [= <- <-];
      [settled_failure | settled_success].
  - intros [= <- <-]. settled_failure.
Qed.

Lemma check_connect_result_settles (errno_h : ErrnoTable)
      (socket : option Socket) (w : World) (b : bool)
      (s' : option Socket) (w' : World) :
  socket_check_connect_result socket w = Some ((b, s'), w') ->
  settles b w w'.
Proof.
  unfold socket_check_connect_result. destruct socket as [s |]; run_monad.
  - destruct (r_ret _ <? 0); [intros [= <- <- <-]; settled_failure |].
    destruct (r_val _ =? 0); cbn [negb]; intros [= <- <- <-];
      [settled_success | settled_failure].
  - intros [= <- <- <-]. settled_failure.
Qed.

Lemma connect_settles (errno_h : ErrnoTable) (build : Build)
      (socket : option Socket) (address : option SocketAddress)
      (fuel : nat) (w : World) (b : bool) (s' : option Socket) (w' : World) :
  socket_connect socket address fuel w = Some ((b, s'), w') ->
  settles b w w'.
Proof.
  unfold socket_connect.
  destruct socket as [s |], address as [a |];
    try (run_monad; intros [= <- <- <-]; settled_failure).
  unfold _XX__socket_check; destruct (closed s);
    [run_monad; intros [= <- <- <-]; settled_failure |].
  unfold bind at 1, ret at 1; cbn [negb].
  destruct (socket_address_to_native _ _ _) as [buffer |];
    [| run_monad; intros [= <- <- <-]; settled_failure].
  unfold bind at 1.
  destruct (connect_retry _ _ _ _ w) as [[[r e] w1] |] eqn:Hc;
    [| discriminate].
  apply connect_retry_settles in Hc.
  destruct (r =? 0); [intros [= <- <- <-]; exact Hc |].
  destruct (_ || _)%bool.
  - destruct (blocking s).
    + unfold bind at 1.
      destruct (socket_io_condition_wait (Some s) _ fuel w1)
        as [[ready w2] |] eqn:Hw; [| discriminate].
      apply io_condition_wait_settles in Hw.
      destruct ready.
      * unfold bind at 1.
        destruct (socket_check_connect_result (Some s) w2)
          as [[[checked s2] w3] |] eqn:Hk; [| discriminate].
        apply check_connect_result_settles in Hk.
        destruct checked; intros [= <- <- <-];
          (eapply settles_trans; [exact Hc |]);
          (eapply settles_trans; [exact Hw | exact Hk]).
      * intros [= <- <- <-]. eapply settles_trans; [exact Hc | exact Hw].
    + run_monad. intros [= <- <- <-].
      eapply settles_trans; [exact Hc | settled_failure].
  - run_monad. intros [= <- <- <-].
    eapply settles_trans; [exact Hc | settled_failure].
Qed.

Lemma listen_settles (errno_h : ErrnoTable) (socket : option Socket)
      (w : World) (b : bool) (s' : option Socket) (w' : World) :
  socket_listen socket w = Some ((b, s'), w') -> settles b w w'.
Proof.
  unfold socket_listen. destruct socket as [s |];
    [| run_monad; intros [= <- <- <-]; settled_failure].
  unfold _XX__socket_check; destruct (closed s);
    [run_monad; intros [= <- <- <-]; settled_failure |].
  run_monad. destruct (r_ret _ <? 0); intros [= <- <- <-];
    [settled_failure | settled_success].
Qed.

Lemma receive_settles (errno_h : ErrnoTable) (build : Build)
      (socket : option Socket) (buffer : option (list byte)) (buflen : Z)
      (fuel : nat) (w : World) (n : Z) (out : option (list byte))
      (w' : World) :
  socket_receive socket buffer buflen fuel w = Some ((n, out), w') ->
  settles (0 <=? n) w w' /\ -1 <= n.
Proof.
  unfold socket_receive.
  destruct socket as [s |], buffer as [buf |];
    try (run_monad; intros [= <- <- <-]; split; [settled_failure | lia]).
  unfold _XX__socket_check; destruct (closed s);
    [run_monad; intros [= <- <- <-]; split; [settled_failure | lia] |].
  unfold bind at 1, ret at 1; cbn [negb]. unfold bind at 1.
  destruct (receive_retry fuel fuel s buf buflen w) as [[[m out'] w1] |] eqn:Hr;
    [| discriminate].
  intros [= <- <- <-]. eapply receive_retry_settles; exact Hr.
Qed.

Lemma receive_from_settles (errno_h : ErrnoTable) (build : Build)
      (socket : option Socket) (address : option (option SocketAddress))
      (buffer : option (list byte)) (buflen : Z)
      (fuel : nat) (w : World) (n : Z) (out : option (list byte))
      (from : option (option SocketAddress)) (w' : World) :
  socket_receive_from socket address buffer buflen fuel w
  = Some ((n, out, from), w') ->
  settles (0 <=? n) w w' /\ -1 <= n.
Proof.
  unfold socket_receive_from.
  destruct socket as [s |], buffer as [buf |];
    try (run_monad; intros [= <- <- <- <-]; split; [settled_failure | lia]).
  destruct (buflen =? 0);
    [run_monad; intros [= <- <- <- <-]; split; [settled_failure | lia] |].
  unfold _XX__socket_check; destruct (closed s);
    [run_monad; intros [= <- <- <- <-]; split; [settled_failure | lia] |].
  unfold bind at 1, ret at 1; cbn [negb]. unfold bind at 1.
  destruct (receive_from_retry fuel fuel s buf buflen _ _ w)
    as [[[[[m out'] sa] len] w1] |] eqn:Hr; [| discriminate].
  apply receive_from_retry_settles in Hr.
  destruct (m <? 0); [| destruct address]; intros [= <- <- <- <-]; exact Hr.
Qed.

Lemma send_settles (errno_h : ErrnoTable) (build : Build)
      (socket : option Socket) (buffer : option (list byte)) (buflen : Z)
      (fuel : nat) (w : World) (n : Z) (w' : World) :
  socket_send socket buffer buflen fuel w = Some (n, w') ->
  settles (0 <=? n) w w' /\ -1 <= n.
Proof.
  unfold socket_send.
  destruct socket as [s |], buffer as [buf |];
    try (run_monad; intros [= <- <-]; split; [settled_failure | lia]).
  destruct (buflen =? 0);
    [run_monad; intros [= <- <-]; split; [settled_failure | lia] |].
  unfold _XX__socket_check; destruct (closed s);
    [run_monad; intros [= <- <-]; split; [settled_failure | lia] |].
  unfold bind at 1, ret at 1; cbn [negb].
  apply send_retry_settles.
Qed.

Lemma send_to_settles (errno_h : ErrnoTable) (build : Build)
      (socket : option Socket) (address : option SocketAddress)
      (buffer : option (list byte)) (buflen : Z)
      (fuel : nat) (w : World) (n : Z) (w' : World) :
  socket_send_to socket address buffer buflen fuel w = Some (n, w') ->
  settles (0 <=? n) w w' /\ -1 <= n.
Proof.
  unfold socket_send_to.
  destruct socket as [s |], address as [a |], buffer as [buf |];
    try (run_monad; intros [= <- <-]; split; [settled_failure | lia]).
  unfold _XX__socket_check; destruct (closed s);
    [run_monad; intros [= <- <-]; split; [settled_failure | lia] |].
  unfold bind at 1, ret at 1; cbn [negb].
  destruct (socket_address_to_native _ _ _) as [sa |];
    [| run_monad; intros [= <- <-]; split; [settled_failure | lia]].
  apply send_to_retry_settles.
Qed.

Lemma shutdown_settles (errno_h : ErrnoTable) (socket : option Socket)
      (rd wr : bool) (w : World) (b : bool) (s' : option Socket)
      (w' : World) :
  socket_shutdown socket rd wr w = Some ((b, s'), w') -> settles b w w'.
Proof.
  unfold socket_shutdown. destruct socket as [s |];
    [| run_monad; intros [= <- <- <-]; settled_failure].
  unfold _XX__socket_check; destruct (closed s);
    [run_monad; intros [= <- <- <-]; settled_failure |].
  run_monad.
  destruct rd, wr; cbn [negb andb];
    try (intros [= <- <- <-]; apply settles_refl);
    destruct (r_ret _ =? 0); intros [= <- <- <-];
    first [settled_success | settled_failure].
Qed.

Lemma set_buffer_size_settles (errno_h : ErrnoTable)
      (socket : option Socket) (dir : SocketDirection) (size : Z)
      (w : World) (b : bool) (w' : World) :
  socket_set_buffer_size socket dir size w = Some (b, w') -> settles b w w'.
Proof.
  unfold socket_set_buffer_size. destruct socket as [s |];
    [| run_monad; intros [= <- <-]; settled_failure].
  settle_guard s. run_monad.
  destruct (r_ret _ =? 0); cbn [negb]; intros [= <- <-];
    [settled_success | settled_failure].
Qed.

Lemma settles_count (n : Z) (w w' : World) :
  settles (0 <=? n) w w' /\ -1 <= n -> settles (negb (n =? -1)) w w'.
Proof.
  intros [H Hn].
  destruct (Z.eqb_spec n (-1)) as [-> | Hne]; cbn [negb]; [exact H |].
  rewrite (proj2 (Z.leb_le 0 n)) in H by lia. exact H.
Qed.

Lemma operation_outcome (errno_h : ErrnoTable) (build : Build)
      (op : Operation) (socket : option Socket) (fuel : nat)
      (w : World) (failed : bool) (w' : World) :
  returns_failure op socket fuel w = Some (failed, w') ->
  (if failed then failure_recorded w'
   else CURRENT_ERROR w' = CURRENT_ERROR w)
  /\ (releases (trace w') = releases (trace w)
      \/ (op = OpAccept /\ failed = true
          /\ releases (trace w') = S (releases (trace w)))).
Proof.
  assert (Hsettled : forall b, settles (negb b) w w' ->
            (if b then failure_recorded w'
             else CURRENT_ERROR w' = CURRENT_ERROR w)
            /\ (releases (trace w') = releases (trace w)
                \/ (op = OpAccept /\ b = true
                    /\ releases (trace w') = S (releases (trace w))))).
  { intros b (_ & Hr & He). split; [| left; exact Hr].
    destruct b; exact He. }
  destruct op; unfold returns_failure, bind at 1.
  - destruct (socket_bind _ _ _ w) as [[b w1] |] eqn:H; [| discriminate].
    intros [= <- <-]. apply Hsettled. rewrite Bool.negb_involutive.
    eapply bind_settles; exact H.
  - destruct (socket_connect _ _ _ w) as [[[b s1] w1] |] eqn:H;
      [| discriminate].
    intros [= <- <-]. apply Hsettled. rewrite Bool.negb_involutive.
    eapply connect_settles; exact H.
  - destruct (socket_listen _ w) as [[[b s1] w1] |] eqn:H; [| discriminate].
    intros [= <- <-]. apply Hsettled. rewrite Bool.negb_involutive.
    eapply listen_settles; exact H.
  - destruct (socket_accept _ _ w) as [[r w1] |] eqn:H; [| discriminate].
    intros [= <- <-]. destruct socket as [s |].
    + destruct (closed s) eqn:Hc.
      * unfold socket_accept, _XX__socket_check in H. rewrite Hc in H.
        run_monad_in H. injection H as <- <-. apply Hsettled.
        settled_failure.
      * destruct (accept_outcome _ _ _ _ _ _ _ Hc H)
          as (got & w0 & _ & _ & Hout).
        destruct got as [res |], r as [child |]; cbn [is_some negb].
        -- apply (Hsettled false). apply Hout.
        -- destruct Hout as (_ & Hrel & Hrec).
           split; [exact Hrec | right; repeat split; exact Hrel].
        -- contradiction.
        -- apply (Hsettled true). apply Hout.
    + run_monad_in H. injection H as <- <-. apply Hsettled. settled_failure.
  - destruct (socket_receive _ _ _ _ w) as [[[n out] w1] |] eqn:H;
      [| discriminate].
    intros [= <- <-]. apply Hsettled. apply settles_count.
    eapply receive_settles; exact H.
  - destruct (socket_receive_from _ _ _ _ _ w)
      as [[[[n out] from] w1] |] eqn:H; [| discriminate].
    intros [= <- <-]. apply Hsettled. apply settles_count.
    eapply receive_from_settles; exact H.
  - destruct (socket_send _ _ _ _ w) as [[n w1] |] eqn:H; [| discriminate].
    intros [= <- <-]. apply Hsettled. apply settles_count.
    eapply send_settles; exact H.
  - destruct (socket_send_to _ _ _ _ _ w) as [[n w1] |] eqn:H;
      [| discriminate].
    intros [= <- <-]. apply Hsettled. apply settles_count.
    eapply send_to_settles; exact H.
  - destruct (socket_shutdown _ _ _ w) as [[[b s1] w1] |] eqn:H;
      [| discriminate].
    intros [= <- <-]. apply Hsettled. rewrite Bool.negb_involutive.
    eapply shutdown_settles; exact H.
  - destruct (socket_set_buffer_size _ _ _ w) as [[b w1] |] eqn:H;
      [| discriminate].
    intros [= <- <-]. apply Hsettled. rewrite Bool.negb_involutive.
    eapply set_buffer_size_settles; exact H.
  - destruct (socket_io_condition_wait _ _ _ w) as [[b w1] |] eqn:H;
      [| discriminate].
    intros [= <- <-]. apply Hsettled. rewrite Bool.negb_involutive.
    eapply io_condition_wait_settles; exact H.
Qed.

(** X20. The error context follows the result of every operation (bind,
    connect, listen, accept, the four transfer functions, shutdown,
    set_buffer_size, io_condition_wait), on any handle and with any
    arguments: when the operation returns its failure sentinel the
    context holds a message and the value of an error kind, and when it
    succeeds the context is exactly as it was before the call. *)
Theorem operations_report_errors :
  forall (errno_h : ErrnoTable) (build : Build) (op : Operation)
         (socket : option Socket) (fuel : nat)
         (w : World) (failed : bool) (w' : World),
    returns_failure op socket fuel w = Some (failed, w') ->
    if failed then failure_recorded w'
    else CURRENT_ERROR w' = CURRENT_ERROR w.
Proof.
  intros errno_h build op socket fuel w failed w' H.
  exact (proj1 (operation_outcome _ _ _ _ _ _ _ _ H)).
Qed.

(** A [recv] that would block on a non-blocking handle. *)
Lemma operations_report_errors_witness :
  exists w',
    returns_failure (errno_h := linux_errno) (build := linux_poll)
      (OpReceive (Some [x00]) 1) (Some sample_socket) 1
      (scripted [reply (-1) (Some 11)]) = Some (true, w')
    /\ failure_recorded w'.
Proof.
  destruct (returns_failure (errno_h := linux_errno) (build := linux_poll)
              (OpReceive (Some [x00]) 1) (Some sample_socket) 1
              (scripted [reply (-1) (Some 11)]))
    as [[[|] w'] |] eqn:Hrun;
    [| vm_compute in Hrun; discriminate Hrun
     | vm_compute in Hrun; discriminate Hrun].
  exists w'. split; [reflexivity |].
  exact (operations_report_errors _ _ _ _ _ _ _ _ Hrun).
Defined.

(** X21. No operation closes a descriptor, with one exception:
    [socket_accept], when it fails after [accept] has handed out a
    descriptor, closes that one descriptor. *)
Theorem operations_close_nothing :
  forall (errno_h : ErrnoTable) (build : Build) (op : Operation)
         (socket : option Socket) (fuel : nat)
         (w : World) (failed : bool) (w' : World),
    returns_failure op socket fuel w = Some (failed, w') ->
    releases (trace w') = releases (trace w)
    \/ (op = OpAccept /\ failed = true
        /\ releases (trace w') = S (releases (trace w))).
Proof.
  intros errno_h build op socket fuel w failed w' H.
  exact (proj2 (operation_outcome _ _ _ _ _ _ _ _ H)).
Qed.

Lemma operations_close_nothing_witness :
  exists w',
    returns_failure (errno_h := linux_errno) (build := linux_poll)
      OpAccept (Some sample_socket) 1 (scripted accept_script)
    = Some (false, w')
    /\ releases (trace w') = 0%nat.
Proof.
  destruct (returns_failure (errno_h := linux_errno) (build := linux_poll)
              OpAccept (Some sample_socket) 1 (scripted accept_script))
    as [[[|] w'] |] eqn:Hrun;
    [ vm_compute in Hrun; discriminate Hrun
    | | vm_compute in Hrun; discriminate Hrun].
  exists w'. split; [reflexivity |].
  destruct (operations_close_nothing _ _ _ _ _ _ _ _ Hrun)
    as [Hsame | (_ & Hfailed & _)]; [exact Hsame | discriminate Hfailed].
Defined.

(** ** Connecting and binding *)


(** X22. The answer of [connect] that is not an interruption decides
    [socket_connect] when it is final.  Answer 0: the call returns
    [true], the handle is marked connected and no error is recorded.
    A failure that is classified neither as would-block nor as
    in-progress: the call returns [false], the handle is unchanged,
    blocking or not, no readiness wait is made, and the classified
    kind is recorded with the error number as native code. *)
Theorem connect_first_answer :
  forall (errno_h : ErrnoTable) (build : Build)
         (s : Socket) (a : SocketAddress) (w : World)
         (ints : list Reply) (r : Reply) (fuel : nat),
    closed s = false ->
    family a <> SOCKET_FAMILY_UNKNOWN ->
    Forall interrupted ints ->
    next_replies w (ints ++ [r]) ->
    (length ints < fuel)%nat ->
    exists buffer len,
      (r_ret r = 0 ->
       exists w',
         socket_connect (Some s) (Some a) fuel w
         = Some ((true, Some (with_connected true s)), w')
         /\ CURRENT_ERROR w' = CURRENT_ERROR w
         /\ trace w' = repeat (Connect (fd s) buffer len) (S (length ints))
                       ++ trace w)
      /\ (forall e,
            r_ret r <> 0 -> r_errno r = Some e -> e <> EINTR ->
            error_get_io_from_system e <> ERROR_IO_WOULD_BLOCK ->
            error_get_io_from_system e <> ERROR_IO_IN_PROGRESS ->
            exists w',
              socket_connect (Some s) (Some a) fuel w
              = Some ((false, Some s), w')
              /\ code (CURRENT_ERROR w')
                 = ErrorIO_value (error_get_io_from_system e)
              /\ native_code (CURRENT_ERROR w') = e
              /\ trace w' = repeat (Connect (fd s) buffer len)
                              (S (length ints)) ++ trace w).
Proof.
  intros errno_h build s a w ints r fuel Hopen Hfam Hints Hnext Hfuel.
  unfold socket_connect, _XX__socket_check. rewrite Hopen.
  destruct (to_native_storage a Hfam) as (buffer & ->).
  set (len := u32 (socket_address_get_native_size (Some a))).
  set (buf := firstn (Z.to_nat len) buffer).
  exists buf, len.
  replace fuel with (length ints + S (fuel - length ints - 1))%nat by lia.
  destruct (connect_retry_interrupted (fd s) buf len ints [r]
              (S (fuel - length ints - 1)) Hints w Hnext)
    as (w1 & Hrun & Ht1 & Hc1 & Hn1).
  destruct (call_next (Connect (fd s) buf len) w1 r [] Hn1)
    as (w2 & Hcall & Ht2 & _ & He2 & Hc2 & _).
  split; [intros Hret | intros e Hret Herr Hne Hwb Hip];
    unfold bind at 1; cbn [ret negb]; unfold bind at 1; rewrite Hrun;
    cbn [connect_retry]; unfold bind at 1; rewrite Hcall.
  - rewrite Hret. cbn [Z.eqb ret].
    exists w2. split; [reflexivity |]. split; [congruence |].
    rewrite Ht2, Ht1. reflexivity.
  - rewrite (proj2 (Z.eqb_neq (r_ret r) 0) Hret).
    unfold bind at 1, error_get_last_net, error_get_last_system.
    rewrite He2, Herr. rewrite (proj2 (Z.eqb_neq e EINTR) Hne).
    cbn [ret]. rewrite ?(proj2 (Z.eqb_neq (r_ret r) 0) Hret).
    assert (Hk : ErrorIO_eqb (error_get_io_from_system e) ERROR_IO_WOULD_BLOCK
                 || ErrorIO_eqb (error_get_io_from_system e)
                      ERROR_IO_IN_PROGRESS = false).
    { destruct (error_get_io_from_system e); try reflexivity; congruence. }
    rewrite Hk. eexists. split; [reflexivity |].
    cbn [code native_code CURRENT_ERROR trace]. repeat split.
    rewrite Ht2, Ht1. reflexivity.
Qed.

(** [connect] is refused ([ECONNREFUSED]) on a blocking handle. *)
Lemma connect_first_answer_witness :
  exists w',
    socket_connect (errno_h := linux_errno) (build := linux_poll)
      (Some sample_blocking_socket) (Some sample_address4) 1
      (scripted [reply (-1) (Some 111)])
    = Some ((false, Some sample_blocking_socket), w')
    /\ code (CURRENT_ERROR w') = ErrorIO_value ERROR_IO_CONNECTION_REFUSED.
Proof.
  destruct (connect_first_answer linux_errno linux_poll
              sample_blocking_socket sample_address4
              (scripted [reply (-1) (Some 111)]) [] (reply (-1) (Some 111)) 1
              eq_refl ltac:(discriminate) (Forall_nil _)
              (scripted_next_replies _) ltac:(simpl; lia))
    as (buffer & len & _ & Hfail).
  destruct (Hfail 111 ltac:(discriminate) eq_refl ltac:(discriminate)
              ltac:(discriminate) ltac:(discriminate))
    as (w' & Hrun & Hcode & _).
  exists w'. split; [exact Hrun | exact Hcode].
Defined.



(** X24. [socket_bind] on an open handle with an address of known
    family makes three calls: [SO_REUSEADDR] with the flag given,
    [SO_REUSEPORT] with 1 only for a datagram handle with the flag set,
    and [bind] with the native form of the address in its native size.
    The answers to the two [setsockopt] calls are not looked at: the
    result is [true] exactly when [bind] does not fail, and then no
    error is recorded. *)
Theorem bind_behaviour :
  forall (errno_h : ErrnoTable) (s : Socket) (a : SocketAddress)
         (reuse : bool) (w : World),
    closed s = false ->
    family a <> SOCKET_FAMILY_UNKNOWN ->
    exists native w',
      socket_address_to_native (Some a) (Some sockaddr_storage)
        (Z.of_nat sizeof_sockaddr_storage) = Some native
      /\ socket_bind (Some s) (Some a) reuse w
         = Some (negb (r_ret (os w (2 + length (trace w))) <? 0), w')
      /\ trace w'
         = [Bind (fd s)
              (firstn (Z.to_nat (socket_address_get_native_size (Some a)))
                 native)
              (socket_address_get_native_size (Some a));
            Setsockopt (fd s) SO_REUSEPORT
              (if reuse
               then match type s with SOCKET_TYPE_DATAGRAM => 1 | _ => 0 end
               else 0);
            Setsockopt (fd s) SO_REUSEADDR (if reuse then 1 else 0)]
           ++ trace w
      /\ (0 <= r_ret (os w (2 + length (trace w))) ->
          CURRENT_ERROR w' = CURRENT_ERROR w).
Proof.
  intros errno_h s a reuse w Hopen Hfam.
  destruct (to_native_storage a Hfam) as (native & Hnat).
  exists native. unfold socket_bind, _XX__socket_check.
  rewrite Hopen, Hnat. run_monad. cbn [length].
  assert (Hsize : u32 (socket_address_get_native_size (Some a))
                  = socket_address_get_native_size (Some a)).
  { unfold socket_address_get_native_size.
    destruct (family a); reflexivity. }
  rewrite Hsize.
  assert (Hport : (if reuse && (SocketType_value (type s)
                                =? SocketType_value SOCKET_TYPE_DATAGRAM)
                   then 1 else 0)
                  = (if reuse
                     then match type s with
                          | SOCKET_TYPE_DATAGRAM => 1 | _ => 0 end
                     else 0)).
  { destruct reuse, (type s); reflexivity. }
  rewrite Hport.
  destruct (Z.ltb_spec (r_ret (os w (S (S (length (trace w)))))) 0) as [L | L];
    eexists; (split; [reflexivity |]); cbn [negb Nat.add];
    (split; [first [ rewrite (proj2 (Z.ltb_lt _ _) L)
                   | rewrite (proj2 (Z.ltb_ge _ _) L) ]; reflexivity |]);
    cbn [trace CURRENT_ERROR app]; (split; [reflexivity |]);
    intros; first [lia | reflexivity].
Qed.

(** A stream handle asked to reuse the address: [SO_REUSEPORT] gets 0. *)
Lemma bind_behaviour_witness :
  exists w',
    socket_bind (errno_h := linux_errno) (Some sample_socket)
      (Some sample_address4) true (scripted []) = Some (true, w')
    /\ trace w' = [Bind 3 sample_sockaddr_in 16;
                   Setsockopt 3 SO_REUSEPORT 0; Setsockopt 3 SO_REUSEADDR 1].
Proof.
  destruct (bind_behaviour linux_errno sample_socket sample_address4 true
              (scripted []) eq_refl ltac:(discriminate))
    as (native & w' & Hnat & Hrun & Htrace & _).
  exists w'. split; [exact Hrun |].
  vm_compute in Hnat. injection Hnat as <-. exact Htrace.
Defined.

(** ** Transfers and readiness *)

(** X25. A blocking transfer waits before it transfers, and when that
    wait ends with answer 0 (the time-out elapsed), interruptions
    apart, the operation fails with the timed-out kind and the
    transfer call itself is never made: this holds for
    [socket_receive], for [socket_send] and for [socket_accept], which
    then only made the calls of the readiness wait. *)
Theorem elapsed_wait_fails_operation :
  forall (errno_h : ErrnoTable) (build : Build) (s : Socket)
         (buf : list byte) (buflen : Z) (w : World)
         (ints : list Reply) (r : Reply) (fuel : nat),
    closed s = false ->
    blocking s = true ->
    Forall interrupted ints ->
    next_replies w (ints ++ [r]) ->
    r_ret r = 0 ->
    (length ints < fuel)%nat ->
    let timed_out := fun (cond : SocketIOCondition) (w' : World) =>
      code (CURRENT_ERROR w') = ErrorIO_value ERROR_IO_TIMED_OUT
      /\ trace w'
         = repeat (if 0 <? timeout s
                   then bounded_wait_call s cond (timeout s)
                   else unbounded_wait_call s cond) (S (length ints))
           ++ trace w in
    (exists w',
       socket_receive (Some s) (Some buf) buflen fuel w
       = Some ((-1, Some buf), w')
       /\ timed_out SOCKET_IO_CONDITION_POLLIN w')
    /\ (buflen <> 0 ->
        exists w',
          socket_send (Some s) (Some buf) buflen fuel w = Some (-1, w')
          /\ timed_out SOCKET_IO_CONDITION_POLLOUT w')
    /\ (exists w',
          socket_accept (Some s) fuel w = Some (None, w')
          /\ timed_out SOCKET_IO_CONDITION_POLLIN w').
Proof.
  intros errno_h build s buf buflen w ints r fuel Hopen Hbl Hints Hnext
         Hret Hfuel timed_out.
  assert (Hwait : forall cond,
            exists w', blocking_wait_failed s cond fuel w = Some (true, w')
                       /\ timed_out cond w').
  { intros cond. unfold blocking_wait_failed. rewrite Hbl.
    destruct (io_condition_wait_run s cond w ints r fuel Hopen Hints Hnext
                Hfuel) as (b & w' & w1 & Hrun & Htrace & _ & Hout).
    { intros Hm. rewrite Hret in Hm. discriminate Hm. }
    unfold bind. rewrite Hrun. exists w'.
    inversion Hout as [w0 H1 _ | w0 _ Ht Hc | w0 msg _ H0 _ _];
      [lia | subst | lia].
    split; [reflexivity |]. split; [rewrite Hc; reflexivity | exact Htrace]. }
  destruct fuel as [| fuel']; [lia |].
  split; [| split].
  - destruct (Hwait SOCKET_IO_CONDITION_POLLIN) as (w' & Hrun & Hout).
    exists w'. split; [| exact Hout].
    unfold socket_receive, _XX__socket_check. rewrite Hopen.
    unfold bind at 1, ret at 1. cbn [negb]. unfold bind at 1.
    cbn [receive_retry]. unfold bind at 1. rewrite Hrun. reflexivity.
  - intros Hlen. destruct (Hwait SOCKET_IO_CONDITION_POLLOUT)
      as (w' & Hrun & Hout).
    exists w'. split; [| exact Hout].
    unfold socket_send, _XX__socket_check.
    rewrite (proj2 (Z.eqb_neq buflen 0) Hlen), Hopen.
    unfold bind at 1, ret at 1. cbn [negb].
    cbn [send_retry]. unfold bind at 1. rewrite Hrun. reflexivity.
  - destruct (Hwait SOCKET_IO_CONDITION_POLLIN) as (w' & Hrun & Hout).
    exists w'. split; [| exact Hout].
    unfold socket_accept, _XX__socket_check. rewrite Hopen.
    unfold bind at 1, ret at 1. cbn [negb]. unfold bind at 1.
    cbn [accept_retry]. unfold bind at 1. rewrite Hrun. reflexivity.
Qed.

(** The blocking sample handle, one interruption, then the time-out. *)
Lemma elapsed_wait_fails_operation_witness :
  exists w',
    socket_receive (errno_h := linux_errno) (build := linux_poll)
      (Some (with_timeout 250 sample_blocking_socket)) (Some [x00]) 1 2
      (scripted [reply (-1) (Some 4); reply 0 None])
    = Some ((-1, Some [x00]), w')
    /\ trace w' = [Poll 3 SOCKET_IO_CONDITION_POLLIN 250;
                   Poll 3 SOCKET_IO_CONDITION_POLLIN 250].
Proof.
  assert (Hints : Forall (@interrupted linux_errno) [reply (-1) (Some 4)])
    by (repeat constructor).
  destruct (elapsed_wait_fails_operation linux_errno linux_poll
              (with_timeout 250 sample_blocking_socket) [x00] 1
              (scripted [reply (-1) (Some 4); reply 0 None])
              [reply (-1) (Some 4)] (reply 0 None) 2
              eq_refl eq_refl Hints (scripted_next_replies _) eq_refl
              ltac:(simpl; lia))
    as ((w' & Hrun & _ & Htrace) & _).
  exists w'. split; [exact Hrun | exact Htrace].
Defined.

Lemma repeat_snoc_cons {A} (x : A) (k : nat) (t : list A) :
  repeat x k ++ x :: t = repeat x (S k) ++ t.
Proof.
  induction k as [| k IH]; [reflexivity |].
  cbn [repeat app]. rewrite IH. reflexivity.
Qed.

(** A round of a transfer loop on a non-blocking handle: no wait, the
    call, and then a retry or the end. *)
Ltac nonblocking_loop IH H Hnb :=
  unfold bind at 1, blocking_wait_failed in H; rewrite Hnb in H;
  run_monad_in H;
  repeat match type of H with
         | context [if ?b then _ else _] => destruct b
         end;
  first [ apply IH in H; destruct H as [k H]; exists (S k);
          rewrite H; cbn [trace]; apply repeat_snoc_cons
        | inversion H; subst; exists 1%nat; reflexivity ].

Lemma receive_retry_nonblocking (errno_h : ErrnoTable) (build : Build)
      (wfuel fuel : nat) (s : Socket) (buffer : list byte) (buflen : Z) :
  blocking s = false ->
  forall (w : World) (res : Z * list byte) (w' : World),
    receive_retry wfuel fuel s buffer buflen w = Some (res, w') ->
    exists k, trace w' = repeat (Recv (fd s) (u32 buflen) 0) k ++ trace w.
Proof.
  intros Hnb. induction fuel as [| fuel IH]; intros w res w' H;
    [discriminate H |].
  cbn [receive_retry] in H. nonblocking_loop IH H Hnb.
Qed.

Lemma receive_from_retry_nonblocking (errno_h : ErrnoTable) (build : Build)
      (wfuel fuel : nat) (s : Socket) (buffer : list byte) (buflen : Z)
      (sa : list byte) (optlen : Z) :
  blocking s = false ->
  forall (w : World) (res : Z * list byte * list byte * Z) (w' : World),
    receive_from_retry wfuel fuel s buffer buflen sa optlen w
    = Some (res, w') ->
    exists k, trace w'
              = repeat (Recvfrom (fd s) (u32 buflen) 0 optlen) k ++ trace w.
Proof.
  intros Hnb. induction fuel as [| fuel IH]; intros w res w' H;
    [discriminate H |].
  cbn [receive_from_retry] in H. nonblocking_loop IH H Hnb.
Qed.

Lemma send_retry_nonblocking (errno_h : ErrnoTable) (build : Build)
      (wfuel fuel : nat) (s : Socket) (buffer : list byte) (buflen : Z) :
  blocking s = false ->
  forall (w : World) (res : Z) (w' : World),
    send_retry wfuel fuel s buffer buflen w = Some (res, w') ->
    exists k, trace w'
              = repeat (Send (fd s) (firstn (Z.to_nat (u32 buflen)) buffer)
                          (u32 buflen) SOCKET_DEFAULT_SEND_FLAGS) k
                ++ trace w.
Proof.
  intros Hnb. induction fuel as [| fuel IH]; intros w res w' H;
    [discriminate H |].
  cbn [send_retry] in H. nonblocking_loop IH H Hnb.
Qed.

Lemma send_to_retry_nonblocking (errno_h : ErrnoTable) (build : Build)
      (wfuel fuel : nat) (s : Socket) (buffer : list byte) (buflen : Z)
      (sa : list byte) (optlen : Z) :
  blocking s = false ->
  forall (w : World) (res : Z) (w' : World),
    send_to_retry wfuel fuel s buffer buflen sa optlen w = Some (res, w') ->
    exists k, trace w'
              = repeat (Sendto (fd s) (firstn (Z.to_nat (u32 buflen)) buffer)
                          (u32 buflen) 0 (firstn (Z.to_nat optlen) sa) optlen)
                  k ++ trace w.
Proof.
  intros Hnb. induction fuel as [| fuel IH]; intros w res w' H;
    [discriminate H |].
  cbn [send_to_retry] in H. nonblocking_loop IH H Hnb.
Qed.

(** X26. On a handle in non-blocking mode a transfer function never
    waits for readiness and makes no call but its own: every call
    [socket_receive], [socket_receive_from], [socket_send] and
    [socket_send_to] add to the trace is one and the same [recv],
    [recvfrom], [send] or [sendto], repeated as often as it was
    retried. *)
Theorem nonblocking_transfer_calls :
  forall (errno_h : ErrnoTable) (build : Build) (s : Socket)
         (buf : list byte) (buflen : Z) (fuel : nat) (w : World),
    blocking s = false ->
    (forall res w',
       socket_receive (Some s) (Some buf) buflen fuel w = Some (res, w') ->
       exists k, trace w' = repeat (Recv (fd s) (u32 buflen) 0) k ++ trace w)
    /\ (forall from res w',
          socket_receive_from (Some s) from (Some buf) buflen fuel w
          = Some (res, w') ->
          exists k,
            trace w'
            = repeat (Recvfrom (fd s) (u32 buflen) 0
                        (Z.of_nat sizeof_sockaddr_storage)) k ++ trace w)
    /\ (forall res w',
          socket_send (Some s) (Some buf) buflen fuel w = Some (res, w') ->
          exists k,
            trace w'
            = repeat (Send (fd s) (firstn (Z.to_nat (u32 buflen)) buf)
                        (u32 buflen) SOCKET_DEFAULT_SEND_FLAGS) k ++ trace w)
    /\ (forall a res w',
          socket_send_to (Some s) (Some a) (Some buf) buflen fuel w
          = Some (res, w') ->
          exists native len k,
            trace w'
            = repeat (Sendto (fd s) (firstn (Z.to_nat (u32 buflen)) buf)
                        (u32 buflen) 0 native len) k ++ trace w).
Proof.
  intros errno_h build s buf buflen fuel w Hnb.
  split; [| split; [| split]].
  - intros res w'. unfold socket_receive, _XX__socket_check.
    destruct (closed s);
      [run_monad; intros [= <- <-]; exists 0%nat; reflexivity |].
    unfold bind at 1, ret at 1. cbn [negb]. unfold bind at 1.
    destruct (receive_retry fuel fuel s buf buflen w) as [[[n out] w1] |] eqn:H;
      [| discriminate].
    intros [= <- <-]. eapply receive_retry_nonblocking; eassumption.
  - intros from res w'. unfold socket_receive_from, _XX__socket_check.
    destruct (buflen =? 0);
      [run_monad; intros [= <- <-]; exists 0%nat; reflexivity |].
    destruct (closed s);
      [run_monad; intros [= <- <-]; exists 0%nat; reflexivity |].
    unfold bind at 1, ret at 1. cbn [negb]. unfold bind at 1.
    destruct (receive_from_retry fuel fuel s buf buflen _ _ w)
      as [[[[[n out] sa] len] w1] |] eqn:H; [| discriminate].
    apply receive_from_retry_nonblocking in H; [| exact Hnb].
    destruct (n <? 0); [| destruct from]; intros [= <- <-]; exact H.
  - intros res w'. unfold socket_send, _XX__socket_check.
    destruct (buflen =? 0);
      [run_monad; intros [= <- <-]; exists 0%nat; reflexivity |].
    destruct (closed s);
      [run_monad; intros [= <- <-]; exists 0%nat; reflexivity |].
    unfold bind at 1, ret at 1. cbn [negb].
    intros H. eapply send_retry_nonblocking; eassumption.
  - intros a res w'. unfold socket_send_to, _XX__socket_check.
    destruct (closed s);
      [run_monad; intros [= <- <-]; exists [], 0, 0%nat; reflexivity |].
    unfold bind at 1, ret at 1. cbn [negb].
    destruct (socket_address_to_native _ _ _) as [sa |];
      [| run_monad; intros [= <- <-]; exists [], 0, 0%nat; reflexivity].
    intros H. apply send_to_retry_nonblocking in H; [| exact Hnb].
    destruct H as [k H]. eexists _, _, k. exact H.
Qed.

(** [recv] is interrupted once and then would block: two [recv] calls,
    no wait. *)
Lemma nonblocking_transfer_calls_witness :
  exists res w',
    socket_receive (errno_h := linux_errno) (build := linux_poll)
      (Some sample_socket) (Some [x00]) 1 2
      (scripted [reply (-1) (Some 4); reply (-1) (Some 11)])
    = Some (res, w')
    /\ exists k, trace w' = repeat (Recv 3 1 0) k.
Proof.
  destruct (socket_receive (errno_h := linux_errno) (build := linux_poll)
              (Some sample_socket) (Some [x00]) 1 2
              (scripted [reply (-1) (Some 4); reply (-1) (Some 11)]))
    as [[res w'] |] eqn:Hrun; [| vm_compute in Hrun; discriminate Hrun].
  exists res, w'. split; [reflexivity |].
  destruct (proj1 (nonblocking_transfer_calls linux_errno linux_poll
                     sample_socket [x00] 1 2 _ eq_refl) _ _ Hrun) as [k Hk].
  exists k. rewrite Hk. apply app_nil_r.
Defined.

(** ** Addresses of a handle *)

Lemma from_native_length (mem : list byte) (len len' : Z) (a : SocketAddress) :
  socket_address_new_from_native (Some mem) len = Some a ->
  socket_address_get_native_size (Some a) <= len' ->
  socket_address_new_from_native (Some mem) len' = Some a.
Proof.
  unfold socket_address_new_from_native, socket_address_get_native_size.
  destruct (len =? 0); [discriminate |].
  destruct (load16 mem off_sa_family =? AF_INET).
  - destruct (len <? Z.of_nat sizeof_sockaddr_in); [discriminate |].
    intros [= <-]. cbn [family set_family set_port set_addr].
    unfold sizeof_sockaddr_in. intros Hlen.
    destruct (Z.eqb_spec len' 0); [lia |].
    destruct (Z.ltb_spec len' (Z.of_nat 16)); [lia | reflexivity].
  - destruct (load16 mem off_sa_family =? AF_INET6); [| discriminate].
    destruct (len <? Z.of_nat sizeof_sockaddr_in6); [discriminate |].
    intros [= <-].
    cbn [family set_family set_port set_addr set_flowinfo set_scope_id].
    unfold sizeof_sockaddr_in6. intros Hlen.
    destruct (Z.eqb_spec len' 0); [lia |].
    destruct (Z.ltb_spec len' (Z.of_nat 28)); [lia | reflexivity].
Qed.

Lemma write_back_prefix (k : nat) (native storage : list byte) :
  (k <= length native)%nat ->
  skipn k native = skipn k storage ->
  write_at 0 (firstn k native) storage = native.
Proof.
  intros Hk Htail. unfold write_at. cbn [firstn app Nat.add].
  rewrite length_firstn, Nat.min_l by exact Hk.
  rewrite <- Htail. apply firstn_skipn.
Qed.

Lemma to_native_tail (a : SocketAddress) (dest native : list byte) :
  socket_address_get_native_size (Some a) <= Z.of_nat (length dest) ->
  socket_address_to_native (Some a) (Some dest) (Z.of_nat (length dest))
  = Some native ->
  skipn (Z.to_nat (socket_address_get_native_size (Some a))) native
  = skipn (Z.to_nat (socket_address_get_native_size (Some a))) dest
  /\ length native = length dest.
Proof.
  intros Hsize Hnat. unfold socket_address_get_native_size in *.
  unfold socket_address_to_native in Hnat.
  destruct (family a).
  - destruct (_ =? 0); discriminate.
  - unfold sizeof_sockaddr_in in Hsize.
    assert (Hd : (16 <= length dest)%nat) by lia.
    explode_list Hd. revert Hnat. decide_length_tests. memory_compute.
    intros [= <-]. split; reflexivity.
  - unfold sizeof_sockaddr_in6 in Hsize.
    assert (Hd : (28 <= length dest)%nat) by lia.
    explode_list Hd. revert Hnat. decide_length_tests. memory_compute.
    intros [= <-]. split; reflexivity.
Qed.

(** X27. [socket_get_local_address] and [socket_get_remote_address]
    give back the address the kernel reports: when [getsockname]
    (respectively [getpeername]) succeeds and stores the native form of
    an address [a] that satisfies the address invariant, in its native
    size, the call returns [a], having made that one call and recorded
    no error. *)
Theorem reported_address_round_trip :
  forall (errno_h : ErrnoTable) (s : Socket) (a : SocketAddress)
         (native : list byte) (w : World),
    address_invariant a ->
    socket_address_to_native (Some a) (Some sockaddr_storage)
      (Z.of_nat sizeof_sockaddr_storage) = Some native ->
    0 <= r_ret (os w (length (trace w))) ->
    r_addr (os w (length (trace w)))
    = firstn (Z.to_nat (socket_address_get_native_size (Some a))) native ->
    r_len (os w (length (trace w))) = socket_address_get_native_size (Some a) ->
    (exists w',
       socket_get_local_address (Some s) w = Some (Some a, w')
       /\ trace w' = Getsockname (fd s) :: trace w
       /\ CURRENT_ERROR w' = CURRENT_ERROR w)
    /\ (exists w',
          socket_get_remote_address (Some s) w = Some (Some a, w')
          /\ trace w' = Getpeername (fd s) :: trace w
          /\ CURRENT_ERROR w' = CURRENT_ERROR w).
Proof.
  intros errno_h s a native w Hinv Hnat Hret Haddr Hlen.
  assert (Hsize : socket_address_get_native_size (Some a)
                  <= Z.of_nat (length sockaddr_storage)).
  { unfold socket_address_get_native_size. destruct (family a);
      vm_compute; discriminate. }
  destruct (to_native_tail a sockaddr_storage native Hsize Hnat)
    as [Htail Hl].
  assert (Hbuf : write_at 0 (r_addr (os w (length (trace w)))) sockaddr_storage
                 = native).
  { rewrite Haddr. apply write_back_prefix; [| exact Htail].
    rewrite Hl. apply Nat2Z.inj_le. rewrite Z2Nat.id; [exact Hsize |].
    unfold socket_address_get_native_size. destruct (family a);
      vm_compute; discriminate. }
  destruct (address_round_trip_invariant a sockaddr_storage Hinv Hsize)
    as (b & Hb & _ & Hfrom).
  change (Z.of_nat (length sockaddr_storage))
    with (Z.of_nat sizeof_sockaddr_storage) in Hb.
  assert (b = native) by congruence. subst b.
  apply from_native_length
    with (len' := socket_address_get_native_size (Some a)) in Hfrom;
    [| lia].
  split.
  - unfold socket_get_local_address. run_monad.
    rewrite (proj2 (Z.ltb_ge _ 0) Hret), Hbuf, Hlen, Hfrom.
    eexists. split; [reflexivity |]. split; reflexivity.
  - unfold socket_get_remote_address. run_monad.
    rewrite (proj2 (Z.ltb_ge _ 0) Hret), Hbuf, Hlen, Hfrom.
    eexists. split; [reflexivity |]. split; reflexivity.
Qed.

Lemma reported_address_round_trip_witness :
  exists w',
    socket_get_local_address (errno_h := linux_errno) (Some sample_socket)
      (scripted [reply_with 0 0 16 sample_sockaddr_in])
    = Some (Some sample_address4, w').
Proof.
  destruct (reported_address_round_trip linux_errno sample_socket
              sample_address4 (sample_sockaddr_in ++ zeros 112)
              (scripted [reply_with 0 0 16 sample_sockaddr_in]))
    as [(w' & Hrun & _) _].
  - unfold address_invariant, sample_address4.
    cbn [family addr port flowinfo scope_id].
    repeat split; try discriminate; try reflexivity; lia.
  - reflexivity.
  - simpl; lia.
  - reflexivity.
  - reflexivity.
  - exists w'. exact Hrun.
Defined.
